(** * mflags: a shallow embedding of the flag parser (mflags.go) and the
    command dispatcher (dispatcher.go), with the properties of its spec.

    Go strings are byte strings: they are modelled as Stdlib [string]
    (a list of 8-bit [ascii] characters).  Runes are [Z] code points, and
    [[]rune(s)] / [string(runes)] are modelled by the UTF-8 decoder and
    encoder below, following Go's unicode/utf8 rules.

    The Go standard-library functions whose exact behaviour does not bear on
    this package's logic ([time.ParseDuration], [time.Duration.String],
    [strconv.ParseFloat], [strconv.Quote]) are parameters of the section
    [Mflags]: every theorem holds for every implementation of them. *)

From Stdlib Require Import ZArith Strings.String Strings.Ascii
  Numbers.DecimalString List Bool Lia.
From Stdlib Require Numbers.DecimalPos.
From stdpp Require Import base gmap strings list sorting.

Open Scope string_scope.
Open Scope Z_scope.
Open Scope list_scope.

(* ------------------------------------------------------------------ *)
(** ** Byte strings, as Go's [strings] package sees them *)

Definition byteZ (a : ascii) : Z := Z.of_N (N_of_ascii a).

Definition str1 (a : ascii) : string := String a EmptyString.

Definition sapp (s1 s2 : string) : string := String.append s1 s2.
Infix "+++" := sapp (right associativity, at level 60).

(** [strings.HasPrefix(s, prefix)] *)
Definition HasPrefix (s prefix : string) : bool := String.prefix prefix s.

(** [s[n:]] *)
Definition sdrop (n : nat) (s : string) : string :=
  String.substring n (String.length s - n) s.

(** [strings.TrimPrefix(s, prefix)] *)
Definition TrimPrefix (s prefix : string) : string :=
  if HasPrefix s prefix then sdrop (String.length prefix) s else s.

(** [strings.Join(elems, sep)] *)
Definition Join (elems : list string) (sep : string) : string :=
  String.concat sep elems.

(** [strings.SplitN(s, "=", 2)] on a string that contains ["="]: the text
    before the first ["="] and the text after it. *)
Fixpoint split_eq (s : string) : string * string :=
  match s with
  | EmptyString => (EmptyString, EmptyString)
  | String c r =>
      if Ascii.eqb c "=" then (EmptyString, r)
      else let '(a, b) := split_eq r in (String c a, b)
  end.

(** [strings.Contains(s, "=")] *)
Fixpoint contains_eq (s : string) : bool :=
  match s with
  | EmptyString => false
  | String c r => Ascii.eqb c "=" || contains_eq r
  end.

(** [strings.Split(s, ",")]: [Split("", ",") = [""]]. *)
Fixpoint split_comma (s : string) : list string :=
  match s with
  | EmptyString => [EmptyString]
  | String c r =>
      if Ascii.eqb c "," then EmptyString :: split_comma r
      else match split_comma r with
           | w :: ws => String c w :: ws
           | [] => [str1 c]
           end
  end.

(** *** [strings.Fields]: split around runs of [unicode.IsSpace] runes.
    The ASCII spaces are TAB, LF, VT, FF, CR and SPACE; the others are
    U+0085, U+00A0, U+1680, U+2000..U+200A, U+2028, U+2029, U+202F, U+205F
    and U+3000, whose UTF-8 encodings start with a byte (C2, E1, E2, E3)
    that is never a continuation byte, so testing every byte position gives
    the same answer as Go's rune-by-rune decoding, also on invalid UTF-8. *)
Definition ascii_space (b : Z) : bool :=
  ((9 <=? b) && (b <=? 13)) || (b =? 32).

Definition space2 (b0 b1 : Z) : bool :=
  (b0 =? 194) && ((b1 =? 133) || (b1 =? 160)).

Definition space3 (b0 b1 b2 : Z) : bool :=
  ((b0 =? 225) && (b1 =? 154) && (b2 =? 128))
  || ((b0 =? 226) && (b1 =? 128)
      && (((128 <=? b2) && (b2 <=? 138)) || (b2 =? 168) || (b2 =? 169)
          || (b2 =? 175)))
  || ((b0 =? 226) && (b1 =? 129) && (b2 =? 159))
  || ((b0 =? 227) && (b1 =? 128) && (b2 =? 128)).

(** Each byte of [s], marked [true] when it belongs to a space rune. *)
Fixpoint space_mask (s : string) : list (ascii * bool) :=
  match s with
  | EmptyString => []
  | String a r =>
      if ascii_space (byteZ a) then (a, true) :: space_mask r
      else match r with
           | EmptyString => [(a, false)]
           | String b r2 =>
               if space2 (byteZ a) (byteZ b) then (a, true) :: (b, true) :: space_mask r2
               else match r2 with
                    | EmptyString => (a, false) :: space_mask r
                    | String c r3 =>
                        if space3 (byteZ a) (byteZ b) (byteZ c)
                        then (a, true) :: (b, true) :: (c, true) :: space_mask r3
                        else (a, false) :: space_mask r
                    end
           end
  end.

Definition flush (cur : string) : list string :=
  if String.eqb cur EmptyString then [] else [cur].

Fixpoint fields_go (m : list (ascii * bool)) (cur : string) : list string :=
  match m with
  | [] => flush cur
  | (_, true) :: m' => flush cur ++ fields_go m' EmptyString
  | (a, false) :: m' => fields_go m' (cur +++ str1 a)
  end.

Definition Fields (s : string) : list string := fields_go (space_mask s) EmptyString.

(* ------------------------------------------------------------------ *)
(** ** UTF-8: [[]rune(s)] and [string(runes)] (Go's unicode/utf8) *)

Definition RuneError : Z := 65533.

Definition inr_ (lo b hi : Z) : bool := (lo <=? b) && (b <=? hi).
Definition cont (b : Z) : bool := inr_ 128 b 191.

Definition ok2 (b0 b1 : Z) : bool := inr_ 194 b0 223 && cont b1.

Definition ok3 (b0 b1 b2 : Z) : bool :=
  (((b0 =? 224) && inr_ 160 b1 191)
   || ((inr_ 225 b0 236 || inr_ 238 b0 239) && cont b1)
   || ((b0 =? 237) && inr_ 128 b1 159))
  && cont b2.

Definition ok4 (b0 b1 b2 b3 : Z) : bool :=
  (((b0 =? 240) && inr_ 144 b1 191)
   || (inr_ 241 b0 243 && cont b1)
   || ((b0 =? 244) && inr_ 128 b1 143))
  && cont b2 && cont b3.

Definition rune2 (b0 b1 : Z) : Z :=
  Z.lor (Z.shiftl (Z.land b0 31) 6) (Z.land b1 63).
Definition rune3 (b0 b1 b2 : Z) : Z :=
  Z.lor (Z.lor (Z.shiftl (Z.land b0 15) 12) (Z.shiftl (Z.land b1 63) 6)) (Z.land b2 63).
Definition rune4 (b0 b1 b2 b3 : Z) : Z :=
  Z.lor (Z.lor (Z.lor (Z.shiftl (Z.land b0 7) 18) (Z.shiftl (Z.land b1 63) 12))
               (Z.shiftl (Z.land b2 63) 6)) (Z.land b3 63).

(** [[]rune(s)]: an invalid or truncated sequence decodes as RuneError and
    consumes one byte. *)
Fixpoint runes_of (s : string) : list Z :=
  match s with
  | EmptyString => []
  | String a r =>
      let b0 := byteZ a in
      if b0 <? 128 then b0 :: runes_of r else
      match r with
      | EmptyString => [RuneError]
      | String a1 r1 =>
          let b1 := byteZ a1 in
          if ok2 b0 b1 then rune2 b0 b1 :: runes_of r1 else
          match r1 with
          | EmptyString => RuneError :: runes_of r
          | String a2 r2 =>
              let b2 := byteZ a2 in
              if ok3 b0 b1 b2 then rune3 b0 b1 b2 :: runes_of r2 else
              match r2 with
              | EmptyString => RuneError :: runes_of r
              | String a3 r3 =>
                  let b3 := byteZ a3 in
                  if ok4 b0 b1 b2 b3 then rune4 b0 b1 b2 b3 :: runes_of r3
                  else RuneError :: runes_of r
              end
          end
      end
  end.

Definition byte_of (z : Z) : ascii := ascii_of_N (Z.to_N z).

(** [utf8.AppendRune]: surrogates and out-of-range runes encode RuneError. *)
Definition encode_rune (r : Z) : string :=
  if (0 <=? r) && (r <? 128) then str1 (byte_of r)
  else if (0 <=? r) && (r <? 2048) then
    String (byte_of (Z.lor 192 (Z.shiftr r 6)))
      (str1 (byte_of (Z.lor 128 (Z.land r 63))))
  else
    let r := if (r <? 0) || inr_ 55296 r 57343 || (1114111 <? r) then RuneError else r in
    if r <? 65536 then
      String (byte_of (Z.lor 224 (Z.shiftr r 12)))
        (String (byte_of (Z.lor 128 (Z.land (Z.shiftr r 6) 63)))
          (str1 (byte_of (Z.lor 128 (Z.land r 63)))))
    else
      String (byte_of (Z.lor 240 (Z.shiftr r 18)))
        (String (byte_of (Z.lor 128 (Z.land (Z.shiftr r 12) 63)))
          (String (byte_of (Z.lor 128 (Z.land (Z.shiftr r 6) 63)))
            (str1 (byte_of (Z.lor 128 (Z.land r 63)))))).

(** [string(runes)] *)
Definition string_of_runes (rs : list Z) : string :=
  fold_right (fun r acc => encode_rune r +++ acc) EmptyString rs.

(** [strconv.Itoa] / [%d] *)
Definition Itoa (z : Z) : string := NilEmpty.string_of_int (Z.to_int z).


(* ------------------------------------------------------------------ *)
(** ** [strconv]: ParseBool, ParseUint, ParseInt and Atoi in base 10 *)

Inductive num_err := ErrSyntax | ErrRange.

(** Conversion errors: [*strconv.NumError] and errors known by their text. *)
Inductive conv_error :=
| NumError (Func Num : string) (Err : num_err)
| TextError (msg : string).

(** [strconv.ParseBool] *)
Definition ParseBool (str : string) : bool + conv_error :=
  if existsb (String.eqb str) ["1"; "t"; "T"; "TRUE"; "true"; "True"] then inl true
  else if existsb (String.eqb str) ["0"; "f"; "F"; "FALSE"; "false"; "False"] then inl false
  else inr (NumError "ParseBool" str ErrSyntax).

(** The digit loop of [strconv.ParseUint] in base 10: a non-digit is a
    syntax error, and the first digit that takes the value above [maxVal] is
    a range error (reported even if a non-digit follows). *)
Fixpoint uint_digits (s : string) (n maxVal : Z) : Z + num_err :=
  match s with
  | EmptyString => inl n
  | String c r =>
      let b := byteZ c in
      if inr_ 48 b 57 then
        let n1 := n * 10 + (b - 48) in
        if maxVal <? n1 then inr ErrRange else uint_digits r n1 maxVal
      else inr ErrSyntax
  end.

(** [strconv.ParseUint(s, 10, bitSize)] *)
Definition ParseUint (s : string) (bitSize : Z) : Z + conv_error :=
  if String.eqb s EmptyString then inr (NumError "ParseUint" s ErrSyntax) else
  match uint_digits s 0 (2 ^ bitSize - 1) with
  | inl n => inl n
  | inr e => inr (NumError "ParseUint" s e)
  end.

(** [strconv.ParseInt(s, 10, bitSize)] *)
Definition ParseInt (s : string) (bitSize : Z) : Z + conv_error :=
  if String.eqb s EmptyString then inr (NumError "ParseInt" s ErrSyntax) else
  let '(neg, s') :=
    match s with
    | String c r => if Ascii.eqb c "+" then (false, r)
                    else if Ascii.eqb c "-" then (true, r) else (false, s)
    | EmptyString => (false, s)
    end in
  let cutoff := 2 ^ (bitSize - 1) in
  match ParseUint s' bitSize with
  | inr (NumError _ _ ErrSyntax) => inr (NumError "ParseInt" s ErrSyntax)
  | inr (TextError m) => inr (TextError m)
  | inr (NumError _ _ ErrRange) => inr (NumError "ParseInt" s ErrRange)
  | inl un =>
      if negb neg && (cutoff <=? un) then inr (NumError "ParseInt" s ErrRange)
      else if neg && (cutoff <? un) then inr (NumError "ParseInt" s ErrRange)
      else inl (if neg then - un else un)
  end.

(** [strconv.Atoi] on a 64-bit platform: [ParseInt(s, 10, 0)] with the
    error's [Func] set to ["Atoi"] (its fast path for short inputs accepts
    and rejects exactly the same strings). *)
Definition Atoi (s : string) : Z + conv_error :=
  match ParseInt s 64 with
  | inr (NumError _ num e) => inr (NumError "Atoi" num e)
  | r => r
  end.

(* ------------------------------------------------------------------ *)
(** ** Values, flags, positional fields and the flag set *)

(** Contents of the Go variables that flags and fields are bound to. *)
Inductive Val :=
| VBool (b : bool)
| VString (s : string)
| VInt (z : Z)
| VUint (z : Z)
| VFloat (bits : Z)            (* IEEE-754 bit pattern of a float64 *)
| VDuration (ns : Z)
| VStrings (l : list string).  (* a []string; nil and empty are both [] *)

(** The implementations of the [Value] interface in mflags.go. *)
Inductive ValueKind := KBool | KString | KInt | KStringArray | KDuration.

(** A [Value]: which implementation, and the address of the variable its
    pointer designates. *)
Record Value := mkValue { vkind : ValueKind; vaddr : nat }.

Record Flag := mkFlag {
  Name : string;
  Short : Z;            (* rune; 0 when absent *)
  Usage : string;
  FlagValue : Value;
  DefValue : string }.

(** The reflect types a positional field can have, by the cases of
    [setFieldValue]: [Kind() == String], [Bool], [Int..Int64] (with
    [time.Duration] apart), [Uint..Uint64], [Float32/64], anything else. *)
Inductive GoType :=
| TString | TBool | TInt (bits : Z) | TDuration | TUint (bits : Z)
| TFloat (bits : Z) | TOther (tyname : string).

Record PositionalField := mkPositionalField {
  PosName : string;
  PosValue : nat;       (* address of the bound variable *)
  PosType : GoType }.

Record FlagSet := mkFlagSet {
  name : string;
  flags : gmap string Flag;
  shortMap : gmap Z Flag;
  args : list string;
  parsed : bool;
  restField : option nat;
  posFields : gmap Z PositionalField;
  allowUnknownFlags : bool;
  unknownFlags : list string;
  unknownField : option nat }.

Definition set_args (l : list string) (f : FlagSet) : FlagSet :=
  mkFlagSet f.(name) f.(flags) f.(shortMap) l f.(parsed) f.(restField)
    f.(posFields) f.(allowUnknownFlags) f.(unknownFlags) f.(unknownField).
Definition set_unknownFlags (l : list string) (f : FlagSet) : FlagSet :=
  mkFlagSet f.(name) f.(flags) f.(shortMap) f.(args) f.(parsed) f.(restField)
    f.(posFields) f.(allowUnknownFlags) l f.(unknownField).
Definition set_parsed (b : bool) (f : FlagSet) : FlagSet :=
  mkFlagSet f.(name) f.(flags) f.(shortMap) f.(args) b f.(restField)
    f.(posFields) f.(allowUnknownFlags) f.(unknownFlags) f.(unknownField).
Definition set_flags (m : gmap string Flag) (f : FlagSet) : FlagSet :=
  mkFlagSet f.(name) m f.(shortMap) f.(args) f.(parsed) f.(restField)
    f.(posFields) f.(allowUnknownFlags) f.(unknownFlags) f.(unknownField).
Definition set_shortMap (m : gmap Z Flag) (f : FlagSet) : FlagSet :=
  mkFlagSet f.(name) f.(flags) m f.(args) f.(parsed) f.(restField)
    f.(posFields) f.(allowUnknownFlags) f.(unknownFlags) f.(unknownField).
Definition set_posFields (m : gmap Z PositionalField) (f : FlagSet) : FlagSet :=
  mkFlagSet f.(name) f.(flags) f.(shortMap) f.(args) f.(parsed) f.(restField)
    m f.(allowUnknownFlags) f.(unknownFlags) f.(unknownField).
Definition set_restField (p : option nat) (f : FlagSet) : FlagSet :=
  mkFlagSet f.(name) f.(flags) f.(shortMap) f.(args) f.(parsed) p
    f.(posFields) f.(allowUnknownFlags) f.(unknownFlags) f.(unknownField).
Definition set_allowUnknownFlags (b : bool) (f : FlagSet) : FlagSet :=
  mkFlagSet f.(name) f.(flags) f.(shortMap) f.(args) f.(parsed) f.(restField)
    f.(posFields) b f.(unknownFlags) f.(unknownField).
Definition set_unknownField (p : option nat) (f : FlagSet) : FlagSet :=
  mkFlagSet f.(name) f.(flags) f.(shortMap) f.(args) f.(parsed) f.(restField)
    f.(posFields) f.(allowUnknownFlags) f.(unknownFlags) p.

(** [NewFlagSet(name)] *)
Definition NewFlagSet (nm : string) : FlagSet :=
  mkFlagSet nm ∅ ∅ [] false None ∅ false [] None.

(** The sentinel errors of mflags.go. *)
Inductive sentinel := ErrUnknownFlag | ErrMissingValue | ErrInvalidValue | ErrHelp.

(** The errors [Parse] builds:
    [FlagError s t None] is [fmt.Errorf("%w: <t>", s)],
    [FlagError s t (Some e)] is [fmt.Errorf("%w: <t>: %v", s, e)],
    [PositionError p e] is [fmt.Errorf("invalid value for position %d: %v", p, e)]. *)
Inductive error :=
| FlagError (s : sentinel) (flag : string) (cause : option conv_error)
| PositionError (pos : Z) (cause : conv_error).

(** [errors.Is(err, s)]: [%w] wraps the sentinel, [%v] wraps nothing. *)
Definition errors_Is (e : error) (s : sentinel) : bool :=
  match e, s with
  | FlagError ErrUnknownFlag _ _, ErrUnknownFlag
  | FlagError ErrMissingValue _ _, ErrMissingValue
  | FlagError ErrInvalidValue _ _, ErrInvalidValue
  | FlagError ErrHelp _ _, ErrHelp => true
  | _, _ => false
  end.

(** Results of a computation over the flag set and the variables: a value,
    a returned error, or a run-time panic. *)
Inductive res (A : Type) := ROk (a : A) | RErr (e : error) | RPanic.
Arguments ROk {A} a.
Arguments RErr {A} e.
Arguments RPanic {A}.

(** The mutable world of a [Parse] call: the flag set [f] and the variables
    its flags and fields point to. *)
Record PState := mkPState { ps_fs : FlagSet; ps_store : gmap nat Val }.

Definition M (A : Type) : Type := PState -> PState * res A.

Definition ret {A} (a : A) : M A := fun s => (s, ROk a).
Definition bind {A B} (m : M A) (k : A -> M B) : M B :=
  fun s => match m s with
           | (s', ROk a) => k a s'
           | (s', RErr e) => (s', RErr e)
           | (s', RPanic) => (s', RPanic)
           end.
Notation "x <- m ;; k" := (bind m (fun x => k)) (at level 100, m at next level, right associativity).
Notation "m ;;; k" := (bind m (fun _ => k)) (at level 100, right associativity).

Definition throw {A} (e : error) : M A := fun s => (s, RErr e).
Definition panic {A} : M A := fun s => (s, RPanic).
Definition get_fs : M FlagSet := fun s => (s, ROk s.(ps_fs)).
Definition modify_fs (g : FlagSet -> FlagSet) : M unit :=
  fun s => (mkPState (g s.(ps_fs)) s.(ps_store), ROk tt).
(** [*p = v] *)
Definition store_to (a : nat) (v : Val) : M unit :=
  fun s => (mkPState s.(ps_fs) (<[a := v]> s.(ps_store)), ROk tt).
Definition get_store : M (gmap nat Val) := fun s => (s, ROk s.(ps_store)).

Section Mflags.

(** Go standard-library functions this package calls, left abstract. *)
Context (ParseDuration : string -> Z + string).      (* time.ParseDuration: ns, or the error text *)
Context (DurationString : Z -> string).              (* time.Duration.String *)
Context (ParseFloat : string -> Z -> Z + conv_error). (* strconv.ParseFloat(s, bitSize), as float64 bits *)
Context (Quote : string -> string).                  (* strconv.Quote *)

(* ------------------------------------------------------------------ *)
(** *** The [Value] implementations *)

(** [v.IsBool()]: only [boolValue] answers true. *)
Definition IsBool (v : Value) : bool :=
  match vkind v with KBool => true | _ => false end.

(** The new contents [v.Set(s)] stores, or the error it returns (the
    variable is left unchanged then). *)
Definition value_set (k : ValueKind) (s : string) : Val + conv_error :=
  match k with
  | KBool => match ParseBool s with inl b => inl (VBool b) | inr e => inr e end
  | KString => inl (VString s)
  | KInt => match Atoi s with inl z => inl (VInt z) | inr e => inr e end
  | KStringArray => inl (VStrings (split_comma s))
  | KDuration =>
      match ParseDuration s with inl d => inl (VDuration d) | inr m => inr (TextError m) end
  end.

(** [v.Set(s)] *)
Definition SetValue (v : Value) (s : string) : M (option conv_error) :=
  match value_set (vkind v) s with
  | inl x => store_to (vaddr v) x ;;; ret None
  | inr e => ret (Some e)
  end.

Definition FormatBool (b : bool) : string := if b then "true" else "false".

(** [v.String()]; a variable never written holds Go's zero value. *)
Definition value_string (k : ValueKind) (x : option Val) : string :=
  match k, x with
  | KBool, Some (VBool b) => FormatBool b
  | KString, Some (VString s) => s
  | KInt, Some (VInt z) => Itoa z
  | KStringArray, Some (VStrings l) => Join l ","
  | KDuration, Some (VDuration d) => DurationString d
  | KBool, _ => "false"
  | KString, _ => ""
  | KInt, _ => "0"
  | KStringArray, _ => ""
  | KDuration, _ => DurationString 0
  end.

(* ------------------------------------------------------------------ *)
(** *** Registration *)

(** [f.Var(value, name, short, usage)] *)
Definition Var (value : Value) (nm : string) (short : Z) (usage : string) : M unit :=
  st <- get_store ;;
  let flag := mkFlag nm short usage value (value_string (vkind value) (st !! vaddr value)) in
  (if String.eqb nm "" then ret tt
   else modify_fs (fun f => set_flags (<[nm := flag]> f.(flags)) f)) ;;;
  (if Z.eqb short 0 then ret tt
   else modify_fs (fun f => set_shortMap (<[short := flag]> f.(shortMap)) f)).

(** [f.BoolVar(p, name, short, value, usage)] and its siblings. *)
Definition BoolVar (p : nat) (nm : string) (short : Z) (value : bool) (usage : string) : M unit :=
  Var (mkValue KBool p) nm short usage ;;; store_to p (VBool value).
Definition StringVar (p : nat) (nm : string) (short : Z) (value : string) (usage : string) : M unit :=
  Var (mkValue KString p) nm short usage ;;; store_to p (VString value).
Definition IntVar (p : nat) (nm : string) (short : Z) (value : Z) (usage : string) : M unit :=
  Var (mkValue KInt p) nm short usage ;;; store_to p (VInt value).
Definition StringArrayVar (p : nat) (nm : string) (short : Z) (value : list string) (usage : string) : M unit :=
  Var (mkValue KStringArray p) nm short usage ;;; store_to p (VStrings value).
Definition DurationVar (p : nat) (nm : string) (short : Z) (value : Z) (usage : string) : M unit :=
  Var (mkValue KDuration p) nm short usage ;;; store_to p (VDuration value).

(** [f.BoolPosVar(p, name, position, value, usage)] and its siblings:
    [*p = value; f.posFields[position] = &PositionalField{...}]. *)
Definition PosVar (t : GoType) (v : Val) (p : nat) (nm : string) (position : Z) : M unit :=
  store_to p v ;;;
  modify_fs (fun f => set_posFields (<[position := mkPositionalField nm p t]> f.(posFields)) f).
Definition BoolPosVar (p : nat) (nm : string) (position : Z) (value : bool) (usage : string) : M unit :=
  PosVar TBool (VBool value) p nm position.
Definition StringPosVar (p : nat) (nm : string) (position : Z) (value : string) (usage : string) : M unit :=
  PosVar TString (VString value) p nm position.
Definition IntPosVar (p : nat) (nm : string) (position : Z) (value : Z) (usage : string) : M unit :=
  PosVar (TInt 64) (VInt value) p nm position.
Definition DurationPosVar (p : nat) (nm : string) (position : Z) (value : Z) (usage : string) : M unit :=
  PosVar TDuration (VDuration value) p nm position.

(** [f.Rest(p, usage)]: [*p = []string{}; f.restField = p]. *)
Definition Rest (p : nat) (usage : string) : M unit :=
  store_to p (VStrings []) ;;; modify_fs (set_restField (Some p)).

(** [f.AllowUnknownFlags(allow)] *)
Definition AllowUnknownFlags (allow : bool) : M unit :=
  modify_fs (set_allowUnknownFlags allow).

(** The [unknown:"true"] branch of [FromStruct] for a [[]string] field at
    address [p]: [f.unknownField = p; f.allowUnknownFlags = true]. *)
Definition FromStruct_unknown (p : nat) : M unit :=
  modify_fs (set_unknownField (Some p)) ;;; modify_fs (set_allowUnknownFlags true).

(* ------------------------------------------------------------------ *)
(** *** [setFieldValue] *)

Definition setFieldValue (t : GoType) (value : string) : Val + conv_error :=
  match t with
  | TString => inl (VString value)
  | TBool => match ParseBool value with inl b => inl (VBool b) | inr e => inr e end
  | TDuration =>
      match ParseDuration value with inl d => inl (VDuration d) | inr m => inr (TextError m) end
  | TInt bits => match ParseInt value bits with inl i => inl (VInt i) | inr e => inr e end
  | TUint bits => match ParseUint value bits with inl u => inl (VUint u) | inr e => inr e end
  | TFloat bits => match ParseFloat value bits with inl x => inl (VFloat x) | inr e => inr e end
  | TOther ty => inr (TextError ("unsupported type: " +++ ty))
  end.

(* ------------------------------------------------------------------ *)
(** *** [Parse] *)

(** How the scan index moves after a flag helper returns: on to the next
    token, past the next token too (it was consumed as a value), or to the
    end ([*index = len(args) - 1]). *)
Inductive step := Next | SkipNext | Stop.

(** [f.parseLongFlag(name, args, &i)]; [here] is [args[i:]], the current
    token and everything after it. *)
Definition parseLongFlag (name0 : string) (here : list string) : M step :=
  let '(nm, value, hasValue) :=
    if contains_eq name0 then let '(a, b) := split_eq name0 in (a, b, true)
    else (name0, "", false) in
  f <- get_fs ;;
  match f.(flags) !! nm with
  | None =>
      if f.(allowUnknownFlags) then
        modify_fs (fun f => set_unknownFlags (f.(unknownFlags) ++ here) f) ;;; ret Stop
      else throw (FlagError ErrUnknownFlag ("--" +++ nm) None)
  | Some flag =>
      vs <- (if IsBool flag.(FlagValue) then
               ret ((if hasValue then value else "true"), Next)
             else if hasValue then ret (value, Next)
             else match here with
                  | _ :: v :: _ => ret (v, SkipNext)
                  | _ => throw (FlagError ErrMissingValue ("--" +++ nm) None)
                  end) ;;
      let '(v, stp) := vs in
      e <- SetValue flag.(FlagValue) v ;;
      match e with
      | Some err => throw (FlagError ErrInvalidValue ("--" +++ nm) (Some err))
      | None => ret stp
      end
  end.

(** The loop of [f.parseShortFlags(shortFlags, args, &i)] over
    [runes[i:]]. *)
Fixpoint short_loop (rs : list Z) (here : list string) : M step :=
  match rs with
  | [] => ret Next
  | r :: rest =>
      f <- get_fs ;;
      let flagtxt := "-" +++ encode_rune r in
      match f.(shortMap) !! r with
      | None =>
          if f.(allowUnknownFlags) then
            modify_fs (fun f => set_unknownFlags (f.(unknownFlags) ++ here) f) ;;; ret Stop
          else throw (FlagError ErrUnknownFlag flagtxt None)
      | Some flag =>
          if IsBool flag.(FlagValue) then
            e <- SetValue flag.(FlagValue) "true" ;;
            match e with
            | Some err => throw (FlagError ErrInvalidValue flagtxt (Some err))
            | None => short_loop rest here
            end
          else
            match rest with
            | nextRune :: _ =>
                match f.(shortMap) !! nextRune with
                | Some nextFlag =>
                    if negb (IsBool nextFlag.(FlagValue))
                    then throw (FlagError ErrMissingValue flagtxt None)
                    else
                      e <- SetValue flag.(FlagValue) (string_of_runes rest) ;;
                      match e with
                      | Some err => throw (FlagError ErrInvalidValue flagtxt (Some err))
                      | None => ret Next
                      end
                | None =>
                    e <- SetValue flag.(FlagValue) (string_of_runes rest) ;;
                    match e with
                    | Some err => throw (FlagError ErrInvalidValue flagtxt (Some err))
                    | None => ret Next
                    end
                end
            | [] =>
                match here with
                | _ :: v :: _ =>
                    e <- SetValue flag.(FlagValue) v ;;
                    match e with
                    | Some err => throw (FlagError ErrInvalidValue flagtxt (Some err))
                    | None => ret SkipNext
                    end
                | _ => throw (FlagError ErrMissingValue flagtxt None)
                end
            end
      end
  end.

Definition parseShortFlags (shortFlags : string) (here : list string) : M step :=
  short_loop (runes_of shortFlags) here.

(** The token scan of [Parse]: [for i := 0; i < len(arguments); i++]. *)
Fixpoint scan (toks : list string) : M unit :=
  match toks with
  | [] => ret tt
  | arg :: rest =>
      if String.eqb arg "--" then
        modify_fs (fun f => set_args (f.(args) ++ rest) f)
      else
        let advance (stp : step) : M unit :=
          match stp with
          | Next => scan rest
          | SkipNext => match rest with _ :: rest' => scan rest' | [] => ret tt end
          | Stop => ret tt
          end in
        if HasPrefix arg "--" then
          stp <- parseLongFlag (sdrop 2 arg) toks ;; advance stp
        else if HasPrefix arg "-" && (1 <? String.length arg)%nat then
          stp <- parseShortFlags (sdrop 1 arg) toks ;; advance stp
        else
          modify_fs (fun f => set_args (f.(args) ++ [arg]) f) ;;; scan rest
  end.

(** [for pos, field := range f.posFields { ... }]; [order] is the sequence
    of keys this run's map iteration visits (Go leaves it unspecified). A
    negative position indexes [f.args] out of range: a run-time panic. *)
Fixpoint bind_positionals (order : list Z) : M unit :=
  match order with
  | [] => ret tt
  | pos :: order' =>
      f <- get_fs ;;
      match f.(posFields) !! pos with
      | None => bind_positionals order'
      | Some field =>
          if pos <? Z.of_nat (length f.(args)) then
            if pos <? 0 then panic else
            match setFieldValue field.(PosType) (nth (Z.to_nat pos) f.(args) "") with
            | inl v => store_to field.(PosValue) v ;;; bind_positionals order'
            | inr err => throw (PositionError pos err)
            end
          else bind_positionals order'
      end
  end.

(** [f.Parse(arguments)] *)
Definition Parse (order : list Z) (arguments : list string) : M unit :=
  modify_fs (fun f => set_unknownFlags [] (set_args [] (set_parsed true f))) ;;;
  scan arguments ;;;
  bind_positionals order ;;;
  f <- get_fs ;;
  (match f.(restField) with
   | Some p => store_to p (VStrings f.(args))
   | None => ret tt
   end) ;;;
  (match f.(unknownField) with
   | Some p => store_to p (VStrings f.(unknownFlags))
   | None => ret tt
   end).

(** [err.Error()] for the errors [Parse] returns. *)
Definition num_err_text (e : num_err) : string :=
  match e with ErrSyntax => "invalid syntax" | ErrRange => "value out of range" end.
Definition conv_error_string (e : conv_error) : string :=
  match e with
  | NumError fn num err => "strconv." +++ fn +++ ": parsing " +++ Quote num +++ ": " +++ num_err_text err
  | TextError m => m
  end.
Definition sentinel_text (s : sentinel) : string :=
  match s with
  | ErrUnknownFlag => "unknown flag"
  | ErrMissingValue => "flag needs an argument"
  | ErrInvalidValue => "invalid flag value"
  | ErrHelp => "help requested"
  end.
Definition error_string (e : error) : string :=
  match e with
  | FlagError s t None => sentinel_text s +++ ": " +++ t
  | FlagError s t (Some c) => sentinel_text s +++ ": " +++ t +++ ": " +++ conv_error_string c
  | PositionError p c => "invalid value for position " +++ Itoa p +++ ": " +++ conv_error_string c
  end.

(* ------------------------------------------------------------------ *)
(** *** [VisitAll] (completion.go) *)

(** [f.VisitAll(fn)] visits the flags of the long-name map [f.flags],
    sorted by [Name]; the list of flags it visits, in order. *)
Definition VisitAll (f : FlagSet) : list Flag :=
  merge_sort (fun f1 f2 => String.le f1.(Name) f2.(Name)) (map snd (map_to_list f.(flags))).

(* ------------------------------------------------------------------ *)
(** ** The dispatcher (dispatcher.go) *)

(** A [Command]: its flag set, its usage text, and which [Run] it has. *)
Record Command := mkCommand { cmd_FlagSet : FlagSet; cmd_Usage : string; cmd_Run : nat }.

Record CommandEntry := mkCommandEntry { Path : string; ce_Command : Command; ce_Usage : string }.

Record Dispatcher := mkDispatcher { commands : gmap string CommandEntry; dname : string }.

(** [NewDispatcher(name)] *)
Definition NewDispatcher (nm : string) : Dispatcher := mkDispatcher ∅ nm.

(** [normalizeCommandPath(path)] *)
Definition normalizeCommandPath (path : string) : string := Join (Fields path) " ".

(** [d.Dispatch(path, cmd)] *)
Definition Dispatch (d : Dispatcher) (path : string) (cmd : Command) : Dispatcher :=
  let normalizedPath := normalizeCommandPath path in
  mkDispatcher (<[normalizedPath := mkCommandEntry normalizedPath cmd cmd.(cmd_Usage)]> d.(commands))
    d.(dname).

(** [d.GetCommandEntry(path)], [d.GetCommand(path)], [d.HasCommand(path)] *)
Definition GetCommandEntry (d : Dispatcher) (path : string) : option CommandEntry :=
  d.(commands) !! normalizeCommandPath path.
Definition GetCommand (d : Dispatcher) (path : string) : option Command :=
  match d.(commands) !! normalizeCommandPath path with
  | Some entry => Some entry.(ce_Command)
  | None => None
  end.
Definition HasCommand (d : Dispatcher) (path : string) : bool :=
  match d.(commands) !! normalizeCommandPath path with Some _ => true | None => false end.

(** [isHelpFlag(flag)] *)
Definition isHelpFlag (flag : string) : bool :=
  String.eqb flag "-h" || String.eqb flag "--help".

(** The [flagInfo] struct of [findCommandWithInterspersedFlags]. *)
Record flagInfo := mkFlagInfo { fi_flag : string; fi_value : string; fi_hasValue : bool; fi_index : nat }.

(** Does some registered path start with [testPath]? *)
Definition some_path_has_prefix (d : Dispatcher) (testPath : string) : bool :=
  existsb (fun kv => HasPrefix kv.1 testPath) (map_to_list d.(commands)).

(** The first loop of [findCommandWithInterspersedFlags]: [toks] is
    [args[i:]]; it returns [commandParts], [commandPartIndices] and
    [skippedItems]. *)
Fixpoint collect (d : Dispatcher) (toks : list string) (i : nat) (commandParts : list string)
    (commandPartIndices : list nat) (skippedItems : list flagInfo)
    : list string * list nat * list flagInfo :=
  match toks with
  | [] => (commandParts, commandPartIndices, skippedItems)
  | arg :: rest =>
      if HasPrefix arg "-" then
        let nextIsCommand :=
          match rest with
          | next :: _ =>
              negb (HasPrefix next "-")
              && some_path_has_prefix d (normalizeCommandPath (Join (commandParts ++ [next]) " "))
          | [] => false
          end in
        if nextIsCommand then
          collect d rest (S i) commandParts commandPartIndices
            (skippedItems ++ [mkFlagInfo arg "" false i])
        else
          match rest with
          | next :: rest' =>
              if negb (HasPrefix next "-") then
                collect d rest' (S (S i)) commandParts commandPartIndices
                  (skippedItems ++ [mkFlagInfo arg next true i])
              else
                collect d rest (S i) commandParts commandPartIndices
                  (skippedItems ++ [mkFlagInfo arg "" false i])
          | [] =>
              collect d rest (S i) commandParts commandPartIndices
                (skippedItems ++ [mkFlagInfo arg "" false i])
          end
      else
        collect d rest (S i) (commandParts ++ [arg]) (commandPartIndices ++ [i]) skippedItems
  end.

(** The [fs.VisitAll] callback of the validation, over the visited flags:
    returns [(flagFound, valid)]. *)
Fixpoint visit_check (flagName : string) (fi : flagInfo) (fl : list Flag)
    (flagFound valid : bool) : bool * bool :=
  match fl with
  | [] => (flagFound, valid)
  | f :: fl' =>
      let matches :=
        match flagName with
        | String c EmptyString => Z.eqb f.(Short) (byteZ c)
        | _ => false
        end || String.eqb f.(Name) flagName in
      if matches then
        visit_check flagName fi fl' true
          (if fi.(fi_hasValue) && IsBool f.(FlagValue) then false else valid)
      else visit_check flagName fi fl' flagFound valid
  end.

(** The validation loop over [skippedItems]. *)
Fixpoint validate (fs : FlagSet) (lastCommandIndex : Z) (items : list flagInfo) (valid : bool) : bool :=
  match items with
  | [] => valid
  | fi :: items' =>
      if lastCommandIndex <? Z.of_nat fi.(fi_index) then validate fs lastCommandIndex items' valid
      else
        let flagName := TrimPrefix (TrimPrefix fi.(fi_flag) "--") "-" in
        let '(flagFound, valid') := visit_check flagName fi (VisitAll fs) false valid in
        validate fs lastCommandIndex items'
          (if negb flagFound && negb (isHelpFlag fi.(fi_flag)) then false else valid')
  end.

(** The flags interspersed up to [lastCommandIndex], each with its value. *)
Definition interspersed (lastCommandIndex : Z) (items : list flagInfo) : list string :=
  flat_map (fun fi =>
    if Z.of_nat fi.(fi_index) <=? lastCommandIndex then
      fi.(fi_flag) :: (if fi.(fi_hasValue) then [fi.(fi_value)] else [])
    else []) items.

(** The second loop: [for j := len(commandParts); j > 0; j--]. *)
Fixpoint try_prefixes (d : Dispatcher) (args0 : list string) (commandParts : list string)
    (commandPartIndices : list nat) (skippedItems : list flagInfo) (j : nat)
    : option CommandEntry * list string :=
  match j with
  | O => (None, args0)
  | S j' =>
      let testPath := normalizeCommandPath (Join (firstn j commandParts) " ") in
      match d.(commands) !! testPath with
      | Some entry =>
          let fs := entry.(ce_Command).(cmd_FlagSet) in
          let lastCommandIndex :=
            match nth_error commandPartIndices j' with Some k => Z.of_nat k | None => -1 end in
          let fullArgs :=
            interspersed lastCommandIndex skippedItems
            ++ (if (0 <=? lastCommandIndex) && (lastCommandIndex + 1 <? Z.of_nat (length args0))
                then drop (Z.to_nat (lastCommandIndex + 1)) args0 else []) in
          if validate fs lastCommandIndex skippedItems true then (Some entry, fullArgs)
          else try_prefixes d args0 commandParts commandPartIndices skippedItems j'
      | None => try_prefixes d args0 commandParts commandPartIndices skippedItems j'
      end
  end.

(** [d.findCommandWithInterspersedFlags(args)] *)
Definition findCommandWithInterspersedFlags (d : Dispatcher) (args0 : list string)
    : option CommandEntry * list string :=
  let '(commandParts, commandPartIndices, skippedItems) := collect d args0 0 [] [] [] in
  try_prefixes d args0 commandParts commandPartIndices skippedItems (length commandParts).

(** [d.HandleCompletion(args)]: whether the call is a completion request
    ([compLine] is [os.Getenv("COMP_LINE")]); what it prints is not modelled. *)
Definition HandleCompletion (compLine : string) (args0 : list string) : bool :=
  negb (String.eqb compLine "")
  || match args0 with
     | a :: _ => existsb (String.eqb a) ["--complete-bash"; "--complete-zsh";
                                        "--generate-bash-completion"; "--generate-zsh-completion"]
     | [] => false
     end.

(** What [d.Execute(args)] does. *)
Inductive outcome :=
| Completed                                   (* a completion request was answered *)
| ShowHelp                                    (* d.showHelp() *)
| ShowCommandHelp (entry : CommandEntry)      (* d.showCommandHelp(entry) *)
| UnknownCommand (msg : string)               (* fmt.Errorf("unknown command: %s", ...) *)
| ParseFailed (e : error)                     (* fmt.Errorf("error parsing flags: %w", err) *)
| Panicked                                    (* a run-time panic inside Parse *)
| RunCommand (entry : CommandEntry) (fs : FlagSet) (rest : list string).
                                              (* entry.Command.Run(fs, fs.Args()) *)

Definition is_help_token (a : string) : bool :=
  String.eqb a "-h" || String.eqb a "--help" || String.eqb a "help".

(** [d.Execute(args)]: [order] is the map iteration order [Parse] uses;
    the store holds the variables the command's flags are bound to. *)
Definition Execute (compLine : string) (order : list Z) (d : Dispatcher)
    (st : gmap nat Val) (args0 : list string) : outcome * gmap nat Val :=
  if HandleCompletion compLine args0 then (Completed, st) else
  match args0 with
  | [] => (ShowHelp, st)
  | _ =>
      let hasHelp := existsb is_help_token args0 in
      match findCommandWithInterspersedFlags d args0 with
      | (None, _) =>
          if hasHelp then (ShowHelp, st)
          else (UnknownCommand ("unknown command: " +++ Join args0 " "), st)
      | (Some entry, allArgs) =>
          if hasHelp then (ShowCommandHelp entry, st) else
          let fs := entry.(ce_Command).(cmd_FlagSet) in
          match Parse order allArgs (mkPState fs st) with
          | (ps, ROk _) => (RunCommand entry ps.(ps_fs) ps.(ps_fs).(args), ps.(ps_store))
          | (ps, RErr e) => (ParseFailed e, ps.(ps_store))
          | (ps, RPanic) => (Panicked, ps.(ps_store))
          end
      end
  end.

End Mflags.

(* ------------------------------------------------------------------ *)
(** ** Claim-level definitions *)

(** The prefix search of §4.2 step 2 as the spec words it: the candidate
    prefix lengths from longest to shortest, the first one that is
    registered and validates, and its reassembled argument vector. *)
Definition boundary (commandPartIndices : list nat) (j : nat) : nat :=
  nth (j - 1) commandPartIndices 0%nat.

Definition reassembled (args0 : list string) (skippedItems : list flagInfo) (b : nat) : list string :=
  concat (map (fun fi => fi_flag fi :: (if fi_hasValue fi then [fi_value fi] else []))
              (List.filter (fun fi => (fi_index fi <=? b)%nat) skippedItems))
  ++ drop (S b) args0.

Definition prefix_entry (d : Dispatcher) (parts : list string) (j : nat) : option CommandEntry :=
  d.(commands) !! normalizeCommandPath (Join (take j parts) " ").

Definition resolve_spec (d : Dispatcher) (args0 : list string) : option CommandEntry * list string :=
  let '(parts, indices, skipped) := collect d args0 0 [] [] [] in
  let accepts (j : nat) : bool :=
    match prefix_entry d parts j with
    | Some e => validate e.(ce_Command).(cmd_FlagSet) (Z.of_nat (boundary indices j)) skipped true
    | None => false
    end in
  match List.find accepts (rev (seq 1 (length parts))) with
  | Some j => (prefix_entry d parts j, reassembled args0 skipped (boundary indices j))
  | None => (None, args0)
  end.

(** The variable a flag is bound to. *)
Definition flag_addr (fl : Flag) : nat := vaddr (FlagValue fl).

(** [a] is the variable of a registered flag (long-name or short map). *)
Definition is_flag_addr (f : FlagSet) (a : nat) : Prop :=
  (exists k fl, f.(flags) !! k = Some fl /\ flag_addr fl = a)
  \/ (exists r fl, f.(shortMap) !! r = Some fl /\ flag_addr fl = a).

(** [a] is the variable of a positional field. *)
Definition is_pos_addr (f : FlagSet) (a : nat) : Prop :=
  exists p fld, f.(posFields) !! p = Some fld /\ PosValue fld = a.

(** No variable is bound twice across the kinds of binding: flags and
    positional fields use distinct variables, positional fields use pairwise
    distinct variables, and the rest and unknown slots are variables of
    their own. *)
Definition bindings_distinct (f : FlagSet) : Prop :=
  (forall a, is_flag_addr f a -> ~ is_pos_addr f a)
  /\ (forall p q fp fq, f.(posFields) !! p = Some fp -> f.(posFields) !! q = Some fq ->
        PosValue fp = PosValue fq -> p = q)
  /\ (forall r, f.(restField) = Some r -> ~ is_flag_addr f r /\ ~ is_pos_addr f r)
  /\ (forall u, f.(unknownField) = Some u ->
        ~ is_flag_addr f u /\ ~ is_pos_addr f u /\ f.(restField) <> Some u).

(** The positional fields use variables of their own: no flag variable,
    pairwise distinct, and neither the rest nor the unknown slot. *)
Definition positional_distinct (f : FlagSet) : Prop :=
  (forall a, is_flag_addr f a -> ~ is_pos_addr f a)
  /\ (forall p q fp fq, f.(posFields) !! p = Some fp -> f.(posFields) !! q = Some fq ->
        PosValue fp = PosValue fq -> p = q)
  /\ (forall r, f.(restField) = Some r -> ~ is_pos_addr f r)
  /\ (forall u, f.(unknownField) = Some u -> ~ is_pos_addr f u).

(** The long name a ["--name"] or ["--name=value"] token carries. *)
Definition long_name (tok : string) : string :=
  let n := sdrop 2 tok in if contains_eq n then (split_eq n).1 else n.

(** Token [tok] names a flag bound to variable [a]: by its long name, or
    by one of the runes of a short cluster. *)
Definition names_addr (f : FlagSet) (a : nat) (tok : string) : Prop :=
  (HasPrefix tok "--" = true /\ exists fl, f.(flags) !! long_name tok = Some fl /\ flag_addr fl = a)
  \/ (HasPrefix tok "-" = true /\ exists r fl, r ∈ runes_of (sdrop 1 tok)
        /\ f.(shortMap) !! r = Some fl /\ flag_addr fl = a).

(** The parts of a flag set that [Parse] never changes. *)
Definition schema (f : FlagSet)
  : gmap string Flag * gmap Z Flag * gmap Z PositionalField * option nat * option nat * bool :=
  (f.(flags), f.(shortMap), f.(posFields), f.(restField), f.(unknownField), f.(allowUnknownFlags)).

(** Run from [ps], [m] keeps the schema and writes no variable outside
    [W] (read in the flag set [m] starts from). *)
Definition wframe {A} (W : FlagSet -> nat -> Prop) (m : M A) (ps : PState) : Prop :=
  schema (ps_fs (m ps).1) = schema (ps_fs ps)
  /\ forall a, ~ W (ps_fs ps) a -> ps_store (m ps).1 !! a = ps_store ps !! a.

(** [m] keeps the schema, and writes no variable outside [W]. *)
Definition frame {A} (W : FlagSet -> nat -> Prop) (m : M A) : Prop :=
  forall ps, wframe W m ps.

(** [W] only looks at the schema of the flag set. *)
Definition schema_inv (W : FlagSet -> nat -> Prop) : Prop :=
  forall f g a, schema f = schema g -> W f a -> W g a.

(** The variables of the short flags of the runes [rs]. *)
Definition short_addr (rs : list Z) (f : FlagSet) (a : nat) : Prop :=
  exists r fl, r ∈ rs /\ f.(shortMap) !! r = Some fl /\ flag_addr fl = a.

(** The variables the tokens [toks] name. *)
Definition toks_addr (toks : list string) (f : FlagSet) (a : nat) : Prop :=
  exists t, t ∈ toks /\ names_addr f a t.

(** [m] never returns an error that [errors.Is] matches with [ErrHelp]. *)
Definition no_help {A} (m : M A) : Prop :=
  forall ps, match (m ps).2 with RErr e => errors_Is e ErrHelp = false | _ => True end.

(** The variables after the boolean short flags of the runes [pre] are set
    to true one after the other. *)
Definition mark_true (f : FlagSet) (pre : list Z) (st : gmap nat Val) : gmap nat Val :=
  fold_left (fun st q => match f.(shortMap) !! q with
                         | Some fl => <[flag_addr fl := VBool true]> st
                         | None => st
                         end) pre st.

(** Rune [q] is a registered boolean short flag. *)
Definition short_bool (f : FlagSet) (q : Z) : Prop :=
  exists fl, f.(shortMap) !! q = Some fl /\ IsBool fl.(FlagValue) = true.

(** The flag set [Parse] starts its scan from: [f.parsed = true;
    f.args = nil; f.unknownFlags = nil]. *)
Definition parse_reset (ps : PState) : PState :=
  mkPState (set_unknownFlags [] (set_args [] (set_parsed true (ps_fs ps)))) (ps_store ps).

(** The two assignments that end a successful [Parse]:
    [*f.restField = f.args] and [*f.unknownField = f.unknownFlags]. *)
Definition parse_finish (ps : PState) : PState :=
  let f := ps_fs ps in
  let st1 := match f.(restField) with
             | Some p => <[p := VStrings f.(args)]> (ps_store ps)
             | None => ps_store ps
             end in
  mkPState f (match f.(unknownField) with
              | Some p => <[p := VStrings f.(unknownFlags)]> st1
              | None => st1
              end).

(* ------------------------------------------------------------------ *)
(** ** Fixtures for the concrete cases

    Stand-ins for the abstract library functions, for evaluation on
    concrete inputs (none of the cases below reaches them). *)
Definition pd0 (s : string) : Z + string := inr ("time: invalid duration " +++ s).
Definition ds0 (d : Z) : string := Itoa d +++ "ns".
Definition pf0 (s : string) (bits : Z) : Z + conv_error := inr (NumError "ParseFloat" s ErrSyntax).

Definition run {A} (m : M A) (s : PState) : PState := fst (m s).
Definition empty_ps : PState := mkPState (NewFlagSet "test") ∅.

(** P5: paths "foo", "foo bar", "foo bar baz". *)
Definition cmd_plain : Command := mkCommand (NewFlagSet "cmd") "" 1.
Definition d_p5 : Dispatcher :=
  Dispatch (Dispatch (Dispatch (NewDispatcher "app") "foo" cmd_plain) "foo bar" cmd_plain)
    "foo bar baz" cmd_plain.

(** C2: "foo" whose flag set has a boolean flag with short character 'x'
    only ([fs.Bool("", 'x', false, "")]), and the same flag with a long
    name as well. *)
Definition fs_short_only : FlagSet := (run (BoolVar ds0 1 "" 120 false "") (mkPState (NewFlagSet "foo") ∅)).(ps_fs).
Definition fs_short_long : FlagSet := (run (BoolVar ds0 1 "xray" 120 false "") (mkPState (NewFlagSet "foo") ∅)).(ps_fs).
Definition d_short_only : Dispatcher := Dispatch (NewDispatcher "app") "foo" (mkCommand fs_short_only "" 1).
Definition d_short_long : Dispatcher := Dispatch (NewDispatcher "app") "foo" (mkCommand fs_short_long "" 1).

(** P6: "foo bar" with a string flag "config" / -C. *)
Definition fs_p6 : FlagSet := (run (StringVar ds0 1 "config" 67 "" "") (mkPState (NewFlagSet "bar") ∅)).(ps_fs).
Definition d_p6 : Dispatcher := Dispatch (NewDispatcher "myapp") "foo bar" (mkCommand fs_p6 "" 1).

(** A flag set with a string flag "out" / -o. *)
Definition fs_out : FlagSet := (run (StringVar ds0 1 "out" 111 "" "") (mkPState (NewFlagSet "t") ∅)).(ps_fs).

(** P7: unknown capture on, boolean verbose / -v. *)
Definition ps_p7 : PState :=
  run (BoolVar ds0 1 "verbose" 118 false "" ;;; AllowUnknownFlags true) (mkPState (NewFlagSet "t") ∅).

(** Unknown capture on, with a string flag -a. *)
Definition ps_c3a : PState :=
  run (StringVar ds0 1 "" 97 "" "" ;;; AllowUnknownFlags true) (mkPState (NewFlagSet "t") ∅).
(** Unknown capture on, with an int positional field at 0. *)
Definition ps_c3b : PState :=
  run (IntPosVar 1 "n" 0 0 "" ;;; AllowUnknownFlags true) (mkPState (NewFlagSet "t") ∅).

(** P4: value-taking short flags -a and -b. *)
Definition ps_p4 : PState :=
  run (StringVar ds0 1 "" 97 "" "" ;;; StringVar ds0 2 "" 98 "" "") (mkPState (NewFlagSet "t") ∅).
(** Value-taking short flags -q, -a and -b. *)
Definition ps_c4 : PState :=
  run (StringVar ds0 1 "" 113 "" "" ;;; StringVar ds0 2 "" 97 "" "" ;;; StringVar ds0 3 "" 98 "" "")
    (mkPState (NewFlagSet "t") ∅).

(** An int flag "count" / -c at address 3, and int positional fields at 0
    (address 1) and at 2 (address 2). *)
Definition flag_count : Flag := mkFlag "count" 99 "" (mkValue KInt 3) "0".
Definition fs_w5 : FlagSet :=
  mkFlagSet "t" {["count" := flag_count]} {[99 := flag_count]} [] false None
    (<[0 := mkPositionalField "n" 1 (TInt 64)]> {[2 := mkPositionalField "m" 2 (TInt 64)]})
    false [] None.
Definition ps_w5 : PState :=
  mkPState fs_w5 (<[1%nat := VInt 0]> (<[2%nat := VInt 7]> {[3%nat := VInt 0]})).
(** A positional field at 5 and a flag "port" bound to the same variable. *)
Definition ps_alias5 : PState :=
  run (IntPosVar 1 "port" 5 0 "" ;;; IntVar ds0 1 "port" 112 0 "") (mkPState (NewFlagSet "t") ∅).
(** A positional field at position -1. *)
Definition ps_neg5 : PState :=
  run (IntPosVar 1 "n" (-1) 0 "") (mkPState (NewFlagSet "t") ∅).

(** A string flag "name" at address 1, the rest slot at 4 and the unknown
    slot at 5 (unknown capture on). *)
Definition flag_name : Flag := mkFlag "name" 0 "" (mkValue KString 1) "".
Definition fs_w10 : FlagSet :=
  mkFlagSet "t" {["name" := flag_name]} ∅ [] false (Some 4%nat) ∅ true [] (Some 5%nat).
Definition ps_w10 : PState :=
  mkPState fs_w10 (<[4%nat := VStrings ["old"]]> {[5%nat := VStrings ["old"]]}).
(** The rest slot and a string-array flag "list" on the same variable. *)
Definition ps_c10 : PState :=
  run (Rest 1 "" ;;; StringArrayVar ds0 1 "list" 0 [] "") (mkPState (NewFlagSet "t") ∅).

(* ------------------------------------------------------------------ *)
(** ** More of the package

    The functions below are the rest of mflags.go, dispatcher.go and
    completion.go that the properties at the end of the file are about. *)

(** *** Helpers of the [strconv] and [Value] properties *)

(** The value of a decimal numeral read from the left, as [strconv] reads it. *)
Fixpoint uval (u : Decimal.uint) (acc : Z) : Z :=
  match u with
  | Decimal.Nil => acc
  | Decimal.D0 l => uval l (acc * 10 + 0)
  | Decimal.D1 l => uval l (acc * 10 + 1)
  | Decimal.D2 l => uval l (acc * 10 + 2)
  | Decimal.D3 l => uval l (acc * 10 + 3)
  | Decimal.D4 l => uval l (acc * 10 + 4)
  | Decimal.D5 l => uval l (acc * 10 + 5)
  | Decimal.D6 l => uval l (acc * 10 + 6)
  | Decimal.D7 l => uval l (acc * 10 + 7)
  | Decimal.D8 l => uval l (acc * 10 + 8)
  | Decimal.D9 l => uval l (acc * 10 + 9)
  end.

(** A word with no [','] byte. *)
Definition no_comma (w : string) : Prop := Forall (fun c => c <> ","%char) (list_ascii_of_string w).

(** The values [String] prints in a form that [Set] reads back. *)
Definition roundtrip_val (k : ValueKind) (x : Val) : Prop :=
  match k, x with
  | KBool, VBool _ => True
  | KString, VString _ => True
  | KInt, VInt z => -2^63 <= z < 2^63
  | KStringArray, VStrings l => l <> [] /\ Forall no_comma l
  | _, _ => False
  end.

(** *** Helpers of the [Parse] properties *)

(** A token [Parse] takes as a positional argument: it does not start with
    ["-"], or it is ["-"] itself. *)
Definition plain_arg (t : string) : bool := negb (HasPrefix t "-") || String.eqb t "-".

(** The errors [Parse] can build: a flag error of the three sentinels, with a
    cause exactly for an invalid value and a flag text that starts with "-",
    or a position error at a non-negative position. *)
Definition parse_error_shape (e : error) : bool :=
  match e with
  | FlagError ErrUnknownFlag t None | FlagError ErrMissingValue t None
  | FlagError ErrInvalidValue t (Some _) => HasPrefix t "-"
  | PositionError p _ => 0 <=? p
  | _ => false
  end.

Definition shape_ok (e : error) : Prop := parse_error_shape e = true.

(** [m] keeps [P] of the flag set, and returns only errors [Q] accepts. *)
Definition kept {A} (P : FlagSet -> Prop) (Q : error -> Prop) (m : M A) : Prop :=
  forall ps, P (ps_fs ps) ->
    P (ps_fs (m ps).1) /\ match (m ps).2 with RErr e => Q e | _ => True end.

(** *** Positional fields and [Lookup] (mflags.go) *)

(** [f.HasPositionalArgs()] *)
Definition HasPositionalArgs (f : FlagSet) : bool := negb (Nat.eqb (size f.(posFields)) 0).

(** The loop [for pos := range f.posFields { if pos > maxPos { maxPos = pos } }]
    from [maxPos := -1]; the maximum does not depend on the iteration order. *)
Definition maxPos (f : FlagSet) : Z :=
  foldl (fun m pos => if m <? pos then pos else m) (-1) (map fst (map_to_list f.(posFields))).

(** [f.PositionalCount()] *)
Definition PositionalCount (f : FlagSet) : Z :=
  if Nat.eqb (size f.(posFields)) 0 then 0 else maxPos f + 1.

(** [f.GetPositionalFields()]: [for i := 0; i <= maxPos; i++], keeping the
    positions present in the map. *)
Definition GetPositionalFields (f : FlagSet) : list PositionalField :=
  if Nat.eqb (size f.(posFields)) 0 then []
  else omap (fun i => f.(posFields) !! i) (map Z.of_nat (seq 0 (Z.to_nat (maxPos f + 1)))).

(** [f.Lookup(name)] *)
Definition Lookup (f : FlagSet) (nm : string) : option Flag := f.(flags) !! nm.

(** *** More of the dispatcher (dispatcher.go) *)

(** [d.Remove(path)] *)
Definition Remove (d : Dispatcher) (path : string) : Dispatcher :=
  mkDispatcher (delete (normalizeCommandPath path) d.(commands)) d.(dname).

(** The loop of [d.findCommand(args)]: [for i := len(args); i > 0; i--]. *)
Fixpoint findCommand_loop (d : Dispatcher) (args0 : list string) (i : nat)
    : option CommandEntry * list string :=
  match i with
  | O => (None, args0)
  | S i' =>
      match d.(commands) !! normalizeCommandPath (Join (firstn i args0) " ") with
      | Some entry => (Some entry, drop i args0)
      | None => findCommand_loop d args0 i'
      end
  end.

(** [d.findCommand(args)] *)
Definition findCommand (d : Dispatcher) (args0 : list string) : option CommandEntry * list string :=
  findCommand_loop d args0 (length args0).

(** [Completion] (completion.go) *)
Record Completion := mkCompletion { cValue : string; cDescription : string; cIsBool : bool }.

(** [sort.Slice(completions, func(i, j) { return completions[i].Value < completions[j].Value })]:
    a sort by [Value]; [merge_sort] is one of the orders [sort.Slice] may produce. *)
Definition sort_completions (cs : list Completion) : list Completion :=
  merge_sort (fun c1 c2 => String.le c1.(cValue) c2.(cValue)) cs.

(** [d.GetCommandCompletions(prefix)]; the map is ranged over in the order
    of [map_to_list]. *)
Definition GetCommandCompletions (d : Dispatcher) (prefix : string) : list Completion :=
  let normalizedPrefix := normalizeCommandPath prefix in
  sort_completions
    (omap (fun kv : string * CommandEntry =>
             if HasPrefix kv.1 normalizedPrefix
             then Some (mkCompletion kv.1 kv.2.(ce_Usage) false) else None)
          (map_to_list d.(commands))).

(** *** [GetFlagCompletions] (completion.go) *)

(** [f.GetFlagCompletions(prefix)]; the maps are ranged over in the order of
    [map_to_list]. [rune(prefix[1])] is the second byte as a rune, and
    [fmt.Sprintf("-%c", r)] encodes [r] in UTF-8. *)
Definition GetFlagCompletions (f : FlagSet) (prefix : string) : list Completion :=
  let mk (v : string) (fl : Flag) := mkCompletion v fl.(Usage) (IsBool fl.(FlagValue)) in
  let shorts := map (fun kv : Z * Flag => mk ("-" +++ encode_rune kv.1) kv.2)
                    (map_to_list f.(shortMap)) in
  sort_completions
    (if HasPrefix prefix "--" then
       let search := sdrop 2 prefix in
       omap (fun kv : string * Flag =>
               if negb (String.eqb kv.1 "") && HasPrefix kv.1 search
               then Some (mk ("--" +++ kv.1) kv.2) else None)
            (map_to_list f.(flags))
     else if HasPrefix prefix "-" && (String.length prefix <=? 2)%nat then
       if (String.length prefix =? 1)%nat then shorts
       else match prefix with
            | String _ (String b _) =>
                match f.(shortMap) !! byteZ b with
                | Some fl => [mk prefix fl]
                | None => []
                end
            | _ => []
            end
     else if String.eqb prefix "" then
       omap (fun kv : string * Flag =>
               if negb (String.eqb kv.1 "") then Some (mk ("--" +++ kv.1) kv.2) else None)
            (map_to_list f.(flags))
       ++ shorts
     else []).

(** *** [GetLongFlags] and [GetShortFlags] (completion.go) *)

(** [f.GetLongFlags()]: [sort.Strings] of ["--"+name] for the non-empty names. *)
Definition GetLongFlags (f : FlagSet) : list string :=
  merge_sort String.le
    (omap (fun kv : string * Flag => if String.eqb kv.1 "" then None else Some ("--" +++ kv.1))
          (map_to_list f.(flags))).

(** [f.GetShortFlags()]: [sort.Strings] of [fmt.Sprintf("-%c", r)] for the
    runes [r <> 0]; the [seen] map never rejects a rune, as the keys of
    [f.shortMap] are distinct. *)
Definition GetShortFlags (f : FlagSet) : list string :=
  merge_sort String.le
    (omap (fun kv : Z * Flag => if Z.eqb kv.1 0 then None else Some ("-" +++ encode_rune kv.1))
          (map_to_list f.(shortMap))).

(** *** [showHelp] (dispatcher.go) *)

Section ShowHelp.
Local Open Scope nat_scope.

(** One step of the exchange sort in [showHelp]:
    [if sortedPaths[i] > sortedPaths[j] { swap }]. *)
Definition swap_if (l : list string) (i j : nat) : list string :=
  match l !! i, l !! j with
  | Some a, Some b => if String.ltb b a then <[i:=b]> (<[j:=a]> l) else l
  | _, _ => l
  end.

(** [for i := 0; i < len; i++ { for j := i + 1; j < len; j++ { ... } }] *)
Definition exchange_sort (l : list string) : list string :=
  foldl (fun l i => foldl (fun l j => swap_if l i j) l (seq (S i) (length l - S i)))
        l (seq 0 (length l)).

(** After the inner loop has run up to [m], position [i] is no larger than
    the positions [i+1 .. m-1]. *)
Definition inner_sorted (l : list string) (i m : nat) : Prop :=
  forall k x y, S i <= k < m -> l !! i = Some x -> l !! k = Some y -> String.le x y.

(** After the outer loop has run up to [i], each of the positions [0 .. i-1]
    is no larger than any later position. *)
Definition outer_sorted (l : list string) (i : nat) : Prop :=
  forall a b x y, a < i -> a < b -> l !! a = Some x -> l !! b = Some y -> String.le x y.

(** [n] spaces. *)
Fixpoint spaces (n : nat) : string :=
  match n with O => "" | S n => String " " (spaces n) end.

(** [maxLen]: the longest path, in bytes ([len(path)]). *)
Definition maxLen_of (paths : list string) : nat :=
  foldl (fun m p => if m <? String.length p then String.length p else m) 0 paths.

(** One command line of [showHelp]: [fmt.Printf("  %-*s  %s\n", maxLen+2, path, entry.Usage)]
    pads [path] with spaces to [maxLen+2] runes. [path] ranges over the keys
    of [d.commands], so the [None] case is not reached. *)
Definition help_line (d : Dispatcher) (maxLen : nat) (path : string) : string :=
  match d.(commands) !! path with
  | Some entry =>
      if String.eqb entry.(ce_Usage) "" then "  " +++ path
      else "  " +++ path +++ spaces (maxLen + 2 - length (runes_of path)) +++ "  " +++ entry.(ce_Usage)
  | None => "  " +++ path
  end.

(** [d.showHelp()]: the lines it prints; [order] is the order in which
    [for path := range d.commands] visits the keys. *)
Definition showHelp (d : Dispatcher) (order : list string) : list string :=
  let maxLen := maxLen_of order in
  ["Usage: " +++ d.(dname) +++ " <command> [arguments]"; ""; "Available commands:"]
  ++ map (help_line d maxLen) (exchange_sort order)
  ++ [""; "Use '<command> --help' for more information about a command."].

End ShowHelp.

(** *** Normalised command paths *)

(** The number of bytes of the space rune [space_mask] recognises at the
    start of [s] (0: none). *)
Definition space_len (s : string) : nat :=
  match s with
  | EmptyString => 0
  | String a r =>
      if ascii_space (byteZ a) then 1
      else match r with
           | EmptyString => 0
           | String b r2 =>
               if space2 (byteZ a) (byteZ b) then 2
               else match r2 with
                    | EmptyString => 0
                    | String c _ => if space3 (byteZ a) (byteZ b) (byteZ c) then 3 else 0
                    end
           end
  end.

(** [s[n:]], as a structural recursion. *)
Fixpoint str_drop (n : nat) (s : string) : string :=
  match n, s with
  | O, _ => s
  | S n, EmptyString => EmptyString
  | S n, String _ r => str_drop n r
  end.

(** A word [Fields] can return: no space rune starts at any of its bytes. *)
Definition clean (w : string) : Prop :=
  forall i, (i < String.length w)%nat -> space_len (str_drop i w) = 0%nat.

(** The bytes a space rune can start with. *)
Definition start_byte (b : Z) : bool :=
  ascii_space b || (b =? 194) || ((225 <=? b) && (b <=? 227)).

(** Every registered key is a normalised path, and it is the [Path] of its entry. *)
Definition registry_ok (d : Dispatcher) : Prop :=
  forall k e, d.(commands) !! k = Some e -> Path e = k /\ normalizeCommandPath k = k.

(** *** Fixtures of the witnesses below *)

Definition flag_out : Flag := mkFlag "out" 111 "" (mkValue KString 1) "".
Definition fs_ab : FlagSet :=
  (run (BoolVar ds0 2 "" 98 false "") (run (BoolVar ds0 1 "" 97 false "") (mkPState (NewFlagSet "ab") ∅))).(ps_fs).
Definition fs_e9 : FlagSet := (run (BoolVar ds0 1 "" 233 false "") (mkPState (NewFlagSet "e") ∅)).(ps_fs).
Definition flag_e9 : Flag := mkFlag "" 233 "" (mkValue KBool 1) "false".
Definition d_ab : Dispatcher := Dispatch (Dispatch (NewDispatcher "app") "b" cmd_plain) "a" cmd_plain.

(* ------------------------------------------------------------------ *)
(** ** Properties of the command resolver *)

Lemma collect_lengths (d : Dispatcher) :
  forall n (toks : list string) i parts idx sk,
    (length toks <= n)%nat -> length parts = length idx ->
    let '(parts', idx', _) := collect d toks i parts idx sk in length parts' = length idx'.
Proof.
  induction n as [|n IH]; intros toks i parts idx sk Hn Hl.
  - destruct toks; [exact Hl | simpl in Hn; lia].
  - destruct toks as [|arg rest]; [exact Hl|]. simpl in Hn. simpl.
    destruct (HasPrefix arg "-").
    + destruct rest as [|next rest'].
      * apply IH; simpl; auto; lia.
      * destruct (negb (HasPrefix next "-") && _).
        -- apply IH; simpl in *; auto; lia.
        -- destruct (negb (HasPrefix next "-")); apply IH; simpl in *; auto; lia.
    + apply IH; [lia|]. rewrite !length_app. simpl. lia.
Qed.

Lemma interspersed_reassembled (args0 : list string) (sk : list flagInfo) (b : nat) :
  interspersed (Z.of_nat b) sk
  ++ (if (0 <=? Z.of_nat b) && (Z.of_nat b + 1 <? Z.of_nat (length args0))
      then drop (Z.to_nat (Z.of_nat b + 1)) args0 else [])
  = reassembled args0 sk b.
Proof.
  unfold reassembled. f_equal.
  - induction sk as [|fi sk IH]; [reflexivity|]. simpl.
    destruct (Nat.leb_spec (fi_index fi) b); destruct (Z.leb_spec (Z.of_nat (fi_index fi)) (Z.of_nat b));
      try lia; simpl; rewrite IH; reflexivity.
  - destruct (Z.ltb_spec (Z.of_nat b + 1) (Z.of_nat (length args0))); simpl.
    + replace (Z.to_nat (Z.of_nat b + 1)) with (S b) by lia. destruct (0 <=? Z.of_nat b) eqn:E; [reflexivity|].
      apply Z.leb_nle in E; lia.
    + rewrite andb_false_r. symmetry. apply drop_ge. lia.
Qed.

Lemma try_prefixes_spec (d : Dispatcher) (args0 parts : list string) (idx : list nat)
    (sk : list flagInfo) :
  length parts = length idx ->
  forall j, (j <= length parts)%nat ->
  try_prefixes d args0 parts idx sk j =
  match List.find (fun j =>
          match prefix_entry d parts j with
          | Some e => validate e.(ce_Command).(cmd_FlagSet) (Z.of_nat (boundary idx j)) sk true
          | None => false
          end) (rev (seq 1 j)) with
  | Some j => (prefix_entry d parts j, reassembled args0 sk (boundary idx j))
  | None => (None, args0)
  end.
Proof.
  intros Hl j. induction j as [|j IH]; intros Hj; [reflexivity|].
  rewrite seq_S, rev_app_distr. simpl rev. simpl List.find.
  unfold prefix_entry at 1 2. simpl try_prefixes.
  assert (Hn : nth_error idx j = Some (boundary idx (S j))).
  { unfold boundary. simpl. rewrite Nat.sub_0_r. apply nth_error_nth'. lia. }
  rewrite Hn.
  destruct (d.(commands) !! normalizeCommandPath (Join (take (S j) parts) " ")) as [e|] eqn:He.
  - destruct (validate _ _ _ _) eqn:Hv.
    + unfold prefix_entry. rewrite He. f_equal. apply interspersed_reassembled.
    + apply IH. lia.
  - apply IH. lia.
Qed.

(** C1: resolution tries the candidate prefixes from the longest to the
    shortest and returns the first one that is registered and validates,
    with the interspersed flags (each with its tagged value) up to the last
    command word followed by every token after it; with "foo", "foo bar" and
    "foo bar baz" registered, ["foo";"bar";"baz";"x"] selects "foo bar baz"
    with leftover ["x"]. *)
Theorem resolve_longest_valid_prefix :
  (forall (d : Dispatcher) (args0 : list string),
     findCommandWithInterspersedFlags d args0 = resolve_spec d args0)
  /\ (option_map Path (findCommandWithInterspersedFlags d_p5 ["foo";"bar";"baz";"x"]).1 = Some "foo bar baz"
      /\ (findCommandWithInterspersedFlags d_p5 ["foo";"bar";"baz";"x"]).2 = ["x"]).
Proof.
  split.
  - intros d args0. unfold findCommandWithInterspersedFlags, resolve_spec.
    pose proof (collect_lengths d (length args0) args0 0 [] [] [] (le_n _) eq_refl) as Hl.
    destruct (collect d args0 0 [] [] []) as [[parts idx] sk].
    apply try_prefixes_spec; [exact Hl | lia].
  - vm_compute. split; reflexivity.
Qed.

(** C2 (failing input): the flag set of "foo" resolves the short character
    'x', and its own [Parse] accepts ["-x"], yet the validation of the
    resolver, which only visits the long-name map, rejects "-x" in front of
    "foo": ["-x";"foo"] resolves to no command and [Execute] reports an
    unknown command; with a long name added to the same flag it resolves. *)
Theorem validation_misses_short_only_flag :
  is_Some (fs_short_only.(shortMap) !! 120)
  /\ (Parse pd0 pf0 [] ["-x"] (mkPState fs_short_only ∅)).2 = ROk tt
  /\ findCommandWithInterspersedFlags d_short_only ["-x";"foo"] = (None, ["-x";"foo"])
  /\ (Execute pd0 pf0 "" [] d_short_only ∅ ["-x";"foo"]).1 = UnknownCommand "unknown command: -x foo"
  /\ option_map Path (findCommandWithInterspersedFlags d_short_long ["-x";"foo"]).1 = Some "foo".
Proof. vm_compute. repeat split; try reflexivity. eexists; reflexivity. Qed.


(* ------------------------------------------------------------------ *)
(** ** Properties of the flag parser *)

Section ParseProps.
Context (PD : string -> Z + string) (PF : string -> Z -> Z + conv_error).

(** *** Which variables a computation writes *)

Lemma wframe_bind {A B} W (m : M A) (k : A -> M B) ps :
  schema_inv W ->
  wframe W m ps ->
  (forall ps' x, m ps = (ps', ROk x) -> schema (ps_fs ps') = schema (ps_fs ps) ->
     wframe W (k x) ps') ->
  wframe W (bind m k) ps.
Proof.
  intros HW [Hs Hst] Hk. unfold wframe, bind in *.
  destruct (m ps) as [ps' [x|e|]] eqn:E; simpl in *; try (split; assumption).
  destruct (Hk ps' x eq_refl Hs) as [Hs' Hst']. split.
  - rewrite Hs'. exact Hs.
  - intros a Ha. rewrite Hst'; [apply Hst, Ha|].
    intros H. apply Ha. eapply HW; [exact Hs | exact H].
Qed.

Lemma wframe_ret {A} W (x : A) ps : wframe W (ret x) ps.
Proof. split; reflexivity. Qed.
Lemma wframe_throw {A} W e ps : wframe (A:=A) W (throw e) ps.
Proof. split; reflexivity. Qed.
Lemma wframe_panic {A} W ps : wframe (A:=A) W panic ps.
Proof. split; reflexivity. Qed.
Lemma wframe_get_fs W ps : wframe W get_fs ps.
Proof. split; reflexivity. Qed.
Lemma wframe_get_store W ps : wframe W get_store ps.
Proof. split; reflexivity. Qed.
Lemma wframe_modify_fs W g ps :
  schema (g (ps_fs ps)) = schema (ps_fs ps) -> wframe W (modify_fs g) ps.
Proof. intros H. split; [exact H | reflexivity]. Qed.
Lemma wframe_store_to (W : FlagSet -> nat -> Prop) a v ps :
  W (ps_fs ps) a -> wframe W (store_to a v) ps.
Proof.
  intros H. split; [reflexivity|]. intros b Hb. simpl. apply lookup_insert_ne.
  intros ->. exact (Hb H).
Qed.
Lemma wframe_SetValue (W : FlagSet -> nat -> Prop) v x ps :
  schema_inv W -> W (ps_fs ps) (vaddr v) -> wframe W (SetValue PD v x) ps.
Proof.
  intros HW H. unfold SetValue. destruct (value_set PD (vkind v) x).
  - apply wframe_bind; [exact HW | apply wframe_store_to, H | ].
    intros. apply wframe_ret.
  - apply wframe_ret.
Qed.

Lemma wframe_weaken {A} (W1 W2 : FlagSet -> nat -> Prop) (m : M A) ps :
  (forall a, W1 (ps_fs ps) a -> W2 (ps_fs ps) a) -> wframe W1 m ps -> wframe W2 m ps.
Proof.
  intros HW [Hs Hst]. split; [exact Hs|].
  intros a Ha. apply Hst. intros H. apply Ha, HW, H.
Qed.

Lemma get_fs_run ps ps' (x : FlagSet) : get_fs ps = (ps', ROk x) -> ps' = ps /\ x = ps_fs ps.
Proof. intros [= <- <-]. split; reflexivity. Qed.

Ltac wf :=
  repeat match goal with
  | |- wframe _ (bind get_fs _) _ =>
      apply wframe_bind; [assumption | apply wframe_get_fs |];
      let ps' := fresh "ps" in let x := fresh "f" in let E := fresh "E" in
      intros ps' x E _; apply get_fs_run in E; destruct E as [-> ->]
  | |- wframe _ (bind _ _) _ =>
      apply wframe_bind; [assumption | |]; [| let ps' := fresh "ps" in let x := fresh "x" in
                                              let E := fresh "E" in let Hs := fresh "Hs" in
                                              intros ps' x E Hs]
  | |- wframe _ (ret _) _ => apply wframe_ret
  | |- wframe _ (throw _) _ => apply wframe_throw
  | |- wframe _ panic _ => apply wframe_panic
  | |- wframe _ (modify_fs _) _ => apply wframe_modify_fs; reflexivity
  | |- wframe _ (SetValue _ _ _) _ => apply wframe_SetValue; [assumption|]
  | |- wframe _ (match ?x with _ => _ end) _ => destruct x eqn:?
  | |- wframe _ (if ?x then _ else _) _ => destruct x eqn:?
  | |- wframe _ (let '(_, _) := ?x in _) _ => destruct x eqn:?
  end.

Lemma schema_inv_short_addr rs : schema_inv (short_addr rs).
Proof.
  intros f g a Hs (r & fl & Hr & Hl & Ha).
  assert (E : shortMap f = shortMap g) by (unfold schema in Hs; congruence).
  exists r, fl. rewrite <- E. auto.
Qed.

Lemma short_addr_mono (r : Z) rs f a : short_addr rs f a -> short_addr (r :: rs) f a.
Proof. intros (r' & fl & H1 & H2 & H3). exists r', fl. split; [set_solver|]. auto. Qed.

Lemma short_loop_frame rs here : frame (short_addr rs) (short_loop PD rs here).
Proof.
  pose proof (schema_inv_short_addr rs) as HW.
  induction rs as [|r rs IH]; intros ps; simpl; wf.
  all: try (eapply wframe_weaken; [intros a; apply short_addr_mono | apply IH; apply schema_inv_short_addr]).
  all: match goal with H : shortMap _ !! ?r = Some ?fl |- _ =>
         exists r, fl; split; [set_solver | split; [exact H | reflexivity]] end.
Qed.
Lemma schema_inv_names_addr t : schema_inv (fun f a => names_addr f a t).
Proof.
  intros f g a Hs H.
  assert (E1 : flags f = flags g) by (unfold schema in Hs; congruence).
  assert (E2 : shortMap f = shortMap g) by (unfold schema in Hs; congruence).
  unfold names_addr in *. rewrite <- E1, <- E2. exact H.
Qed.

Lemma long_name_split t nm value (hasValue : bool) :
  (if contains_eq (sdrop 2 t) then let '(a, b) := split_eq (sdrop 2 t) in (a, b, true)
   else (sdrop 2 t, "", false)) = (nm, value, hasValue) -> long_name t = nm.
Proof.
  unfold long_name. destruct (contains_eq (sdrop 2 t)).
  - destruct (split_eq (sdrop 2 t)). simpl. congruence.
  - congruence.
Qed.

Lemma parseLongFlag_frame t here :
  HasPrefix t "--" = true ->
  frame (fun f a => names_addr f a t) (parseLongFlag PD (sdrop 2 t) here).
Proof.
  intros Hp ps. pose proof (schema_inv_names_addr t) as HW.
  unfold parseLongFlag. wf.
  all: eapply HW; [symmetry; eassumption|].
  all: match goal with
       | H : _ = (?nm, _, _), Hf : flags _ !! ?nm = Some ?fl |- _ =>
           apply long_name_split in H; left; split; [exact Hp|];
           exists fl; split; [rewrite H; exact Hf | reflexivity]
       end.
Qed.
Lemma schema_inv_toks_addr toks : schema_inv (toks_addr toks).
Proof.
  intros f g a Hs (t & Ht & H). exists t. split; [exact Ht|].
  eapply schema_inv_names_addr; eassumption.
Qed.

Lemma toks_addr_sub toks1 toks2 f a :
  (forall t, t ∈ toks1 -> t ∈ toks2) -> toks_addr toks1 f a -> toks_addr toks2 f a.
Proof. intros Hsub (t & Ht & H). exists t. auto. Qed.

Lemma scan_frame toks : frame (toks_addr toks) (scan PD toks).
Proof.
  remember (length toks) as n eqn:Hn. revert toks Hn.
  induction n as [n IH] using lt_wf_ind. intros toks Hn ps.
  pose proof (schema_inv_toks_addr toks) as HW.
  destruct toks as [|arg rest]; simpl; wf.
  - eapply wframe_weaken; [| apply parseLongFlag_frame; exact Heqb0].
    intros a H. exists arg. split; [set_solver | exact H].
  - eapply wframe_weaken; [| eapply IH; [| reflexivity]; simpl in *; lia].
    intros a. apply toks_addr_sub. set_solver.
  - eapply wframe_weaken; [| eapply IH; [| reflexivity]; simpl in *; lia].
    intros a. apply toks_addr_sub. set_solver.
  - apply andb_true_iff in Heqb1. destruct Heqb1 as [Hm _].
    eapply wframe_weaken; [| apply short_loop_frame].
    intros a (r & fl & Hr & Hl & Ha). exists arg. split; [set_solver|].
    right. split; [exact Hm|]. exists r, fl. auto.
  - eapply wframe_weaken; [| eapply IH; [| reflexivity]; simpl in *; lia].
    intros a. apply toks_addr_sub. set_solver.
  - eapply wframe_weaken; [| eapply IH; [| reflexivity]; simpl in *; lia].
    intros a. apply toks_addr_sub. set_solver.
  - eapply wframe_weaken; [| eapply IH; [| reflexivity]; simpl in *; lia].
    intros a. apply toks_addr_sub. set_solver.
Qed.
(** *** No error of [Parse] is [ErrHelp] *)

Lemma nh_bind {A B} (m : M A) (k : A -> M B) :
  no_help m -> (forall x, no_help (k x)) -> no_help (bind m k).
Proof.
  intros Hm Hk ps. unfold bind. specialize (Hm ps).
  destruct (m ps) as [ps' [x|e|]]; simpl in *; [apply Hk | exact Hm | exact I].
Qed.
Lemma nh_ret {A} (x : A) : no_help (ret x).
Proof. intros ps. exact I. Qed.
Lemma nh_panic {A} : no_help (A:=A) panic.
Proof. intros ps. exact I. Qed.
Lemma nh_get_fs : no_help get_fs.
Proof. intros ps. exact I. Qed.
Lemma nh_modify_fs g : no_help (modify_fs g).
Proof. intros ps. exact I. Qed.
Lemma nh_store_to a v : no_help (store_to a v).
Proof. intros ps. exact I. Qed.
Lemma nh_throw {A} e : errors_Is e ErrHelp = false -> no_help (A:=A) (throw e).
Proof. intros H ps. exact H. Qed.
Lemma nh_SetValue v x : no_help (SetValue PD v x).
Proof.
  unfold SetValue. destruct (value_set PD (vkind v) x);
    [apply nh_bind; [apply nh_store_to | intros; apply nh_ret] | apply nh_ret].
Qed.

Ltac nh :=
  repeat match goal with
  | |- no_help (bind _ _) => apply nh_bind; [| intros ?]
  | |- no_help (ret _) => apply nh_ret
  | |- no_help panic => apply nh_panic
  | |- no_help get_fs => apply nh_get_fs
  | |- no_help (modify_fs _) => apply nh_modify_fs
  | |- no_help (store_to _ _) => apply nh_store_to
  | |- no_help (throw _) => apply nh_throw; reflexivity
  | |- no_help (SetValue _ _ _) => apply nh_SetValue
  | |- no_help (match ?x with _ => _ end) => destruct x
  | |- no_help (if ?x then _ else _) => destruct x
  | |- no_help (let '(_, _) := ?x in _) => destruct x
  end.

Lemma parseLongFlag_no_help name0 here : no_help (parseLongFlag PD name0 here).
Proof. unfold parseLongFlag. nh. Qed.

Lemma short_loop_no_help rs here : no_help (short_loop PD rs here).
Proof. induction rs as [|r rs IH]; simpl; nh; exact IH. Qed.

Lemma scan_no_help toks : no_help (scan PD toks).
Proof.
  remember (length toks) as n eqn:Hn. revert toks Hn.
  induction n as [n IH] using lt_wf_ind. intros toks Hn.
  destruct toks as [|arg rest]; simpl; nh;
    try apply parseLongFlag_no_help; try apply short_loop_no_help;
    (eapply IH; [| reflexivity]; simpl in *; lia).
Qed.

Lemma bind_positionals_no_help order : no_help (bind_positionals PD PF order).
Proof. induction order as [|pos order IH]; simpl; nh; exact IH. Qed.

Lemma Parse_no_help order toks : no_help (Parse PD PF order toks).
Proof.
  unfold Parse. nh; [apply scan_no_help | apply bind_positionals_no_help].
Qed.

(** C9 (amended): [Parse] never returns an error that [errors.Is] matches
    with [ErrHelp]; and when the scan examines a token "-h" or "--help" of a
    flag set with no flag named "help" and no short flag 'h', it fails with
    the UnknownFlag error of that token, or, with unknown capture on, moves
    that token and all the remaining ones to the unknown list and stops. *)
Theorem parse_help_not_special (order : list Z) (toks : list string)
    (f : FlagSet) (st : gmap nat Val) (tok : string) (rest : list string) :
  no_help (Parse PD PF order toks)
  /\ (f.(flags) !! "help" = None -> f.(shortMap) !! 104 = None ->
      tok = "-h" \/ tok = "--help" ->
      scan PD (tok :: rest) (mkPState f st)
      = if f.(allowUnknownFlags)
        then (mkPState (set_unknownFlags (f.(unknownFlags) ++ tok :: rest) f) st, ROk tt)
        else (mkPState f st, RErr (FlagError ErrUnknownFlag tok None))).
Proof.
  split; [apply Parse_no_help|].
  intros Hl Hs [-> | ->].
  - simpl. unfold parseShortFlags. simpl. unfold bind, get_fs, modify_fs, ret, throw. simpl.
    change (byteZ "h") with 104. rewrite Hs. simpl. destruct (allowUnknownFlags f); reflexivity.
  - simpl. unfold parseLongFlag. simpl. unfold bind, get_fs, modify_fs, ret, throw. simpl.
    change (sdrop 2 "--help") with "help". rewrite Hl. simpl. destruct (allowUnknownFlags f); reflexivity.
Qed.

(** *** Unknown flags *)

Lemma SetValue_bool_true v ps :
  IsBool v = true ->
  SetValue PD v "true" ps = (mkPState (ps_fs ps) (<[vaddr v := VBool true]> (ps_store ps)), ROk None).
Proof. unfold IsBool, SetValue. destruct (vkind v); try discriminate. reflexivity. Qed.

Lemma short_loop_unknown f st pre r post here :
  Forall (short_bool f) pre -> f.(shortMap) !! r = None -> f.(allowUnknownFlags) = true ->
  short_loop PD (pre ++ r :: post) here (mkPState f st)
  = (mkPState (set_unknownFlags (f.(unknownFlags) ++ here) f) (mark_true f pre st), ROk Stop).
Proof.
  intros Hpre Hr Ha. revert st. induction Hpre as [|q pre [fl [Hq Hb]] _ IH]; intros st.
  - simpl. unfold bind, get_fs, modify_fs, ret. simpl. rewrite Hr, Ha. reflexivity.
  - simpl. unfold bind at 1, get_fs. simpl. rewrite Hq, Hb.
    unfold bind at 1. rewrite SetValue_bool_true by exact Hb. simpl.
    rewrite IH. unfold mark_true. reflexivity.
Qed.

Lemma eqb_dashdash t : HasPrefix t "--" = false -> String.eqb t "--" = false.
Proof. intros H. destruct (String.eqb_spec t "--"); [subst; discriminate | reflexivity]. Qed.

(** C3 (amended): with unknown capture on, when the scan examines a flag
    token whose long name is not registered, or a short cluster whose runes
    up to the first unregistered one are all registered boolean flags, it
    sets those boolean flags, appends the whole token and every remaining
    token, in order, to the unknown list, stops scanning, and returns no
    error for it; with boolean verbose/v registered, parsing
    ["--verbose";"--unknown";"arg1";"arg2"] sets verbose, captures
    ["--unknown";"arg1";"arg2"] and leaves no literal arguments. *)
Theorem unknown_capture_sticky (f : FlagSet) (st : gmap nat Val) (t : string)
    (rest : list string) (pre : list Z) (r : Z) (post : list Z) :
  f.(allowUnknownFlags) = true ->
  ((HasPrefix t "--" = true -> t <> "--" -> f.(flags) !! long_name t = None ->
    scan PD (t :: rest) (mkPState f st)
    = (mkPState (set_unknownFlags (f.(unknownFlags) ++ t :: rest) f) st, ROk tt))
  /\ (HasPrefix t "--" = false -> HasPrefix t "-" = true -> (1 < String.length t)%nat ->
      runes_of (sdrop 1 t) = pre ++ r :: post ->
      Forall (short_bool f) pre -> f.(shortMap) !! r = None ->
      scan PD (t :: rest) (mkPState f st)
      = (mkPState (set_unknownFlags (f.(unknownFlags) ++ t :: rest) f) (mark_true f pre st), ROk tt))
  /\ (let ps := fst (Parse PD PF [] ["--verbose";"--unknown";"arg1";"arg2"] ps_p7) in
      ps.(ps_store) !! 1%nat = Some (VBool true)
      /\ ps.(ps_fs).(unknownFlags) = ["--unknown";"arg1";"arg2"]
      /\ ps.(ps_fs).(args) = [])).
Proof.
  intros Ha. split; [|split].
  - intros Hp Hne Hn. simpl.
    destruct (String.eqb_spec t "--"); [contradiction|]. rewrite Hp.
    unfold parseLongFlag.
    destruct (if contains_eq (sdrop 2 t) then _ else _) as [[nm value] hv] eqn:E.
    apply long_name_split in E. subst nm.
    unfold bind, get_fs, modify_fs, ret. simpl. rewrite Hn, Ha. reflexivity.
  - intros Hp2 Hp1 Hlen Hr Hpre Hnone. simpl.
    rewrite eqb_dashdash, Hp2, Hp1 by exact Hp2. simpl.
    destruct (Nat.ltb_spec 1 (String.length t)); [|lia].
    unfold bind at 1, parseShortFlags. rewrite Hr, short_loop_unknown by assumption.
    reflexivity.
  - vm_compute. repeat split.
Qed.

(** *** Two value-taking short flags in one cluster *)

Lemma short_loop_collide f st pre r1 r2 post here fl1 fl2 :
  Forall (short_bool f) pre ->
  f.(shortMap) !! r1 = Some fl1 -> IsBool fl1.(FlagValue) = false ->
  f.(shortMap) !! r2 = Some fl2 -> IsBool fl2.(FlagValue) = false ->
  short_loop PD (pre ++ r1 :: r2 :: post) here (mkPState f st)
  = (mkPState f (mark_true f pre st), RErr (FlagError ErrMissingValue ("-" +++ encode_rune r1) None)).
Proof.
  intros Hpre H1 B1 H2 B2. revert st. induction Hpre as [|q pre [fl [Hq Hb]] _ IH]; intros st.
  - simpl. unfold bind, get_fs, throw. simpl. rewrite H1, B1, H2, B2. reflexivity.
  - simpl. unfold bind at 1, get_fs. simpl. rewrite Hq, Hb.
    unfold bind at 1. rewrite SetValue_bool_true by exact Hb. simpl.
    rewrite IH. reflexivity.
Qed.

(** C4 (amended): when the scan examines a short cluster whose runes before
    a registered value-taking flag [r1] are all registered boolean flags,
    and [r1] is immediately followed by a registered value-taking flag,
    [Parse] fails with MissingValue for [r1] (the boolean flags before it
    are set); with value-taking short flags a and b, parsing
    ["-ab";"value"] fails with MissingValue for "-a". *)
Theorem short_value_flags_collide (f : FlagSet) (st : gmap nat Val) (t : string)
    (rest : list string) (pre : list Z) (r1 r2 : Z) (post : list Z) (fl1 fl2 : Flag) :
  (HasPrefix t "--" = false -> HasPrefix t "-" = true -> (1 < String.length t)%nat ->
   runes_of (sdrop 1 t) = pre ++ r1 :: r2 :: post ->
   Forall (short_bool f) pre ->
   f.(shortMap) !! r1 = Some fl1 -> IsBool fl1.(FlagValue) = false ->
   f.(shortMap) !! r2 = Some fl2 -> IsBool fl2.(FlagValue) = false ->
   scan PD (t :: rest) (mkPState f st)
   = (mkPState f (mark_true f pre st), RErr (FlagError ErrMissingValue ("-" +++ encode_rune r1) None)))
  /\ (Parse PD PF [] ["-ab";"value"] ps_p4).2 = RErr (FlagError ErrMissingValue "-a" None).
Proof.
  split.
  - intros Hp2 Hp1 Hlen Hr Hpre H1 B1 H2 B2. simpl.
    rewrite eqb_dashdash, Hp2, Hp1 by exact Hp2. simpl.
    destruct (Nat.ltb_spec 1 (String.length t)); [|lia].
    unfold bind at 1, parseShortFlags. rewrite Hr.
    rewrite (short_loop_collide f st pre r1 r2 post _ fl1 fl2) by assumption.
    reflexivity.
  - vm_compute. reflexivity.
Qed.

(** *** The phases of [Parse] *)

Lemma Parse_unfold order toks ps :
  Parse PD PF order toks ps =
  match scan PD toks (parse_reset ps) with
  | (ps1, ROk _) =>
      match bind_positionals PD PF order ps1 with
      | (ps2, ROk _) => (parse_finish ps2, ROk tt)
      | (ps2, RErr e) => (ps2, RErr e)
      | (ps2, RPanic) => (ps2, RPanic)
      end
  | (ps1, RErr e) => (ps1, RErr e)
  | (ps1, RPanic) => (ps1, RPanic)
  end.
Proof.
  unfold Parse, bind, modify_fs, get_fs, store_to, ret, parse_finish, parse_reset. simpl.
  destruct (scan PD toks _) as [ps1 [[]|e|]]; [|reflexivity|reflexivity].
  destruct (bind_positionals PD PF order ps1) as [ps2 [[]|e|]]; [|reflexivity|reflexivity].
  destruct ps2 as [f2 st2]. simpl.
  destruct (restField f2), (unknownField f2); reflexivity.
Qed.

(** What [bind_positionals] does: it keeps the flag set, writes only the
    fields it converts, and fails only on a conversion. *)
Lemma bind_positionals_spec order : forall ps,
  (forall p fld, (ps_fs ps).(posFields) !! p = Some fld -> 0 <= p) ->
  let f := ps_fs ps in
  let A := f.(args) in
  ps_fs (bind_positionals PD PF order ps).1 = f
  /\ (forall a, (forall p fld, p ∈ order -> f.(posFields) !! p = Some fld -> p < Z.of_nat (length A) ->
                  PosValue fld <> a) ->
      ps_store (bind_positionals PD PF order ps).1 !! a = ps_store ps !! a)
  /\ match (bind_positionals PD PF order ps).2 with
     | ROk _ => True
     | RErr e => exists p fld d, p ∈ order /\ f.(posFields) !! p = Some fld
                 /\ 0 <= p < Z.of_nat (length A)
                 /\ setFieldValue PD PF fld.(PosType) (nth (Z.to_nat p) A "") = inr d
                 /\ e = PositionError p d
     | RPanic => False
     end.
Proof.
  induction order as [|pos order IH]; intros ps Hnn; cbv zeta.
  - simpl. split; [reflexivity|]. split; [reflexivity | exact I].
  - simpl. unfold bind, get_fs. simpl.
    destruct (posFields (ps_fs ps) !! pos) as [field|] eqn:Hf.
    + destruct (Z.ltb_spec pos (Z.of_nat (length (args (ps_fs ps))))) as [Hlt|Hge].
      * destruct (Z.ltb_spec pos 0) as [Hneg|_]; [specialize (Hnn _ _ Hf); lia|].
        destruct (setFieldValue PD PF (PosType field) _) as [v|d] eqn:Hc.
        -- unfold bind, store_to. simpl.
           set (ps' := mkPState (ps_fs ps) (<[PosValue field := v]> (ps_store ps))).
           destruct (IH ps' Hnn) as (Hfs & Hst & Hr). simpl in Hfs, Hst, Hr.
           destruct (bind_positionals PD PF order ps') as [ps'' r] eqn:E. simpl in *.
           split; [exact Hfs|]. split.
           ++ intros a Ha. rewrite Hst.
              ** apply lookup_insert_ne. apply (Ha pos field); [set_solver | exact Hf | exact Hlt].
              ** intros p fld Hp. apply Ha. set_solver.
           ++ destruct r as [x|e|]; [exact I| |exact Hr].
              destruct Hr as (p & fld & dd & Hp & H). exists p, fld, dd. split; [set_solver | exact H].
        -- simpl. split; [reflexivity|]. split; [reflexivity|].
           exists pos, field, d. repeat split; try assumption; try lia; [set_solver|apply Hnn with field; exact Hf].
      * destruct (IH ps Hnn) as (Hfs & Hst & Hr). split; [exact Hfs|]. split.
        -- intros a Ha. apply Hst. intros p fld Hp. apply Ha. set_solver.
        -- destruct (bind_positionals PD PF order ps) as [ps'' [x|e|]]; simpl in *; try exact I; try exact Hr.
           destruct Hr as (p & fld & dd & Hp & H). exists p, fld, dd. split; [set_solver | exact H].
    + destruct (IH ps Hnn) as (Hfs & Hst & Hr). split; [exact Hfs|]. split.
      * intros a Ha. apply Hst. intros p fld Hp. apply Ha. set_solver.
      * destruct (bind_positionals PD PF order ps) as [ps'' [x|e|]]; simpl in *; try exact I; try exact Hr.
        destruct Hr as (p & fld & dd & Hp & H). exists p, fld, dd. split; [set_solver | exact H].
Qed.

(** When [bind_positionals] succeeds, every field it reaches holds the
    conversion of its argument (the iteration visits each key once, and
    the fields use distinct variables). *)
Lemma bind_positionals_ok order : forall ps,
  (forall p fld, (ps_fs ps).(posFields) !! p = Some fld -> 0 <= p) ->
  NoDup order ->
  (forall p q fp fq, (ps_fs ps).(posFields) !! p = Some fp -> (ps_fs ps).(posFields) !! q = Some fq ->
     PosValue fp = PosValue fq -> p = q) ->
  (bind_positionals PD PF order ps).2 = ROk tt ->
  forall p fld, p ∈ order -> (ps_fs ps).(posFields) !! p = Some fld ->
    p < Z.of_nat (length (ps_fs ps).(args)) ->
    exists v, setFieldValue PD PF fld.(PosType) (nth (Z.to_nat p) (ps_fs ps).(args) "") = inl v
      /\ ps_store (bind_positionals PD PF order ps).1 !! PosValue fld = Some v.
Proof.
  induction order as [|pos order IH]; intros ps Hnn Hnd Hinj Hok p fld Hp Hfld Hlt.
  - set_solver.
  - apply NoDup_cons in Hnd. destruct Hnd as [Hni Hnd].
    simpl in Hok |- *. unfold bind, get_fs in Hok |- *. simpl in Hok |- *.
    destruct (posFields (ps_fs ps) !! pos) as [field|] eqn:Hf.
    + destruct (Z.ltb_spec pos (Z.of_nat (length (args (ps_fs ps))))) as [Hlt'|Hge].
      * destruct (Z.ltb_spec pos 0) as [Hneg|_]; [specialize (Hnn _ _ Hf); lia|].
        destruct (setFieldValue PD PF (PosType field) _) as [v|d] eqn:Hc; [|discriminate].
        unfold store_to in Hok |- *. simpl in Hok |- *.
        set (ps' := mkPState (ps_fs ps) (<[PosValue field := v]> (ps_store ps))) in Hok |- *.
        apply elem_of_cons in Hp. destruct Hp as [->|Hp].
        -- rewrite Hfld in Hf. injection Hf as <-. exists v. split; [exact Hc|].
           destruct (bind_positionals_spec order ps' Hnn) as (_ & Hst & _).
           rewrite Hst; [simpl; apply lookup_insert_eq|].
           intros q fq Hq Hfq _ Heq. simpl in Hfq.
           assert (q = pos) by (eapply Hinj; [exact Hfq | exact Hfld | exact Heq]). subst q.
           contradiction.
        -- exact (IH ps' Hnn Hnd Hinj Hok p fld Hp Hfld Hlt).
      * apply elem_of_cons in Hp. destruct Hp as [->|Hp]; [lia|].
        exact (IH ps Hnn Hnd Hinj Hok p fld Hp Hfld Hlt).
    + apply elem_of_cons in Hp. destruct Hp as [->|Hp]; [congruence|].
      exact (IH ps Hnn Hnd Hinj Hok p fld Hp Hfld Hlt).
Qed.

Lemma names_addr_flag f a t : names_addr f a t -> is_flag_addr f a.
Proof.
  intros [[_ (fl & H1 & H2)] | [_ (r & fl & _ & H1 & H2)]]; [left; exists (long_name t) | right; exists r];
    exists fl; auto.
Qed.

(** The scan of [Parse] keeps the schema and writes flag variables only. *)
Lemma scan_after_reset toks ps ps1 (r : res unit) :
  scan PD toks (parse_reset ps) = (ps1, r) ->
  schema (ps_fs ps1) = schema (ps_fs ps)
  /\ forall a, ~ is_flag_addr (ps_fs ps) a -> ps_store ps1 !! a = ps_store ps !! a.
Proof.
  intros E. destruct (scan_frame toks (parse_reset ps)) as [Hs Hst]. rewrite E in Hs, Hst.
  simpl in Hs, Hst. split; [exact Hs|].
  intros a Ha. apply Hst. intros (t & _ & Ht). apply Ha. exact (names_addr_flag _ _ _ Ht).
Qed.

Lemma parse_finish_store ps a :
  (ps_fs ps).(restField) <> Some a -> (ps_fs ps).(unknownField) <> Some a ->
  ps_store (parse_finish ps) !! a = ps_store ps !! a.
Proof.
  intros H1 H2. unfold parse_finish. simpl.
  destruct (unknownField (ps_fs ps)) as [u|] eqn:Eu.
  - rewrite lookup_insert_ne by congruence.
    destruct (restField (ps_fs ps)) as [q|] eqn:Eq; [apply lookup_insert_ne; congruence | reflexivity].
  - destruct (restField (ps_fs ps)) as [q|] eqn:Eq; [apply lookup_insert_ne; congruence | reflexivity].
Qed.

Lemma schema_posFields f g : schema f = schema g -> f.(posFields) = g.(posFields).
Proof. unfold schema. congruence. Qed.
Lemma schema_restField f g : schema f = schema g -> f.(restField) = g.(restField).
Proof. unfold schema. congruence. Qed.
Lemma schema_unknownField f g : schema f = schema g -> f.(unknownField) = g.(unknownField).
Proof. unfold schema. congruence. Qed.
Lemma schema_is_flag_addr f g a : schema f = schema g -> is_flag_addr f a -> is_flag_addr g a.
Proof.
  intros Hs H. assert (E1 : flags f = flags g) by (unfold schema in Hs; congruence).
  assert (E2 : shortMap f = shortMap g) by (unfold schema in Hs; congruence).
  unfold is_flag_addr, flag_addr in *. rewrite <- E1, <- E2. exact H.
Qed.

(** *** Positional fields *)

(** C5 (amended): take the literal arguments [A] the scan of [Parse]
    collects.  When every position is non-negative and each field's
    variable is distinct from the other fields' variables and from the
    flag, rest and unknown variables, then, for [order] any iteration of
    the positional map that visits every key once: on success every field
    at [p < len(A)] holds the conversion of [A[p]]; every field at
    [p >= len(A)] keeps the value it had before the call, on success or
    error; an error of the binding is the conversion failure of some field
    at [p < len(A)], reported as "invalid value for position p: <detail>";
    there is no run-time panic; and if some field at [p < len(A)] fails to
    convert, [Parse] returns an error. *)
Theorem positional_binding (Q : string -> string) (order : list Z) (toks : list string)
    (ps ps1 : PState) :
  positional_distinct (ps_fs ps) ->
  (forall p fld, (ps_fs ps).(posFields) !! p = Some fld -> 0 <= p) ->
  NoDup order ->
  (forall p fld, (ps_fs ps).(posFields) !! p = Some fld -> p ∈ order) ->
  scan PD toks (parse_reset ps) = (ps1, ROk tt) ->
  (forall p fld, (ps_fs ps).(posFields) !! p = Some fld ->
     (p < Z.of_nat (length (ps_fs ps1).(args)) ->
      (Parse PD PF order toks ps).2 = ROk tt ->
      exists v, setFieldValue PD PF fld.(PosType) (nth (Z.to_nat p) (ps_fs ps1).(args) "") = inl v
        /\ ps_store (Parse PD PF order toks ps).1 !! PosValue fld = Some v)
     /\ (Z.of_nat (length (ps_fs ps1).(args)) <= p ->
         ps_store (Parse PD PF order toks ps).1 !! PosValue fld = ps_store ps !! PosValue fld))
  /\ (forall e, (Parse PD PF order toks ps).2 = RErr e ->
      exists p fld d, (ps_fs ps).(posFields) !! p = Some fld
        /\ 0 <= p < Z.of_nat (length (ps_fs ps1).(args))
        /\ setFieldValue PD PF fld.(PosType) (nth (Z.to_nat p) (ps_fs ps1).(args) "") = inr d
        /\ e = PositionError p d
        /\ error_string Q e = "invalid value for position " +++ Itoa p +++ ": " +++ conv_error_string Q d)
  /\ (Parse PD PF order toks ps).2 <> RPanic
  /\ ((exists p fld d, (ps_fs ps).(posFields) !! p = Some fld
        /\ p < Z.of_nat (length (ps_fs ps1).(args))
        /\ setFieldValue PD PF fld.(PosType) (nth (Z.to_nat p) (ps_fs ps1).(args) "") = inr d) ->
      exists e, (Parse PD PF order toks ps).2 = RErr e).
Proof.
  intros Hbd Hnn Hnd Hord Hscan.
  destruct (scan_after_reset toks ps ps1 _ Hscan) as [Hs1 Hst1].
  pose proof (schema_posFields _ _ Hs1) as Hpf.
  destruct Hbd as (Hfp & Hinj & Hrest & Hunk).
  assert (Hnn1 : forall p fld, posFields (ps_fs ps1) !! p = Some fld -> 0 <= p)
    by (rewrite Hpf; exact Hnn).
  assert (Hinj1 : forall p q fp fq, posFields (ps_fs ps1) !! p = Some fp ->
            posFields (ps_fs ps1) !! q = Some fq -> PosValue fp = PosValue fq -> p = q)
    by (rewrite Hpf; exact Hinj).
  destruct (bind_positionals_spec order ps1 Hnn1) as (Hfs2 & Hst2 & Hr2).
  pose proof (bind_positionals_ok order ps1 Hnn1 Hnd Hinj1) as Hok.
  rewrite Parse_unfold, Hscan.
  destruct (bind_positionals PD PF order ps1) as [ps2 r2] eqn:E2. simpl in Hfs2, Hst2, Hr2, Hok.
  (* a positional variable is no flag variable, nor the rest or unknown slot *)
  assert (Hpos : forall p fld, posFields (ps_fs ps) !! p = Some fld ->
            ~ is_flag_addr (ps_fs ps) (PosValue fld)
            /\ restField (ps_fs ps2) <> Some (PosValue fld)
            /\ unknownField (ps_fs ps2) <> Some (PosValue fld)).
  { intros p fld Hf.
    assert (Hp : is_pos_addr (ps_fs ps) (PosValue fld)) by (exists p, fld; auto).
    rewrite Hfs2, (schema_restField _ _ Hs1), (schema_unknownField _ _ Hs1).
    split; [intros H; exact (Hfp _ H Hp)|]. split.
    - intros H. exact (Hrest _ H Hp).
    - intros H. exact (Hunk _ H Hp). }
  (* a field past the literal arguments is not written *)
  assert (Hkeep : forall p fld, posFields (ps_fs ps) !! p = Some fld ->
            Z.of_nat (length (args (ps_fs ps1))) <= p ->
            ps_store ps2 !! PosValue fld = ps_store ps !! PosValue fld).
  { intros p fld Hf Hge. rewrite Hst2.
    - apply Hst1. exact (proj1 (Hpos p fld Hf)).
    - intros q fq _ Hq Hlt Heq.
      assert (q = p) by (eapply Hinj1; [exact Hq | rewrite Hpf; exact Hf | exact Heq]). lia. }
  split; [|split; [|split]].
  - intros p fld Hf. destruct (Hpos p fld Hf) as (_ & Hr & Hu). split.
    + intros Hlt Hres. destruct r2 as [[]|e|]; simpl in Hres; try discriminate.
      destruct (Hok eq_refl p fld (Hord p fld Hf) ltac:(rewrite Hpf; exact Hf) Hlt) as (v & Hc & Hv).
      exists v. split; [exact Hc|]. cbn [fst]. rewrite parse_finish_store by assumption. exact Hv.
    + intros Hge. destruct r2 as [[]|e|]; cbn [fst].
      * rewrite parse_finish_store by assumption. exact (Hkeep p fld Hf Hge).
      * exact (Hkeep p fld Hf Hge).
      * exact (Hkeep p fld Hf Hge).
  - intros e He. destruct r2 as [[]|e'|]; simpl in He; try discriminate.
    injection He as <-. destruct Hr2 as (p & fld & d & _ & Hf & Hb & Hc & ->).
    exists p, fld, d. rewrite Hpf in Hf. repeat split; try assumption; try lia.
  - destruct r2 as [[]|e|]; simpl; try discriminate. contradiction.
  - intros (p & fld & d & Hf & Hlt & Hc). destruct r2 as [[]|e|]; simpl.
    + destruct (Hok eq_refl p fld (Hord p fld Hf) ltac:(rewrite Hpf; exact Hf) Hlt) as (v & Hc' & _).
      congruence.
    + exists e. reflexivity.
    + contradiction.
Qed.

(** *** Errors and the capture slots *)

Lemma schema_inv_is_pos_addr : schema_inv is_pos_addr.
Proof.
  intros f g a Hs (p & fld & H1 & H2). exists p, fld.
  rewrite <- (schema_posFields _ _ Hs). auto.
Qed.

Lemma bind_positionals_frame order : frame is_pos_addr (bind_positionals PD PF order).
Proof.
  pose proof schema_inv_is_pos_addr as HW.
  induction order as [|pos order IH]; intros ps; simpl; wf.
  all: try apply IH.
  all: try (apply wframe_store_to; eexists _, _; split; [eassumption | reflexivity]).
Qed.

(** C10 (amended): when [Parse] returns an error, the variables of the rest
    and unknown slots keep the value they had before the call, unless they
    are also bound to a flag or a positional field: the two assignments
    happen only after the scan and the positional binding succeed, and the
    scan and the binding write only flag and positional variables. *)
Theorem parse_error_keeps_capture (order : list Z) (toks : list string)
    (ps ps' : PState) (e : error) (u : nat) :
  Parse PD PF order toks ps = (ps', RErr e) ->
  (ps_fs ps).(restField) = Some u \/ (ps_fs ps).(unknownField) = Some u ->
  ~ is_flag_addr (ps_fs ps) u -> ~ is_pos_addr (ps_fs ps) u ->
  ps_store ps' !! u = ps_store ps !! u.
Proof.
  intros H _ Hf Hp. rewrite Parse_unfold in H.
  destruct (scan PD toks (parse_reset ps)) as [ps1 r1] eqn:E1.
  destruct (scan_after_reset toks ps ps1 r1 E1) as [Hs1 Hst1].
  destruct r1 as [[]|e1|]; [|injection H as <- _; apply Hst1, Hf | discriminate].
  destruct (bind_positionals_frame order ps1) as [_ Hst2].
  destruct (bind_positionals PD PF order ps1) as [ps2 [[]|e2|]]; try discriminate.
  injection H as <- _. simpl in Hst2. rewrite Hst2.
  - apply Hst1, Hf.
  - intros Hp1. apply Hp. eapply schema_inv_is_pos_addr; [exact Hs1 | exact Hp1].
Qed.

(** *** Parsing again *)

(** [Parse] writes only the variables its tokens name, the positional
    variables, and the rest and unknown slots. *)
Lemma Parse_frame order toks ps a :
  ~ toks_addr toks (ps_fs ps) a -> ~ is_pos_addr (ps_fs ps) a ->
  (ps_fs ps).(restField) <> Some a -> (ps_fs ps).(unknownField) <> Some a ->
  ps_store (Parse PD PF order toks ps).1 !! a = ps_store ps !! a.
Proof.
  intros Ht Hp Hr Hu. rewrite Parse_unfold.
  destruct (scan_frame toks (parse_reset ps)) as [Hs1 Hst1].
  destruct (scan PD toks (parse_reset ps)) as [ps1 r1] eqn:E1. simpl in Hs1, Hst1.
  assert (H1 : ps_store ps1 !! a = ps_store ps !! a) by (apply Hst1; exact Ht).
  destruct (bind_positionals_frame order ps1) as [Hs2 Hst2].
  assert (Hp1 : ~ is_pos_addr (ps_fs ps1) a).
  { intros H. apply Hp. eapply schema_inv_is_pos_addr; [exact Hs1 | exact H]. }
  destruct r1 as [[]|e1|]; [|exact H1|exact H1].
  destruct (bind_positionals PD PF order ps1) as [ps2 r2] eqn:E2. simpl in Hs2, Hst2.
  assert (H2 : ps_store ps2 !! a = ps_store ps !! a) by (rewrite Hst2 by exact Hp1; exact H1).
  destruct r2 as [[]|e2|]; [|exact H2|exact H2]. cbn [fst].
  rewrite parse_finish_store; [exact H2| |].
  - rewrite (schema_restField _ _ Hs2), (schema_restField _ _ Hs1). exact Hr.
  - rewrite (schema_unknownField _ _ Hs2), (schema_unknownField _ _ Hs1). exact Hu.
Qed.

(** C6 (amended): [Parse] starts from empty literal arguments and an empty
    unknown list, whatever an earlier call left there (its result does not
    depend on them), and restores no default: a variable that no token of
    the new input names, and that is no positional variable nor the rest or
    unknown slot, keeps its value; in particular, when the bindings are
    distinct, a flag's variable changes only if a token of the new input
    names that flag. *)
Theorem reparse_keeps_values (order : list Z) (toks prevArgs prevUnknown : list string)
    (f : FlagSet) (st : gmap nat Val) (a : nat) :
  Parse PD PF order toks (mkPState (set_args prevArgs (set_unknownFlags prevUnknown f)) st)
  = Parse PD PF order toks (mkPState (set_args [] (set_unknownFlags [] f)) st)
  /\ (~ toks_addr toks f a -> ~ is_pos_addr f a -> f.(restField) <> Some a -> f.(unknownField) <> Some a ->
      ps_store (Parse PD PF order toks (mkPState f st)).1 !! a = st !! a)
  /\ (bindings_distinct f -> is_flag_addr f a -> (forall t, t ∈ toks -> ~ names_addr f a t) ->
      ps_store (Parse PD PF order toks (mkPState f st)).1 !! a = st !! a).
Proof.
  split; [reflexivity|]. split.
  - intros Ht Hp Hr Hu. exact (Parse_frame order toks (mkPState f st) a Ht Hp Hr Hu).
  - intros (Hfp & _ & Hrest & Hunk) Hfl Hnt.
    apply (Parse_frame order toks (mkPState f st) a); simpl.
    + intros (t & Ht & Hn). exact (Hnt t Ht Hn).
    + exact (Hfp a Hfl).
    + intros H. exact (proj1 (Hrest a H) Hfl).
    + intros H. exact (proj1 (Hunk a H) Hfl).
Qed.

End ParseProps.

(* ------------------------------------------------------------------ *)
(** ** Properties of registration *)

Lemma collect_plain (d : Dispatcher) (ws : list string) :
  Forall (fun w => HasPrefix w "-" = false) ws ->
  forall i parts idx sk,
  collect d ws i parts idx sk = (parts ++ ws, idx ++ seq i (length ws), sk).
Proof.
  induction 1 as [|w ws Hw _ IH]; intros i parts idx sk.
  - simpl. rewrite !app_nil_r. reflexivity.
  - simpl. rewrite Hw, IH. rewrite <- !app_assoc. reflexivity.
Qed.

(** C8: registration and lookup go through the whitespace-normalized path:
    when [p] and [q] have the same words, after [Dispatch(p, c)] the lookups
    under [q] ([GetCommand], [HasCommand], [GetCommandEntry]) find [c], the
    resolution of any flag-free token vector whose words normalize to [q]
    selects [c] with no leftover tokens, and a later [Dispatch(q, c2)]
    replaces the entry [Dispatch(p, c)] made. *)
Theorem dispatch_whitespace_insensitive (d : Dispatcher) (p q : string) (c c2 : Command)
    (ws : list string) :
  Fields p = Fields q ->
  GetCommand (Dispatch d p c) q = Some c
  /\ HasCommand (Dispatch d p c) q = true
  /\ GetCommandEntry (Dispatch d p c) q = Some (mkCommandEntry (normalizeCommandPath q) c (cmd_Usage c))
  /\ commands (Dispatch (Dispatch d p c) q c2) = commands (Dispatch d q c2)
  /\ (ws <> [] -> Forall (fun w => HasPrefix w "-" = false) ws ->
      normalizeCommandPath (Join ws " ") = normalizeCommandPath q ->
      findCommandWithInterspersedFlags (Dispatch d p c) ws
      = (Some (mkCommandEntry (normalizeCommandPath q) c (cmd_Usage c)), [])).
Proof.
  intros Hpq.
  assert (Hn : normalizeCommandPath p = normalizeCommandPath q)
    by (unfold normalizeCommandPath; rewrite Hpq; reflexivity).
  unfold GetCommand, HasCommand, GetCommandEntry, Dispatch. simpl. rewrite Hn, lookup_insert_eq.
  split; [reflexivity|]. split; [reflexivity|]. split; [reflexivity|]. split.
  - rewrite insert_insert_eq. reflexivity.
  - intros Hne Hws Hj. unfold findCommandWithInterspersedFlags.
    rewrite (collect_plain _ ws Hws). simpl.
    destruct (length ws) as [|n] eqn:Hl; [destruct ws; simpl in *; congruence|].
    simpl try_prefixes. rewrite <- Hl, firstn_all, Hj. simpl. rewrite lookup_insert_eq.
    change (0%nat :: seq 1 n) with (seq 0 (S n)). rewrite nth_error_seq. replace ((n <? S n)%nat) with true by (symmetry; apply Nat.ltb_lt; lia). simpl.
    destruct (Z.leb_spec 0 (Z.of_nat n)); [|lia].
    destruct (Z.ltb_spec (Z.of_nat n + 1) (Z.of_nat (length ws))); [lia|].
    reflexivity.
Qed.

Lemma dispatch_whitespace_insensitive_witness :
  Fields "foo  bar" = Fields " foo	bar "
  /\ GetCommand (Dispatch (NewDispatcher "app") "foo  bar" cmd_plain) " foo	bar " = Some cmd_plain
  /\ findCommandWithInterspersedFlags (Dispatch (NewDispatcher "app") "foo  bar" cmd_plain) ["foo";"bar"]
     = (Some (mkCommandEntry "foo bar" cmd_plain (cmd_Usage cmd_plain)), []).
Proof.
  assert (H : Fields "foo  bar" = Fields " foo	bar ") by (vm_compute; reflexivity).
  destruct (dispatch_whitespace_insensitive (NewDispatcher "app") "foo  bar" " foo	bar "
              cmd_plain cmd_plain ["foo";"bar"] H) as [H1 [_ [_ [_ H5]]]].
  split; [exact H|]. split; [exact H1|].
  rewrite (H5 ltac:(discriminate) ltac:(repeat constructor) ltac:(vm_compute; reflexivity)).
  vm_compute. reflexivity.
Defined.

(* ------------------------------------------------------------------ *)
(** ** Properties of [Execute] *)

(** C7 (amended): unless the call is a completion request, a help token
    ("-h", "--help" or "help") anywhere in the input makes [Execute] render
    the help of the command the interspersed-flag resolution selects, or the
    general help when none resolves, without parsing or running anything;
    with "foo bar" registered with a value flag -C, the input
    ["foo";"-C";"local";"bar";"-h"] renders the help of "foo bar". *)
Theorem help_interception
    (PD : string -> Z + string) (PF : string -> Z -> Z + conv_error)
    (compLine : string) (order : list Z) (d : Dispatcher) (st : gmap nat Val)
    (args0 : list string) :
  HandleCompletion compLine args0 = false ->
  existsb is_help_token args0 = true ->
  Execute PD PF compLine order d st args0
  = (match (findCommandWithInterspersedFlags d args0).1 with
     | Some e => ShowCommandHelp e
     | None => ShowHelp
     end, st)
  /\ option_map Path (findCommandWithInterspersedFlags d_p6 ["foo";"-C";"local";"bar";"-h"]).1
     = Some "foo bar"
  /\ (Execute PD PF "" order d_p6 st ["foo";"-C";"local";"bar";"-h"]).1
     = ShowCommandHelp (mkCommandEntry "foo bar" (mkCommand fs_p6 "" 1) "").
Proof.
  intros Hc Hh. split; [|split].
  - unfold Execute. rewrite Hc. destruct args0 as [|a rest]; [discriminate|].
    rewrite Hh. destruct (findCommandWithInterspersedFlags d (a :: rest)) as [[e|] l]; reflexivity.
  - vm_compute. reflexivity.
  - vm_compute. reflexivity.
Qed.

Lemma help_interception_witness :
  HandleCompletion "" ["foo";"-C";"local";"bar";"-h"] = false
  /\ existsb is_help_token ["foo";"-C";"local";"bar";"-h"] = true
  /\ Execute pd0 pf0 "" [] d_p6 ∅ ["foo";"-C";"local";"bar";"-h"]
     = (ShowCommandHelp (mkCommandEntry "foo bar" (mkCommand fs_p6 "" 1) ""), ∅).
Proof.
  assert (H1 : HandleCompletion "" ["foo";"-C";"local";"bar";"-h"] = false) by reflexivity.
  assert (H2 : existsb is_help_token ["foo";"-C";"local";"bar";"-h"] = true) by reflexivity.
  split; [exact H1|]. split; [exact H2|].
  destruct (help_interception pd0 pf0 "" [] d_p6 ∅ _ H1 H2) as [H _]. rewrite H.
  vm_compute. reflexivity.
Defined.

(** C7 (counterexample): a completion request takes precedence over help:
    with "--complete-bash" in front the input carries "-h", yet [Execute]
    renders no help and only answers the completion; the same holds for
    ["foo";"bar";"-h"] when COMP_LINE is set. *)
Lemma help_interception_counterexample :
  existsb is_help_token ["--complete-bash";"foo";"bar";"-h"] = true
  /\ (Execute pd0 pf0 "" [] d_p6 ∅ ["--complete-bash";"foo";"bar";"-h"]).1 = Completed
  /\ (Execute pd0 pf0 "foo bar -h" [] d_p6 ∅ ["foo";"bar";"-h"]).1 = Completed.
Proof. vm_compute. repeat split. Qed.

Lemma parse_help_not_special_witness :
  (NewFlagSet "t").(flags) !! "help" = None /\ (NewFlagSet "t").(shortMap) !! 104 = None
  /\ scan pd0 ["-h"; "x"] (mkPState (NewFlagSet "t") ∅)
     = (mkPState (NewFlagSet "t") ∅, RErr (FlagError ErrUnknownFlag "-h" None)).
Proof.
  assert (H1 : (NewFlagSet "t").(flags) !! "help" = None) by reflexivity.
  assert (H2 : (NewFlagSet "t").(shortMap) !! 104 = None) by reflexivity.
  split; [exact H1|]. split; [exact H2|].
  destruct (parse_help_not_special pd0 pf0 [] [] (NewFlagSet "t") ∅ "-h" ["x"]) as [_ H].
  rewrite (H H1 H2 (or_introl eq_refl)). reflexivity.
Defined.

(** C9 (counterexample): a flag set with no "help" flag and no -h, and
    unknown capture off, parses inputs that contain "-h" without any error:
    as the value of the string flag "--out", or after "--". *)
Lemma parse_help_not_special_counterexample :
  fs_out.(flags) !! "help" = None /\ fs_out.(shortMap) !! 104 = None
  /\ fs_out.(allowUnknownFlags) = false
  /\ (Parse pd0 pf0 [] ["--out"; "-h"] (mkPState fs_out ∅)).2 = ROk tt
  /\ (Parse pd0 pf0 [] ["--"; "-h"] (mkPState fs_out ∅)).2 = ROk tt.
Proof. vm_compute. repeat split. Qed.

Lemma unknown_capture_sticky_witness :
  let f := ps_fs ps_p7 in
  f.(allowUnknownFlags) = true
  /\ scan pd0 ["--unknown"; "a"] (mkPState f ∅)
     = (mkPState (set_unknownFlags ["--unknown"; "a"] f) ∅, ROk tt)
  /\ scan pd0 ["-vx"; "a"] (mkPState f ∅)
     = (mkPState (set_unknownFlags ["-vx"; "a"] f) (<[1%nat := VBool true]> ∅), ROk tt).
Proof.
  intros f.
  assert (Ha : f.(allowUnknownFlags) = true) by reflexivity.
  split; [exact Ha|]. split.
  - destruct (unknown_capture_sticky pd0 pf0 f ∅ "--unknown" ["a"] [] 0 []) as [H _]; [exact Ha|].
    rewrite H; [reflexivity | reflexivity | discriminate | reflexivity].
  - destruct (unknown_capture_sticky pd0 pf0 f ∅ "-vx" ["a"] [118] 120 []) as [_ [H _]]; [exact Ha|].
    rewrite H; [reflexivity | reflexivity | reflexivity | simpl; lia | reflexivity
               | repeat constructor; eexists; split; reflexivity | reflexivity].
Defined.

(** C3 (counterexample): an unregistered rune after a value-taking short
    flag is part of its value, not an unknown flag: with a string flag -a
    and unknown capture on, ["-ax"] sets a to "x" and captures nothing; and
    capturing does not make [Parse] succeed: with an int positional field
    at 0, ["abc";"--unknown"] captures "--unknown" and then fails on the
    conversion of "abc". *)
Lemma unknown_capture_sticky_counterexample :
  (let r := Parse pd0 pf0 [] ["-ax"] ps_c3a in
   ps_c3a.(ps_fs).(shortMap) !! 120 = None
   /\ r.2 = ROk tt /\ r.1.(ps_store) !! 1%nat = Some (VString "x") /\ r.1.(ps_fs).(unknownFlags) = [])
  /\ (let r := Parse pd0 pf0 [0] ["abc";"--unknown"] ps_c3b in
      ps_c3b.(ps_fs).(flags) !! "unknown" = None
      /\ r.1.(ps_fs).(unknownFlags) = ["--unknown"]
      /\ r.2 = RErr (PositionError 0 (NumError "ParseInt" "abc" ErrSyntax))).
Proof. vm_compute. repeat split. Qed.

Lemma short_value_flags_collide_witness :
  let f := ps_fs ps_p4 in
  exists fl1 fl2,
    f.(shortMap) !! 97 = Some fl1 /\ IsBool fl1.(FlagValue) = false
    /\ f.(shortMap) !! 98 = Some fl2 /\ IsBool fl2.(FlagValue) = false
    /\ scan pd0 ["-ab"; "value"] (mkPState f ∅)
       = (mkPState f ∅, RErr (FlagError ErrMissingValue "-a" None)).
Proof.
  intros f.
  destruct (f.(shortMap) !! 97) as [fl1|] eqn:H1; [|discriminate].
  destruct (f.(shortMap) !! 98) as [fl2|] eqn:H2; [|discriminate].
  assert (B1 : IsBool fl1.(FlagValue) = false) by (vm_compute in H1; injection H1 as <-; reflexivity).
  assert (B2 : IsBool fl2.(FlagValue) = false) by (vm_compute in H2; injection H2 as <-; reflexivity).
  exists fl1, fl2. split; [reflexivity|]. split; [exact B1|]. split; [reflexivity|]. split; [exact B2|].
  destruct (short_value_flags_collide pd0 pf0 f ∅ "-ab" ["value"] [] 97 98 [] fl1 fl2) as [H _].
  rewrite H; try reflexivity; try assumption; [simpl; lia | constructor].
Defined.

(** C4 (counterexample): when the first rune of the cluster is a
    value-taking flag followed by an unregistered rune, the rest of the
    cluster is its value, even if it contains two adjacent value-taking
    flags: with value-taking -q, -a and -b, ["-qxab"] succeeds and sets q
    to "xab". *)
Lemma short_value_flags_collide_counterexample :
  let r := Parse pd0 pf0 [] ["-qxab"] ps_c4 in
  r.2 = ROk tt /\ r.1.(ps_store) !! 1%nat = Some (VString "xab").
Proof. vm_compute. split; reflexivity. Qed.

Lemma fs_w5_distinct : bindings_distinct fs_w5.
Proof.
  assert (Hpos : forall p fld, posFields fs_w5 !! p = Some fld ->
            (p = 0 /\ fld = mkPositionalField "n" 1 (TInt 64))
            \/ (p = 2 /\ fld = mkPositionalField "m" 2 (TInt 64))).
  { intros p fld H. simpl in H. apply lookup_insert_Some in H.
    destruct H as [[<- <-]|[_ H]]; [left; auto|]. apply lookup_singleton_Some in H.
    destruct H as [<- <-]. right; auto. }
  assert (Hfl : forall a, is_flag_addr fs_w5 a -> a = 3%nat).
  { intros a [(k & fl & H & <-)|(r & fl & H & <-)]; simpl in H;
      apply lookup_singleton_Some in H; destruct H as [_ <-]; reflexivity. }
  split; [|split; [|split]].
  - intros a Ha (p & fld & Hp & <-). apply Hfl in Ha.
    destruct (Hpos p fld Hp) as [[_ ->]|[_ ->]]; simpl in Ha; discriminate.
  - intros p q fp fq Hp Hq E.
    destruct (Hpos p fp Hp) as [[-> ->]|[-> ->]], (Hpos q fq Hq) as [[-> ->]|[-> ->]];
      simpl in E; congruence.
  - intros r H. discriminate.
  - intros u H. discriminate.
Qed.

Lemma fs_w5_positional_distinct : positional_distinct fs_w5.
Proof.
  destruct fs_w5_distinct as (H1 & H2 & H3 & H4).
  split; [exact H1|]. split; [exact H2|]. split.
  - intros r Hr. exact (proj2 (H3 r Hr)).
  - intros u Hu. exact (proj1 (proj2 (H4 u Hu))).
Qed.

Lemma positional_binding_witness :
  let toks := ["5"; "--count=4"] in
  let ps1 := (scan pd0 toks (parse_reset ps_w5)).1 in
  positional_distinct fs_w5
  /\ scan pd0 toks (parse_reset ps_w5) = (ps1, ROk tt)
  /\ ps_store (Parse pd0 pf0 [2; 0] toks ps_w5).1 !! 2%nat = Some (VInt 7)
  /\ ps_store (Parse pd0 pf0 [2; 0] toks ps_w5).1 !! 1%nat = Some (VInt 5).
Proof.
  intros toks ps1.
  assert (Hsc : scan pd0 toks (parse_reset ps_w5) = (ps1, ROk tt)) by (vm_compute; reflexivity).
  assert (Hnn : forall p fld, posFields (ps_fs ps_w5) !! p = Some fld -> 0 <= p).
  { intros p fld H. simpl in H. apply lookup_insert_Some in H.
    destruct H as [[<- _]|[_ H]]; [lia|]. apply lookup_singleton_Some in H. lia. }
  assert (Hord : forall p fld, posFields (ps_fs ps_w5) !! p = Some fld -> p ∈ [2; 0]).
  { intros p fld H. simpl in H. apply lookup_insert_Some in H.
    destruct H as [[<- _]|[_ H]]; [set_solver|]. apply lookup_singleton_Some in H.
    destruct H as [<- _]. set_solver. }
  assert (Hnd : NoDup [2; 0]) by (repeat constructor; set_solver).
  destruct (positional_binding pd0 pf0 id [2; 0] toks ps_w5 ps1 fs_w5_positional_distinct Hnn Hnd Hord Hsc)
    as [H1 _].
  split; [exact fs_w5_positional_distinct|]. split; [exact Hsc|]. split.
  - destruct (H1 2 (mkPositionalField "m" 2 (TInt 64)) eq_refl) as [_ Hk].
    exact (eq_trans (Hk ltac:(vm_compute; discriminate)) eq_refl).
  - destruct (H1 0 (mkPositionalField "n" 1 (TInt 64)) eq_refl) as [Hc _].
    destruct (Hc ltac:(vm_compute; reflexivity) ltac:(vm_compute; reflexivity)) as (v & Hv & Hs).
    vm_compute in Hv. injection Hv as <-. exact Hs.
Defined.

(** C5 (counterexample): a field past the literal arguments can change
    when its variable is also bound to a flag: with a positional field at 5
    and a flag "port" on the same variable, ["--port=3"] leaves no literal
    argument and sets the field's variable to 3; and a single field at
    position -1 passes the test [pos < len(f.args)] and indexes [f.args]
    out of range: [Parse] of ["x"] panics. *)
Lemma positional_binding_counterexample :
  (let r := Parse pd0 pf0 [5] ["--port=3"] ps_alias5 in
   ps_alias5.(ps_store) !! 1%nat = Some (VInt 0)
   /\ r.2 = ROk tt /\ r.1.(ps_fs).(args) = [] /\ r.1.(ps_store) !! 1%nat = Some (VInt 3))
  /\ (Parse pd0 pf0 [-1] ["x"] ps_neg5).2 = RPanic.
Proof. vm_compute. repeat split. Qed.

Lemma parse_error_keeps_capture_witness :
  Parse pd0 pf0 [] ["a"; "--name"] ps_w10
    = ((Parse pd0 pf0 [] ["a"; "--name"] ps_w10).1, RErr (FlagError ErrMissingValue "--name" None))
  /\ ~ is_flag_addr fs_w10 4 /\ ~ is_pos_addr fs_w10 4
  /\ ps_store (Parse pd0 pf0 [] ["a"; "--name"] ps_w10).1 !! 4%nat = Some (VStrings ["old"]).
Proof.
  assert (H : Parse pd0 pf0 [] ["a"; "--name"] ps_w10
              = ((Parse pd0 pf0 [] ["a"; "--name"] ps_w10).1,
                 RErr (FlagError ErrMissingValue "--name" None))) by (vm_compute; reflexivity).
  assert (Hf : ~ is_flag_addr fs_w10 4).
  { intros [(k & fl & Hk & Ha)|(r & fl & Hr & Ha)]; simpl in Hk || simpl in Hr.
    - apply lookup_singleton_Some in Hk. destruct Hk as [_ <-]. discriminate.
    - rewrite lookup_empty in Hr. discriminate. }
  assert (Hp : ~ is_pos_addr fs_w10 4).
  { intros (p & fld & Hl & _). simpl in Hl. rewrite lookup_empty in Hl. discriminate. }
  split; [exact H|]. split; [exact Hf|]. split; [exact Hp|].
  rewrite (parse_error_keeps_capture pd0 pf0 [] ["a"; "--name"] ps_w10 _ _ 4 H (or_introl eq_refl) Hf Hp).
  reflexivity.
Defined.

(** C10 (counterexample): when the rest slot shares its variable with a
    flag, a failing [Parse] leaves it changed: with [Rest] and a
    string-array flag "list" on the same variable,
    ["--list=a,b";"--bogus"] fails on the unknown flag after "--list" has
    set the variable to ["a";"b"]. *)
Lemma parse_error_keeps_capture_counterexample :
  let r := Parse pd0 pf0 [] ["--list=a,b"; "--bogus"] ps_c10 in
  ps_c10.(ps_fs).(restField) = Some 1%nat
  /\ ps_c10.(ps_store) !! 1%nat = Some (VStrings [])
  /\ r.2 = RErr (FlagError ErrUnknownFlag "--bogus" None)
  /\ r.1.(ps_store) !! 1%nat = Some (VStrings ["a"; "b"]).
Proof. vm_compute. repeat split. Qed.

Lemma reparse_keeps_values_witness :
  bindings_distinct fs_w5 /\ is_flag_addr fs_w5 3
  /\ ps_store (Parse pd0 pf0 [2; 0] ["5"] (mkPState fs_w5 (<[3%nat := VInt 9]> (ps_store ps_w5)))).1
       !! 3%nat = Some (VInt 9).
Proof.
  assert (Hfl : is_flag_addr fs_w5 3) by (left; exists "count", flag_count; split; reflexivity).
  assert (Hnt : forall t, t ∈ ["5"] -> ~ names_addr fs_w5 3 t).
  { intros t Ht. apply list_elem_of_singleton in Ht. subst t.
    intros [[H _]|[H _]]; discriminate. }
  split; [exact fs_w5_distinct|]. split; [exact Hfl|].
  destruct (reparse_keeps_values pd0 pf0 [2; 0] ["5"] [] [] fs_w5
              (<[3%nat := VInt 9]> (ps_store ps_w5)) 3) as (_ & _ & H).
  rewrite (H fs_w5_distinct Hfl Hnt). reflexivity.
Defined.

(** C6 (counterexample): a flag's variable can change in a second [Parse]
    that has no token at all: with [Rest] and a string-array flag "list" on
    the same variable, a first [Parse] of ["p"] leaves ["p"] in it, and a
    second [Parse] of [] resets it to the empty list. *)
Lemma reparse_keeps_values_counterexample :
  let ps1 := (Parse pd0 pf0 [] ["p"] ps_c10).1 in
  let ps2 := (Parse pd0 pf0 [] [] ps1).1 in
  is_flag_addr ps1.(ps_fs) 1
  /\ ps1.(ps_store) !! 1%nat = Some (VStrings ["p"])
  /\ ps2.(ps_store) !! 1%nat = Some (VStrings []).
Proof.
  split; [|vm_compute; split; reflexivity].
  left. exists "list". eexists. split; [vm_compute; reflexivity | reflexivity].
Qed.

(* ------------------------------------------------------------------ *)
(** ** Properties of the rest of the package *)

Lemma uval_acc u acc : Zpos (Pos.of_uint_acc u acc) = uval u (Zpos acc).
Proof.
  revert acc; induction u; intros acc; simpl; try reflexivity;
  rewrite IHu; f_equal; rewrite ?Pos2Z.inj_add, ?Pos2Z.inj_mul; lia.
Qed.

Lemma uval_of_uint u : Z.of_N (Pos.of_uint u) = uval u 0.
Proof.
  induction u; simpl; try exact IHu; try reflexivity; rewrite uval_acc; reflexivity.
Qed.

Lemma uval_to_uint p : uval (Pos.to_uint p) 0 = Zpos p.
Proof. rewrite <- uval_of_uint, DecimalPos.Unsigned.of_to. reflexivity. Qed.

Lemma uval_ge u acc : 0 <= acc -> acc <= uval u acc.
Proof. revert acc; induction u; intros acc H; simpl; try lia;
  (etransitivity; [|apply IHu; lia]); lia. Qed.

Lemma digit_step c r n maxVal : inr_ 48 (byteZ c) 57 = true ->
  uint_digits (String c r) n maxVal
  = if maxVal <? n * 10 + (byteZ c - 48) then inr ErrRange
    else uint_digits r (n * 10 + (byteZ c - 48)) maxVal.
Proof. intros H. simpl. rewrite H. reflexivity. Qed.

Lemma uint_digits_uval u n maxVal :
  0 <= n -> uval u n <= maxVal ->
  uint_digits (NilEmpty.string_of_uint u) n maxVal = inl (uval u n).
Proof.
  revert n; induction u; intros n Hn Hm; [reflexivity| ..];
  (cbn [NilEmpty.string_of_uint]; rewrite digit_step by reflexivity;
   match goal with |- context [byteZ ?c - 48] =>
     let v := eval vm_compute in (byteZ c - 48) in
     replace (byteZ c - 48) with v by reflexivity end;
   simpl in Hm;
   match type of Hm with uval _ ?a <= _ => assert (H1 := uval_ge u a ltac:(lia)) end;
   match goal with |- context [maxVal <? ?e] => destruct (Z.ltb_spec maxVal e); [lia|] end;
   apply IHu; lia).
Qed.

Lemma string_of_uint_head u : u <> Decimal.Nil ->
  exists c r, NilEmpty.string_of_uint u = String c r /\ c <> "+"%char /\ c <> "-"%char.
Proof. destruct u; intros H; try congruence; simpl; eexists _, _; (split; [reflexivity|split; discriminate]). Qed.

Lemma Atoi_Itoa z : -2^63 <= z < 2^63 -> Atoi (Itoa z) = inl z.
Proof.
  intros Hz. unfold Atoi, Itoa.
  destruct z as [|p|p].
  - vm_compute. reflexivity.
  - simpl. destruct (string_of_uint_head (Pos.to_uint p) (DecimalPos.Unsigned.to_uint_nonnil p))
      as (c & r & Hs & Hp & Hm).
    unfold ParseInt. rewrite Hs. simpl String.eqb at 1.
    rewrite (proj2 (Ascii.eqb_neq _ _) Hp), (proj2 (Ascii.eqb_neq _ _) Hm).
    unfold ParseUint. simpl String.eqb at 1. rewrite <- Hs.
    rewrite uint_digits_uval; [|lia|rewrite uval_to_uint; lia].
    rewrite uval_to_uint. simpl negb.
    destruct (Z.leb_spec (2 ^ (64 - 1)) (Zpos p)); [lia|]. reflexivity.
  - simpl. destruct (string_of_uint_head (Pos.to_uint p) (DecimalPos.Unsigned.to_uint_nonnil p))
      as (c & r & Hs & Hp & Hm).
    unfold ParseInt. simpl String.eqb at 1. simpl.
    unfold ParseUint. rewrite Hs. simpl String.eqb at 1. rewrite <- Hs.
    rewrite uint_digits_uval; [|lia|rewrite uval_to_uint; lia].
    rewrite uval_to_uint. simpl.
    destruct (Z.ltb_spec (2 ^ (64 - 1)) (Zpos p)); [lia|]. reflexivity.
Qed.

Lemma sapp_nil_r s : s +++ "" = s.
Proof. unfold sapp. induction s as [|c s IH]; [reflexivity|exact (f_equal (String c) IH)]. Qed.

Lemma sapp_assoc a b c : (a +++ b) +++ c = a +++ (b +++ c).
Proof. unfold sapp. induction a as [|x a IH]; [reflexivity|exact (f_equal (String x) IH)]. Qed.

Lemma split_comma_nc w : no_comma w -> split_comma w = [w].
Proof.
  induction w as [|c w IH]; intros H; [reflexivity|].
  inversion H as [|? ? Hc Hw]; subst. simpl.
  rewrite (proj2 (Ascii.eqb_neq _ _) Hc), (IH Hw). reflexivity.
Qed.

Lemma split_comma_app w s : no_comma w -> split_comma (w +++ String ","%char s) = w :: split_comma s.
Proof.
  induction w as [|c w IH]; intros H; [reflexivity|].
  inversion H as [|? ? Hc Hw]; subst. unfold sapp in *. simpl.
  rewrite (proj2 (Ascii.eqb_neq _ _) Hc), (IH Hw). reflexivity.
Qed.

Lemma split_Join l : l <> [] -> Forall no_comma l -> split_comma (Join l ",") = l.
Proof.
  induction l as [|w l IH]; intros Hne H; [congruence|].
  inversion H as [|? ? Hw Hl]; subst.
  destruct l as [|w' l'].
  - unfold Join. simpl. apply split_comma_nc, Hw.
  - unfold Join in *. simpl String.concat. simpl String.concat in IH.
    change (split_comma (w +++ String ","%char (String.concat "," (w' :: l'))) = w :: w' :: l').
    rewrite split_comma_app by exact Hw. f_equal. apply IH; [discriminate|exact Hl].
Qed.

(** X1: Reading back what [String] prints gives the value again, for a bool, a
    string, an int in the 64-bit range, and a non-empty string array with no
    comma in any element. An empty string array is printed as the empty
    string and read back as a one-element array holding the empty string. *)
Theorem value_set_string_roundtrip (PD : string -> Z + string) (DS : Z -> string)
    (k : ValueKind) (x : Val) :
  roundtrip_val k x ->
  value_set PD k (value_string DS k (Some x)) = inl x
  /\ value_set PD KStringArray (value_string DS KStringArray (Some (VStrings []))) = inl (VStrings [""]).
Proof.
  intros H. split; [|reflexivity].
  destruct k, x; simpl in H; try contradiction.
  - destruct b; reflexivity.
  - reflexivity.
  - simpl. rewrite Atoi_Itoa by exact H. reflexivity.
  - simpl. rewrite split_Join by tauto. reflexivity.
Qed.

Lemma uint_digits_bound s : forall n maxVal m,
  0 <= n -> uint_digits s n maxVal = inl m -> n <= m /\ (m = n \/ m <= maxVal).
Proof.
  induction s as [|c s IH]; intros n maxVal m Hn H; simpl in H.
  - injection H as <-. lia.
  - destruct (inr_ 48 (byteZ c) 57) eqn:Hd; [|discriminate].
    unfold inr_ in Hd. apply andb_true_iff in Hd as [H1 H2].
    apply Z.leb_le in H1, H2.
    destruct (Z.ltb_spec maxVal (n * 10 + (byteZ c - 48))); [discriminate|].
    apply IH in H; lia.
Qed.

Lemma ParseUint_range s bits u : 0 <= bits -> ParseUint s bits = inl u -> 0 <= u <= 2 ^ bits - 1.
Proof.
  intros Hb H. unfold ParseUint in H.
  destruct (String.eqb_spec s EmptyString) as [->|Hne]; [discriminate|].
  destruct (uint_digits s 0 (2 ^ bits - 1)) eqn:E; [|discriminate].
  injection H as <-.
  assert (Hp : 0 < 2 ^ bits) by (apply Z.pow_pos_nonneg; lia).
  destruct s as [|c s]; [congruence|]. simpl in E.
  destruct (inr_ 48 (byteZ c) 57) eqn:Hd; [|discriminate].
  unfold inr_ in Hd. apply andb_true_iff in Hd as [H1 H2]. apply Z.leb_le in H1, H2.
  destruct (Z.ltb_spec (2 ^ bits - 1) (0 * 10 + (byteZ c - 48))); [discriminate|].
  apply uint_digits_bound in E; lia.
Qed.

Lemma ParseInt_range s bits z : 1 <= bits -> ParseInt s bits = inl z ->
  - 2 ^ (bits - 1) <= z < 2 ^ (bits - 1).
Proof.
  intros Hb H. unfold ParseInt in H.
  destruct (String.eqb s EmptyString); [discriminate|].
  assert (Hc : 0 < 2 ^ (bits - 1)) by (apply Z.pow_pos_nonneg; lia).
  match type of H with context [let '(_, _) := ?x in _] => destruct x as [neg s'] end.
  destruct (ParseUint s' bits) as [un|[fn num [|]|m]] eqn:E; try discriminate.
  apply ParseUint_range in E; [|lia].
  destruct neg; simpl in H.
  - destruct (Z.ltb_spec (2 ^ (bits - 1)) un); [discriminate|]. injection H as <-. lia.
  - destruct (Z.leb_spec (2 ^ (bits - 1)) un); [discriminate|]. injection H as <-. lia.
Qed.

(** X2: An integer that [setFieldValue] converts for a signed field of [bits]
    bits lies in [-2^(bits-1), 2^(bits-1)). An unsigned one lies in
    [0, 2^bits). An int flag's [Set] only stores values in the 64-bit range. *)
Theorem converted_integers_in_range (PD : string -> Z + string) (PF : string -> Z -> Z + conv_error)
    (bits : Z) (s : string) (z : Z) :
  1 <= bits ->
  (setFieldValue PD PF (TInt bits) s = inl (VInt z) -> - 2 ^ (bits - 1) <= z < 2 ^ (bits - 1))
  /\ (setFieldValue PD PF (TUint bits) s = inl (VUint z) -> 0 <= z < 2 ^ bits)
  /\ (value_set PD KInt s = inl (VInt z) -> - 2 ^ 63 <= z < 2 ^ 63).
Proof.
  intros Hb. split; [|split]; intros H; simpl in H.
  - destruct (ParseInt s bits) eqn:E; [|discriminate]. injection H as <-.
    exact (ParseInt_range _ _ _ Hb E).
  - destruct (ParseUint s bits) eqn:E; [|discriminate]. injection H as <-.
    apply ParseUint_range in E; lia.
  - unfold Atoi in H. destruct (ParseInt s 64) as [i|[fn num e|m]] eqn:E; try discriminate.
    injection H as <-. apply ParseInt_range in E; [exact E|lia].
Qed.

Lemma set_args_set_args l1 l2 f : set_args l2 (set_args l1 f) = set_args l2 f.
Proof. destruct f; reflexivity. Qed.

Lemma HasPrefix_spec s p : HasPrefix s p = true <-> exists r, s = p +++ r.
Proof.
  unfold HasPrefix, sapp. revert s; induction p as [|a p IH]; intros s.
  - split; [intros _; exists s; reflexivity|intros _; destruct s; reflexivity].
  - destruct s as [|b s]; simpl.
    + split; [discriminate|intros [r Hr]; discriminate].
    + destruct (ascii_dec a b) as [<-|Hne].
      * rewrite IH. split; intros [r Hr]; exists r; [rewrite Hr; reflexivity|injection Hr; auto].
      * split; [discriminate|intros [r Hr]; injection Hr; intros; congruence].
Qed.

Lemma HasPrefix_dd_d t : HasPrefix t "--" = true -> HasPrefix t "-" = true.
Proof.
  rewrite !HasPrefix_spec. intros [r ->]. exists (String "-" r). reflexivity.
Qed.

Section PlainArgs.

Context (PD : string -> Z + string) (PF : string -> Z -> Z + conv_error).

Lemma scan_plain pre rest ps :
  Forall (fun t => plain_arg t = true) pre ->
  scan PD (pre ++ rest) ps
  = scan PD rest (mkPState (set_args (args (ps_fs ps) ++ pre) (ps_fs ps)) (ps_store ps)).
Proof.
  intros H. revert ps. induction H as [|t pre Ht _ IH]; intros ps.
  - simpl. rewrite app_nil_r. destruct ps as [f st]. destruct f; reflexivity.
  - simpl app. unfold plain_arg in Ht.
    assert (E : String.eqb t "--" = false /\ HasPrefix t "--" = false
                /\ (HasPrefix t "-" && (1 <? String.length t)%nat) = false).
    { destruct (HasPrefix t "-") eqn:E1; simpl in Ht.
      - apply String.eqb_eq in Ht. subst t. split; [reflexivity|]. split; reflexivity.
      - split; [|split; [|reflexivity]].
        + destruct (String.eqb_spec t "--"); [subst; discriminate|reflexivity].
        + destruct (HasPrefix t "--") eqn:E2; [|reflexivity].
          apply HasPrefix_dd_d in E2. congruence. }
    destruct E as (E1 & E2 & E3).
    cbn [scan]. rewrite E1, E2, E3.
    unfold bind, modify_fs. simpl. rewrite IH. simpl.
    rewrite set_args_set_args. destruct ps as [f st]. simpl.
    rewrite <- app_assoc. destruct f; reflexivity.
Qed.

Lemma bind_positionals_fs order ps :
  ps_fs (bind_positionals PD PF order ps).1 = ps_fs ps.
Proof.
  revert ps. induction order as [|pos order IH]; intros ps; [reflexivity|].
  simpl. unfold bind at 1, get_fs. simpl.
  destruct (posFields (ps_fs ps) !! pos) as [fld|]; [|apply IH].
  destruct (pos <? Z.of_nat (length (args (ps_fs ps)))); [|apply IH].
  destruct (pos <? 0); [reflexivity|].
  destruct (setFieldValue PD PF (PosType fld) _); [|reflexivity].
  unfold bind, store_to. simpl. rewrite IH. reflexivity.
Qed.

Lemma Parse_fs_after_scan order toks ps ps1 :
  scan PD toks (parse_reset ps) = (ps1, ROk tt) ->
  ps_fs (Parse PD PF order toks ps).1 = ps_fs ps1.
Proof.
  intros E. rewrite (Parse_unfold PD PF order toks ps), E.
  pose proof (bind_positionals_fs order ps1) as Hb.
  destruct (bind_positionals PD PF order ps1) as [ps2 [[]|e|]]; simpl in *; exact Hb.
Qed.

End PlainArgs.

(** X3: When every token of [pre] is a plain argument (no leading "-", or "-"
    itself), [Parse] of [pre ++ "--" :: post] leaves [pre ++ post] as its
    arguments and no unknown flags. [Parse] of [pre] alone leaves [pre]. *)
Theorem parse_plain_args (PD : string -> Z + string) (PF : string -> Z -> Z + conv_error)
    (order : list Z) (pre post : list string) (ps : PState) :
  Forall (fun t => plain_arg t = true) pre ->
  args (ps_fs (Parse PD PF order (pre ++ "--" :: post) ps).1) = pre ++ post
  /\ unknownFlags (ps_fs (Parse PD PF order (pre ++ "--" :: post) ps).1) = []
  /\ args (ps_fs (Parse PD PF order pre ps).1) = pre
  /\ unknownFlags (ps_fs (Parse PD PF order pre ps).1) = [].
Proof.
  intros H.
  assert (E1 := scan_plain PD pre ("--" :: post) (parse_reset ps) H).
  assert (E2 := scan_plain PD pre [] (parse_reset ps) H). rewrite app_nil_r in E2.
  simpl in E1, E2. unfold modify_fs in E1. simpl in E1.
  rewrite (Parse_fs_after_scan PD PF order _ ps _ E1), (Parse_fs_after_scan PD PF order _ ps _ E2).
  destruct ps as [[] st]. simpl. repeat split.
Qed.

Section Kept.

Context (P : FlagSet -> Prop) (Q : error -> Prop).

Lemma kept_bind {A B} (m : M A) (k : A -> M B) :
  kept P Q m -> (forall x, kept P Q (k x)) -> kept P Q (bind m k).
Proof.
  intros Hm Hk ps Hp. unfold bind. specialize (Hm ps Hp).
  destruct (m ps) as [ps' [x|e|]]; simpl in *; [apply Hk; tauto | tauto | tauto].
Qed.

Lemma kept_ret {A} (x : A) : kept P Q (ret x).
Proof. intros ps Hp. split; [exact Hp | exact I]. Qed.

Lemma kept_panic {A} : kept (A:=A) P Q panic.
Proof. intros ps Hp. split; [exact Hp | exact I]. Qed.

Lemma kept_get_fs : kept P Q get_fs.
Proof. intros ps Hp. split; [exact Hp | exact I]. Qed.

Lemma kept_store_to a v : kept P Q (store_to a v).
Proof. intros ps Hp. split; [exact Hp | exact I]. Qed.

Lemma kept_throw {A} e : Q e -> kept (A:=A) P Q (throw e).
Proof. intros H ps Hp. split; [exact Hp | exact H]. Qed.

Lemma kept_modify_fs g : (forall f, P f -> P (g f)) -> kept P Q (modify_fs g).
Proof. intros H ps Hp. split; [apply H, Hp | exact I]. Qed.

Lemma kept_SetValue PD v x : kept P Q (SetValue PD v x).
Proof.
  unfold SetValue. destruct (value_set PD (vkind v) x);
    [apply kept_bind; [apply kept_store_to | intros; apply kept_ret] | apply kept_ret].
Qed.

End Kept.

Ltac kp :=
  repeat match goal with
  | |- kept _ _ (bind _ _) => apply kept_bind; [| intros ?]
  | |- kept _ _ (ret _) => apply kept_ret
  | |- kept _ _ panic => apply kept_panic
  | |- kept _ _ get_fs => apply kept_get_fs
  | |- kept _ _ (store_to _ _) => apply kept_store_to
  | |- kept _ _ (throw _) => apply kept_throw
  | |- kept _ _ (modify_fs _) => apply kept_modify_fs; intros ? ?
  | |- kept _ _ (SetValue _ _ _) => apply kept_SetValue
  | |- kept _ _ (match ?x with _ => _ end) => destruct x eqn:?
  | |- kept _ _ (if ?x then _ else _) => destruct x eqn:?
  | |- kept _ _ (let '(_, _) := ?x in _) => destruct x eqn:?
  end.

Section ParseKept.

Context (PD : string -> Z + string) (PF : string -> Z -> Z + conv_error).

Context (P : FlagSet -> Prop).

Hypothesis P_args : forall l f, P f -> P (set_args l f).

Hypothesis P_unknown : forall l f, P f -> P (set_unknownFlags l f).

Lemma parseLongFlag_kept name0 here : kept P shape_ok (parseLongFlag PD name0 here).
Proof. unfold parseLongFlag. kp; try reflexivity; auto. Qed.

Lemma short_loop_kept rs here : kept P shape_ok (short_loop PD rs here).
Proof.
  induction rs as [|r rs IH]; simpl; kp; auto;
    (unfold shape_ok; simpl; destruct (encode_rune r); reflexivity).
Qed.

Lemma scan_kept toks : kept P shape_ok (scan PD toks).
Proof.
  remember (length toks) as n eqn:Hn. revert toks Hn.
  induction n as [n IH] using lt_wf_ind. intros toks Hn.
  destruct toks as [|arg rest]; simpl; kp; auto;
    try apply parseLongFlag_kept; try apply short_loop_kept;
    (eapply IH; [| reflexivity]; simpl in *; lia).
Qed.

Lemma bind_positionals_kept order : kept P shape_ok (bind_positionals PD PF order).
Proof.
  induction order as [|pos order IH]; simpl; kp; auto.
  unfold shape_ok. simpl. apply Z.leb_le. apply Z.ltb_ge. assumption.
Qed.

End ParseKept.

(** X4: After any [Parse] the flag set is marked parsed, and its name and
    registered schema are unchanged. Every error it returns is an
    unknown-flag, missing-value or invalid-value error on a token starting
    with "-", or a positional error at a non-negative position. *)
Theorem parse_outcome_shape (PD : string -> Z + string) (PF : string -> Z -> Z + conv_error)
    (order : list Z) (toks : list string) (ps : PState) :
  let r := Parse PD PF order toks ps in
  parsed (ps_fs r.1) = true
  /\ name (ps_fs r.1) = name (ps_fs ps)
  /\ schema (ps_fs r.1) = schema (ps_fs ps)
  /\ match r.2 with RErr e => parse_error_shape e = true | _ => True end.
Proof.
  set (P := fun f => parsed f = true /\ name f = name (ps_fs ps) /\ schema f = schema (ps_fs ps)).
  assert (HA : forall l f, P f -> P (set_args l f)) by (intros l [] H; exact H).
  assert (HU : forall l f, P f -> P (set_unknownFlags l f)) by (intros l [] H; exact H).
  assert (H0 : P (ps_fs (parse_reset ps))) by (destruct ps as [[] st]; repeat split).
  simpl. rewrite Parse_unfold.
  destruct (scan_kept PD P HA HU toks _ H0) as [H1 E1].
  destruct (scan PD toks (parse_reset ps)) as [ps1 [[]|e|]]; simpl in H1, E1;
    [| destruct H1 as (? & ? & ?); auto | destruct H1 as (? & ? & ?); auto].
  destruct (bind_positionals_kept PD PF P order _ H1) as [H2 E2].
  destruct (bind_positionals PD PF order ps1) as [ps2 [[]|e|]]; simpl in H2, E2;
    destruct H2 as (? & ? & ?); auto.
Qed.

Lemma foldl_max_spec (l : list Z) (m : Z) :
  let r := foldl (fun m pos => if m <? pos then pos else m) m l in
  m <= r /\ (forall p, In p l -> p <= r) /\ (r = m \/ In r l).
Proof.
  revert m. induction l as [|x l IH]; intros m; simpl.
  - split; [lia|]. split; [tauto|left; reflexivity].
  - destruct (Z.ltb_spec m x) as [Hlt|Hge];
      destruct (IH (if m <? x then x else m)) as (H1 & H2 & H3);
      [rewrite (proj2 (Z.ltb_lt _ _) Hlt) in H1, H2, H3 | rewrite (proj2 (Z.ltb_ge _ _) Hge) in H1, H2, H3].
    + split; [lia|]. split.
      * intros p [<-|Hp]; [lia|auto].
      * destruct H3 as [->|H3]; right; [left|right]; auto.
    + split; [lia|]. split.
      * intros p [<-|Hp]; [lia|auto].
      * destruct H3 as [->|H3]; [left; reflexivity|right; right; auto].
Qed.

Lemma maxPos_spec f :
  -1 <= maxPos f
  /\ (forall p fld, f.(posFields) !! p = Some fld -> p <= maxPos f)
  /\ (maxPos f = -1 \/ is_Some (f.(posFields) !! maxPos f)).
Proof.
  destruct (foldl_max_spec (map fst (map_to_list f.(posFields))) (-1)) as (H1 & H2 & H3).
  unfold maxPos. split; [exact H1|]. split.
  - intros p fld Hp. apply H2. apply in_map_iff. exists (p, fld). split; [reflexivity|].
    apply list_elem_of_In, elem_of_map_to_list. exact Hp.
  - destruct H3 as [H3|H3]; [left; exact H3|right].
    apply in_map_iff in H3. destruct H3 as [[k fld] [Hk Hin]]. simpl in Hk. rewrite Hk in Hin.
    apply list_elem_of_In, elem_of_map_to_list in Hin. eauto.
Qed.

Lemma size_posFields_0 f : Nat.eqb (size f.(posFields)) 0 = true <-> forall p, f.(posFields) !! p = None.
Proof.
  rewrite Nat.eqb_eq, map_size_empty_iff. split.
  - intros -> p. apply lookup_empty.
  - intros H. apply map_eq. intros p. rewrite H, lookup_empty. reflexivity.
Qed.

(** X8: [PositionalCount] is non-negative and exceeds every registered position.
    It is 0, or one more than a registered position. It is 0 exactly when
    no non-negative position is registered. *)
Theorem positional_count_bounds (f : FlagSet) :
  0 <= PositionalCount f
  /\ (forall p fld, f.(posFields) !! p = Some fld -> p < PositionalCount f)
  /\ (PositionalCount f = 0 \/ is_Some (f.(posFields) !! (PositionalCount f - 1)))
  /\ (PositionalCount f = 0 <-> forall p fld, f.(posFields) !! p = Some fld -> p < 0).
Proof.
  destruct (maxPos_spec f) as (H1 & H2 & H3).
  unfold PositionalCount. destruct (Nat.eqb (size (posFields f)) 0) eqn:E.
  - rewrite size_posFields_0 in E.
    split; [lia|]. split; [intros p fld Hp; rewrite E in Hp; discriminate|].
    split; [left; reflexivity|]. split; [intros _ p fld Hp; rewrite E in Hp; discriminate|reflexivity].
  - split; [lia|]. split; [intros p fld Hp; specialize (H2 p fld Hp); lia|].
    split.
    + destruct H3 as [H3|H3]; [left; lia|right; replace (maxPos f + 1 - 1) with (maxPos f) by lia; exact H3].
    + split.
      * intros H p fld Hp. specialize (H2 p fld Hp). lia.
      * intros H. destruct H3 as [H3|[fld H3]]; [lia|]. specialize (H _ _ H3). lia.
Qed.

Lemma omap_seq_elem (m : gmap Z PositionalField) (n : nat) fld :
  fld ∈ omap (fun i => m !! i) (map Z.of_nat (seq 0 n))
  <-> exists p, 0 <= p < Z.of_nat n /\ m !! p = Some fld.
Proof.
  rewrite list_elem_of_omap. split.
  - intros (i & Hi & Hm). apply list_elem_of_In, in_map_iff in Hi.
    destruct Hi as (k & <- & Hk). apply in_seq in Hk. exists (Z.of_nat k). split; [lia|exact Hm].
  - intros (p & Hp & Hm). exists p. split; [|exact Hm].
    apply list_elem_of_In, in_map_iff. exists (Z.to_nat p). split; [lia|]. apply in_seq. lia.
Qed.

Lemma omap_length_le {A B} (g : A -> option B) (l : list A) : (length (omap g l) <= length l)%nat.
Proof. induction l as [|x l IH]; cbn; [lia|]. destruct (g x); cbn; lia. Qed.

Lemma omap_length_full {A B} (g : A -> option B) (l : list A) :
  length (omap g l) = length l <-> forall x, In x l -> is_Some (g x).
Proof.
  induction l as [|x l IH]; cbn; [split; [tauto|reflexivity]|].
  pose proof (omap_length_le g l) as Hle.
  destruct (g x) eqn:E; cbn; split.
  - intros H y [<-|Hy]; [rewrite E; eauto|apply IH; [lia|exact Hy]].
  - intros H. f_equal. apply IH. auto.
  - lia.
  - intros H. destruct (H x (or_introl eq_refl)) as [b Hb]. congruence.
Qed.

(** X9: [GetPositionalFields] lists exactly the fields registered at
    non-negative positions. Its length equals [PositionalCount] exactly when
    the positions [0 .. PositionalCount-1] have no gap. *)
Theorem positional_fields_listing (f : FlagSet) (fld : PositionalField) :
  (fld ∈ GetPositionalFields f <-> exists p, 0 <= p /\ f.(posFields) !! p = Some fld)
  /\ (length (GetPositionalFields f) = Z.to_nat (PositionalCount f)
      <-> forall i, 0 <= i < PositionalCount f -> is_Some (f.(posFields) !! i)).
Proof.
  destruct (maxPos_spec f) as (H1 & H2 & H3).
  unfold GetPositionalFields, PositionalCount. destruct (Nat.eqb (size (posFields f)) 0) eqn:E.
  - rewrite size_posFields_0 in E. split.
    + split; [intros Hin; apply elem_of_nil in Hin; contradiction|intros (p & _ & Hp); rewrite E in Hp; discriminate].
    + simpl. split; [intros _ i Hi; lia|reflexivity].
  - split.
    + rewrite omap_seq_elem. split.
      * intros (p & Hp & Hm). exists p. split; [lia|exact Hm].
      * intros (p & Hp & Hm). exists p. split; [|exact Hm]. specialize (H2 p fld Hm). lia.
    + set (N := Z.to_nat (maxPos f + 1)).
      replace N with (length (map Z.of_nat (seq 0 N))) at 2 by (rewrite length_map, length_seq; reflexivity).
      rewrite omap_length_full. subst N.
      split.
      * intros H i Hi. apply H. apply in_map_iff. exists (Z.to_nat i). split; [lia|]. apply in_seq. lia.
      * intros H x Hx. apply in_map_iff in Hx. destruct Hx as (k & <- & Hk). apply in_seq in Hk.
        apply H. lia.
Qed.

Lemma StronglySorted_seq_Z a n : StronglySorted Z.lt (map Z.of_nat (seq a n)).
Proof.
  revert a. induction n as [|n IH]; intros a; simpl; constructor; [apply IH|].
  apply Forall_forall. intros x Hx. apply list_elem_of_In, in_map_iff in Hx. destruct Hx as (k & <- & Hk).
  apply in_seq in Hk. lia.
Qed.

Lemma StronglySorted_filter_Z (P : Z -> Prop) `{!forall x, Decision (P x)} l :
  StronglySorted Z.lt l -> StronglySorted Z.lt (filter P l).
Proof.
  induction 1 as [|x l _ IH Hx]; [constructor|].
  rewrite filter_cons. case_decide; [constructor; [exact IH|]|exact IH].
  apply Forall_forall. intros y Hy. apply list_elem_of_filter in Hy.
  eapply Forall_forall in Hx; [exact Hx|]. tauto.
Qed.

Lemma omap_filter_is_Some {A B} (g : A -> option B) (l : list A) :
  omap g (filter (fun x => is_Some (g x)) l) = omap g l.
Proof.
  induction l as [|x l IH]; [reflexivity|]. rewrite filter_cons. case_decide as H.
  - cbn. destruct (g x); [rewrite IH; reflexivity|destruct H; discriminate].
  - cbn. destruct (g x); [exfalso; apply H; eauto|exact IH].
Qed.

(** X10: [GetPositionalFields] lists the fields in strictly increasing order of
    position: it is the lookup of a strictly increasing list of exactly the
    registered non-negative positions. *)
Theorem positional_fields_order (f : FlagSet) :
  exists ks, StronglySorted Z.lt ks
    /\ (forall p, In p ks <-> 0 <= p /\ is_Some (f.(posFields) !! p))
    /\ GetPositionalFields f = omap (fun p => f.(posFields) !! p) ks
    /\ length (GetPositionalFields f) = length ks.
Proof.
  destruct (maxPos_spec f) as (H1 & H2 & H3).
  unfold GetPositionalFields. destruct (Nat.eqb (size (posFields f)) 0) eqn:E.
  - rewrite size_posFields_0 in E. exists []. split; [constructor|]. split; [|split; reflexivity].
    intros p. split; [contradiction|intros [_ [x Hx]]; rewrite E in Hx; discriminate].
  - set (g := fun p => f.(posFields) !! p).
    exists (filter (fun p => is_Some (g p)) (map Z.of_nat (seq 0 (Z.to_nat (maxPos f + 1))))).
    split; [apply StronglySorted_filter_Z, StronglySorted_seq_Z|].
    split; [|split].
    + intros p. rewrite <- list_elem_of_In, list_elem_of_filter, list_elem_of_In, in_map_iff. split.
      * intros [Hs (k & <- & _)]. split; [lia|exact Hs].
      * intros [Hp [x Hx]]. split; [exists x; exact Hx|]. exists (Z.to_nat p). split; [lia|].
        apply in_seq. specialize (H2 p x Hx). lia.
    + rewrite omap_filter_is_Some. reflexivity.
    + rewrite <- (omap_filter_is_Some g). apply omap_length_full.
      intros x Hx. apply list_elem_of_In, list_elem_of_filter in Hx. tauto.
Qed.

(** X11: Registering a flag with [Var] and then storing its default always
    succeeds. The long name is then looked up to the new flag unless it is
    empty, and likewise the short rune unless it is 0. Every other name and
    rune, the positional fields and the arguments are unchanged. *)
Theorem register_flag (DS : Z -> string) (k : ValueKind) (p : nat) (nm : string) (short : Z)
    (usage : string) (x : Val) (ps : PState) :
  let fl := mkFlag nm short usage (mkValue k p) (value_string DS k (ps_store ps !! p)) in
  let r := (Var DS (mkValue k p) nm short usage ;;; store_to p x) ps in
  r.2 = ROk tt
  /\ ps_store r.1 = <[p := x]> (ps_store ps)
  /\ (forall n, Lookup (ps_fs r.1) n
               = if String.eqb n nm && negb (String.eqb nm "") then Some fl else Lookup (ps_fs ps) n)
  /\ (forall q, (ps_fs r.1).(shortMap) !! q
               = if (q =? short) && negb (short =? 0) then Some fl else (ps_fs ps).(shortMap) !! q)
  /\ (ps_fs r.1).(posFields) = (ps_fs ps).(posFields)
  /\ (ps_fs r.1).(args) = (ps_fs ps).(args).
Proof.
  destruct ps as [f st]. unfold Var, bind, get_store, store_to, modify_fs, ret, Lookup. simpl.
  destruct (String.eqb nm "") eqn:Hn; destruct (short =? 0) eqn:Hs; simpl;
    (split; [reflexivity|]); (split; [reflexivity|]);
    (split; [intros n; destruct (String.eqb_spec n nm) as [->|Hne]; simpl;
             rewrite ?lookup_insert_eq, ?lookup_insert_ne by congruence; reflexivity|]);
    (split; [intros q; destruct (Z.eqb_spec q short) as [->|Hne]; simpl;
             rewrite ?lookup_insert_eq, ?lookup_insert_ne by congruence; reflexivity|]);
    split; reflexivity.
Qed.

(** X12: Removing a path with the same words as a newly dispatched path gives
    back the dispatcher as it was before, when that path was not yet
    registered. *)
Theorem remove_undoes_dispatch (d : Dispatcher) (p p' : string) (c : Command) :
  HasCommand d p = false -> Fields p' = Fields p ->
  Remove (Dispatch d p c) p' = d.
Proof.
  intros H Hf. unfold Remove, Dispatch, HasCommand, normalizeCommandPath in *. rewrite Hf. simpl.
  destruct d as [cmds nm]. simpl in *. f_equal.
  apply delete_insert_id. destruct (cmds !! Join (Fields p) " "); [discriminate|reflexivity].
Qed.

Lemma findCommand_loop_spec d args0 i :
  (i <= length args0)%nat ->
  match findCommand_loop d args0 i with
  | (Some e, rest) => exists k, (1 <= k <= i)%nat
      /\ d.(commands) !! normalizeCommandPath (Join (firstn k args0) " ") = Some e
      /\ rest = drop k args0
      /\ forall j, (k < j <= i)%nat -> d.(commands) !! normalizeCommandPath (Join (firstn j args0) " ") = None
  | (None, rest) => rest = args0
      /\ forall j, (1 <= j <= i)%nat -> d.(commands) !! normalizeCommandPath (Join (firstn j args0) " ") = None
  end.
Proof.
  induction i as [|i IH]; intros Hi; simpl.
  - split; [reflexivity|intros j Hj; lia].
  - destruct (commands d !! normalizeCommandPath (Join (firstn (S i) args0) " ")) as [e|] eqn:E.
    + exists (S i). split; [lia|]. split; [exact E|]. split; [reflexivity|intros j Hj; lia].
    + specialize (IH ltac:(lia)). destruct (findCommand_loop d args0 i) as [[e|] rest].
      * destruct IH as (k & Hk & Hl & Hr & Hn). exists k. split; [lia|]. split; [exact Hl|].
        split; [exact Hr|]. intros j Hj. destruct (Nat.eq_dec j (S i)) as [->|]; [exact E|apply Hn; lia].
      * destruct IH as [Hr Hn]. split; [exact Hr|]. intros j Hj.
        destruct (Nat.eq_dec j (S i)) as [->|]; [exact E|apply Hn; lia].
Qed.

(** X13: [findCommand] returns the entry of the longest non-empty prefix of the
    arguments that is a registered command, with the arguments after it.
    When no prefix is registered it returns no entry and all the arguments. *)
Theorem findCommand_longest (d : Dispatcher) (args0 : list string) :
  match findCommand d args0 with
  | (Some e, rest) => exists k, (1 <= k <= length args0)%nat
      /\ args0 = firstn k args0 ++ rest
      /\ GetCommandEntry d (Join (firstn k args0) " ") = Some e
      /\ forall j, (k < j <= length args0)%nat -> GetCommandEntry d (Join (firstn j args0) " ") = None
  | (None, rest) => rest = args0
      /\ forall j, (1 <= j <= length args0)%nat -> GetCommandEntry d (Join (firstn j args0) " ") = None
  end.
Proof.
  unfold findCommand, GetCommandEntry.
  pose proof (findCommand_loop_spec d args0 (length args0) (le_n _)) as H.
  destruct (findCommand_loop d args0 (length args0)) as [[e|] rest]; [|exact H].
  destruct H as (k & Hk & Hl & Hr & Hn). exists k. split; [exact Hk|]. split; [|auto].
  rewrite Hr. symmetry. apply firstn_skipn.
Qed.

(** X14: On an argument vector with no token starting with "-",
    [findCommandWithInterspersedFlags] returns the same as [findCommand]. *)
Theorem findCommand_agrees_without_flags (d : Dispatcher) (args0 : list string) :
  Forall (fun w => HasPrefix w "-" = false) args0 ->
  findCommandWithInterspersedFlags d args0 = findCommand d args0.
Proof.
  intros H. unfold findCommandWithInterspersedFlags, findCommand.
  rewrite (collect_plain d args0 H 0 [] [] []). simpl.
  assert (G : forall j, (j <= length args0)%nat ->
    try_prefixes d args0 args0 (seq 0 (length args0)) [] j = findCommand_loop d args0 j).
  { induction j as [|j IH]; intros Hj; [reflexivity|]. simpl.
    destruct (commands d !! normalizeCommandPath (Join (firstn (S j) args0) " ")) as [e|]; [|apply IH; lia].
    rewrite nth_error_seq by lia. simpl. f_equal.
    destruct (Nat.ltb_spec j (length args0)); [|lia].
    destruct (Z.leb_spec 0 (Z.of_nat j)); [|lia].
    destruct (Z.ltb_spec (Z.of_nat j + 1) (Z.of_nat (length args0))); simpl.
    - f_equal. lia.
    - symmetry. apply drop_ge. lia. }
  apply G. lia.
Qed.

Lemma sort_completions_spec cs :
  sort_completions cs ≡ₚ cs
  /\ Sorted (fun c1 c2 => String.le c1.(cValue) c2.(cValue)) (sort_completions cs).
Proof.
  unfold sort_completions. split; [apply merge_sort_Permutation|].
  apply Sorted_merge_sort. intros c1 c2. apply String.le_total.
Qed.

(** X15: [GetCommandCompletions] lists one completion for each registered path
    that starts with the normalised prefix, carrying the command's usage and
    [IsBool = false]. The list is sorted by value and has no duplicate value. *)
Theorem command_completions_spec (d : Dispatcher) (prefix : string) (cp : Completion) :
  (cp ∈ GetCommandCompletions d prefix
   <-> exists e, d.(commands) !! cp.(cValue) = Some e
        /\ HasPrefix cp.(cValue) (normalizeCommandPath prefix) = true
        /\ cp = mkCompletion cp.(cValue) e.(ce_Usage) false)
  /\ Sorted (fun c1 c2 => String.le c1.(cValue) c2.(cValue)) (GetCommandCompletions d prefix)
  /\ NoDup (map cValue (GetCommandCompletions d prefix)).
Proof.
  unfold GetCommandCompletions.
  destruct (sort_completions_spec (omap (fun kv : string * CommandEntry =>
             if HasPrefix kv.1 (normalizeCommandPath prefix)
             then Some (mkCompletion kv.1 kv.2.(ce_Usage) false) else None)
          (map_to_list d.(commands)))) as [Hp Hs].
  split; [|split; [exact Hs|]].
  - rewrite Hp, list_elem_of_omap. split.
    + intros ([k e] & Hin & He). apply elem_of_map_to_list in Hin. simpl in He.
      destruct (HasPrefix k (normalizeCommandPath prefix)) eqn:Hk; [|discriminate].
      injection He as <-. simpl. exists e. auto.
    + intros (e & He & Hk & Hc). exists (cValue cp, e). split; [apply elem_of_map_to_list; exact He|].
      simpl. rewrite Hk. rewrite Hc at 2. reflexivity.
  - rewrite (Permutation_map cValue Hp).
    assert (G : forall l : list (string * CommandEntry), NoDup l.*1 ->
      NoDup (map cValue (omap (fun kv : string * CommandEntry =>
             if HasPrefix kv.1 (normalizeCommandPath prefix)
             then Some (mkCompletion kv.1 kv.2.(ce_Usage) false) else None) l))).
    { induction l as [|[k e] l IH]; cbn -[HasPrefix]; intros Hn; [constructor|].
      apply NoDup_cons in Hn as [Hk Hn].
      destruct (HasPrefix k (normalizeCommandPath prefix)); cbn -[HasPrefix]; [|apply IH, Hn].
      constructor; [|apply IH, Hn].
      intros Hin. apply Hk. apply list_elem_of_In in Hin. apply in_map_iff in Hin.
      destruct Hin as (c0 & Hc0 & Hin). apply list_elem_of_In, list_elem_of_omap in Hin.
      destruct Hin as ([k' e'] & Hin & He). simpl in He.
      destruct (HasPrefix k' (normalizeCommandPath prefix)); [|discriminate].
      injection He as <-. simpl in Hc0. subst k'. apply list_elem_of_fmap. exists (k, e'). auto. }
    apply G, NoDup_fst_map_to_list.
Qed.

(** X16: For a prefix starting with "--", [GetFlagCompletions] lists one
    completion "--name" for each registered non-empty long name that starts
    with the rest of the prefix. The list is sorted by value and has no
    duplicate value. *)
Theorem flag_completions_long (f : FlagSet) (prefix : string) (cp : Completion) :
  HasPrefix prefix "--" = true ->
  (cp ∈ GetFlagCompletions f prefix
   <-> exists nm fl, f.(flags) !! nm = Some fl /\ nm <> ""
        /\ HasPrefix nm (sdrop 2 prefix) = true
        /\ cp = mkCompletion ("--" +++ nm) fl.(Usage) (IsBool fl.(FlagValue)))
  /\ Sorted (fun c1 c2 => String.le c1.(cValue) c2.(cValue)) (GetFlagCompletions f prefix)
  /\ NoDup (map cValue (GetFlagCompletions f prefix)).
Proof.
  intros Hp. unfold GetFlagCompletions. rewrite Hp.
  set (g := fun kv : string * Flag =>
              if negb (String.eqb kv.1 "") && HasPrefix kv.1 (sdrop 2 prefix)
              then Some (mkCompletion ("--" +++ kv.1) kv.2.(Usage) (IsBool kv.2.(FlagValue))) else None).
  destruct (sort_completions_spec (omap g (map_to_list f.(flags)))) as [HP HS].
  split; [|split; [exact HS|]].
  - rewrite HP, list_elem_of_omap. split.
    + intros ([k fl] & Hin & He). apply elem_of_map_to_list in Hin. unfold g in He. simpl in He.
      destruct (String.eqb_spec k ""); [discriminate|].
      destruct (HasPrefix k (sdrop 2 prefix)) eqn:Hk; [|discriminate].
      injection He as <-. exists k, fl. auto.
    + intros (nm & fl & Hl & Hn & Hk & ->). exists (nm, fl).
      split; [apply elem_of_map_to_list; exact Hl|].
      unfold g. simpl. destruct (String.eqb_spec nm ""); [contradiction|]. rewrite Hk. reflexivity.
  - rewrite (Permutation_map cValue HP).
    assert (G : forall l : list (string * Flag), NoDup l.*1 -> NoDup (map cValue (omap g l))).
    { induction l as [|[k fl] l IH]; cbn -[HasPrefix g]; intros Hn; [constructor|].
      apply NoDup_cons in Hn as [Hk Hn].
      destruct (g (k, fl)) as [c0|] eqn:Eg; cbn -[HasPrefix g]; [|apply IH, Hn].
      constructor; [|apply IH, Hn].
      assert (Hc0 : cValue c0 = "--" +++ k).
      { unfold g in Eg. simpl in Eg. destruct (_ && _); [|discriminate]. injection Eg as <-. reflexivity. }
      rewrite Hc0. intros Hin. apply Hk. apply list_elem_of_In in Hin. apply in_map_iff in Hin.
      destruct Hin as (c1 & Hc1 & Hin). apply list_elem_of_In, list_elem_of_omap in Hin.
      destruct Hin as ([k' fl'] & Hin & He). unfold g in He. simpl in He.
      destruct (_ && _); [|discriminate]. injection He as <-. simpl in Hc1.
      apply (inj (String.app "--")) in Hc1. subst k'.
      apply list_elem_of_fmap. exists (k, fl'). auto. }
    apply G, NoDup_fst_map_to_list.
Qed.

Lemma enum_byte_ne (base n q : Z) :
  0 <= q < n -> (forall k, (k < Z.to_nat n)%nat -> byte_of (Z.lor base (Z.of_nat k)) <> "-"%char) ->
  byte_of (Z.lor base q) <> "-"%char.
Proof. intros Hq H. replace q with (Z.of_nat (Z.to_nat q)) by lia. apply H. lia. Qed.

Lemma encode_rune_lead (r : Z) :
  128 <= r -> exists b1 b2 rest, encode_rune r = String b1 (String b2 rest) /\ b1 <> "-"%char.
Proof.
  intros Hr. unfold encode_rune.
  destruct (Z.leb_spec 0 r); [|lia]. destruct (Z.ltb_spec r 128); [lia|]. simpl.
  destruct (Z.ltb_spec r 2048).
  - do 3 eexists. split; [reflexivity|].
    apply (enum_byte_ne 192 32).
    + rewrite Z.shiftr_div_pow2 by lia. split; [apply Z.div_pos; lia|apply Z.div_lt_upper_bound; lia].
    + intros k Hk. do 32 (destruct k as [|k]; [vm_compute; discriminate|]). lia.
  - set (r' := if (r <? 0) || inr_ 55296 r 57343 || (1114111 <? r) then RuneError else r).
    assert (Hr' : 0 <= r' <= 1114111).
    { unfold r', inr_, RuneError. destruct (Z.ltb_spec r 0); [lia|].
      destruct (Z.ltb_spec 1114111 r); destruct (Z.leb_spec 55296 r); destruct (Z.leb_spec r 57343); simpl; lia. }
    destruct (Z.ltb_spec r' 65536).
    + do 3 eexists. split; [reflexivity|].
      apply (enum_byte_ne 224 16).
      * rewrite Z.shiftr_div_pow2 by lia. split; [apply Z.div_pos; lia|apply Z.div_lt_upper_bound; lia].
      * intros k Hk. do 16 (destruct k as [|k]; [vm_compute; discriminate|]). lia.
    + do 3 eexists. split; [reflexivity|].
      apply (enum_byte_ne 240 5).
      * rewrite Z.shiftr_div_pow2 by lia. split; [apply Z.div_pos; lia|apply Z.div_lt_upper_bound; lia].
      * intros k Hk. do 5 (destruct k as [|k]; [vm_compute; discriminate|]). lia.
Qed.

(** X17: [GetFlagCompletions] returns nothing for a non-empty prefix not starting
    with "-", and for a prefix of more than two bytes that starts with "-"
    but not "--". It also returns nothing for "-" followed by a registered
    non-ASCII short rune, since it looks up only the byte after "-". *)
Theorem flag_completions_none (f : FlagSet) (prefix : string) (r : Z) (fl : Flag) :
  (prefix <> "" -> HasPrefix prefix "-" = false -> GetFlagCompletions f prefix = [])
  /\ (HasPrefix prefix "-" = true -> HasPrefix prefix "--" = false -> (2 < String.length prefix)%nat ->
      GetFlagCompletions f prefix = [])
  /\ (f.(shortMap) !! r = Some fl -> 128 <= r -> GetFlagCompletions f ("-" +++ encode_rune r) = []).
Proof.
  assert (B : forall prefix, HasPrefix prefix "-" = true -> HasPrefix prefix "--" = false ->
            (2 < String.length prefix)%nat -> GetFlagCompletions f prefix = []).
  { intros p H1 H2 H3. unfold GetFlagCompletions. rewrite H2, H1.
    destruct (Nat.leb_spec (String.length p) 2); [lia|]. simpl.
    destruct (String.eqb_spec p ""); [subst; simpl in H3; lia|reflexivity]. }
  split; [|split; [exact (B prefix)|]].
  - intros Hne H1. unfold GetFlagCompletions.
    assert (H2 : HasPrefix prefix "--" = false).
    { destruct (HasPrefix prefix "--") eqn:E; [|reflexivity].
      apply HasPrefix_spec in E as [x ->]. discriminate. }
    rewrite H2, H1. simpl. destruct (String.eqb_spec prefix ""); [contradiction|reflexivity].
  - intros _ Hr. destruct (encode_rune_lead r Hr) as (b1 & b2 & rest & E & Hb).
    rewrite E. apply B.
    + apply HasPrefix_spec. eexists; reflexivity.
    + destruct (HasPrefix _ "--") eqn:H; [|reflexivity].
      apply HasPrefix_spec in H as [x Hx]. injection Hx. congruence.
    + simpl. lia.
Qed.

Section ShowHelpProps.
Local Open Scope nat_scope.

Lemma length_swap_if l i j : length (swap_if l i j) = length l.
Proof.
  unfold swap_if. destruct (l !! i), (l !! j); try reflexivity.
  destruct (String.ltb _ _); [rewrite !length_insert|]; reflexivity.
Qed.

Lemma swap_perm (l : list string) (i j : nat) (a b : string) :
  i < j -> l !! i = Some a -> l !! j = Some b -> <[i:=b]> (<[j:=a]> l) ≡ₚ l.
Proof.
  intros Hij Hi Hj.
  assert (Hl : l = take i l ++ a :: take (j - S i) (drop (S i) l) ++ b :: drop (S j) l).
  { rewrite <- (take_drop_middle l i a Hi) at 1. f_equal. f_equal.
    assert (Hj' : drop (S i) l !! (j - S i) = Some b) by (rewrite lookup_drop; replace (S i + (j - S i)) with j by lia; exact Hj).
    rewrite <- (take_drop_middle _ _ _ Hj') at 1. f_equal. f_equal. rewrite drop_drop. f_equal. lia. }
  rewrite Hl at 1.
  rewrite (insert_app_r_alt _ _ j) by (rewrite length_take; lia).
  rewrite length_take, Nat.min_l by (apply lookup_lt_Some in Hj; lia).
  replace (j - i) with (S (j - S i)) by lia. simpl.
  rewrite (insert_app_r_alt _ _ (j - S i)) by (rewrite length_take; apply lookup_lt_Some in Hj; rewrite length_drop; lia).
  rewrite length_take, length_drop, Nat.min_l by (apply lookup_lt_Some in Hj; lia).
  rewrite Nat.sub_diag. simpl.
  rewrite (insert_app_r_alt _ _ i) by (rewrite length_take; lia).
  rewrite length_take, Nat.min_l by (apply lookup_lt_Some in Hj; lia).
  rewrite Nat.sub_diag. simpl.
  rewrite Hl at 4.
  apply Permutation_app_head.
  transitivity (b :: a :: take (j - S i) (drop (S i) l) ++ drop (S j) l);
    [constructor; symmetry; apply Permutation_middle|].
  transitivity (a :: b :: take (j - S i) (drop (S i) l) ++ drop (S j) l); [apply perm_swap|].
  constructor. apply Permutation_middle.
Qed.

Lemma ltb_false_le a b : String.ltb b a = false -> String.le a b.
Proof.
  unfold String.ltb, String.le, String.leb. rewrite (String.compare_antisym a b). intros H.
  destruct (String.compare b a); try discriminate; reflexivity.
Qed.

Lemma ltb_true_le a b : String.ltb b a = true -> String.le b a.
Proof.
  unfold String.ltb, String.le, String.leb. intros H.
  destruct (String.compare b a); try discriminate; reflexivity.
Qed.

Lemma swap_if_perm l i j : i < j -> swap_if l i j ≡ₚ l.
Proof.
  intros Hij. unfold swap_if. destruct (l !! i) eqn:Ei, (l !! j) eqn:Ej; try reflexivity.
  destruct (String.ltb _ _); [eapply swap_perm; eauto|reflexivity].
Qed.

Lemma swap_if_take l i j n : n <= i -> i < j -> take n (swap_if l i j) = take n l.
Proof.
  intros Hn Hij. unfold swap_if. destruct (l !! i), (l !! j); try reflexivity.
  destruct (String.ltb _ _); [|reflexivity]. rewrite !take_insert_ge by lia. reflexivity.
Qed.

Lemma swap_if_other l i j k : k <> i -> k <> j -> swap_if l i j !! k = l !! k.
Proof.
  intros Hi Hj. unfold swap_if. destruct (l !! i), (l !! j); try reflexivity.
  destruct (String.ltb _ _); [|reflexivity]. rewrite !list_lookup_insert_ne by lia. reflexivity.
Qed.

(** After [swap_if l i j] with [i < j], position [i] holds the smaller of the two
    entries, no larger than what it held before. *)
Lemma swap_if_ij l i j a :
  i < j -> l !! i = Some a ->
  exists a', swap_if l i j !! i = Some a' /\ String.le a' a
    /\ (forall b', swap_if l i j !! j = Some b' -> String.le a' b').
Proof.
  intros Hij Hi. unfold swap_if. rewrite Hi. destruct (l !! j) as [b|] eqn:Hj.
  - destruct (String.ltb b a) eqn:E.
    + exists b. rewrite list_lookup_insert_eq by (rewrite length_insert; apply lookup_lt_Some in Hi; lia).
      split; [reflexivity|]. split; [apply ltb_true_le; exact E|].
      intros b'. rewrite list_lookup_insert_ne, list_lookup_insert_eq by (try apply lookup_lt_Some in Hj; lia).
      intros [= <-]. apply ltb_true_le; exact E.
    + exists a. rewrite Hi. split; [reflexivity|]. split; [reflexivity|].
      rewrite Hj. intros b' [= <-]. apply ltb_false_le. exact E.
  - exists a. rewrite Hi. split; [reflexivity|]. split; [reflexivity|]. rewrite Hj. discriminate.
Qed.

Lemma inner_fold i c : forall s l,
  S i <= s -> inner_sorted l i s ->
  let l' := foldl (fun l j => swap_if l i j) l (seq s c) in
  l' ≡ₚ l /\ take i l' = take i l /\ inner_sorted l' i (s + c).
Proof.
  induction c as [|c IH]; intros s l Hs Hinv; simpl.
  - rewrite Nat.add_0_r. split; [reflexivity|]. split; [reflexivity|exact Hinv].
  - assert (Hstep : inner_sorted (swap_if l i s) i (S s)).
    { intros k x y Hk Hx Hy. destruct (l !! i) as [a|] eqn:Ha.
      - destruct (swap_if_ij l i s a ltac:(lia) Ha) as (a' & Ha' & Hle & Hj).
        rewrite Ha' in Hx. injection Hx as <-.
        destruct (Nat.eq_dec k s) as [->|Hne]; [apply Hj; exact Hy|].
        rewrite swap_if_other in Hy by lia.
        transitivity a; [exact Hle|]. apply (Hinv k); [lia|exact Ha|exact Hy].
      - unfold swap_if in Hx. rewrite Ha in Hx. rewrite Ha in Hx. discriminate. }
    destruct (IH (S s) (swap_if l i s) ltac:(lia) Hstep) as (H1 & H2 & H3).
    split; [rewrite H1; apply swap_if_perm; lia|].
    split; [rewrite H2; apply swap_if_take; lia|].
    replace (s + S c) with (S s + c) by lia. exact H3.
Qed.

Lemma outer_fold n : forall i l,
  outer_sorted l i ->
  let l' := foldl (fun l i => foldl (fun l j => swap_if l i j) l (seq (S i) (length l - S i)))
                  l (seq i n) in
  l' ≡ₚ l /\ outer_sorted l' (i + n).
Proof.
  induction n as [|n IH]; intros i l Hinv; simpl.
  - rewrite Nat.add_0_r. split; [reflexivity|exact Hinv].
  - set (l1 := foldl (fun l j => swap_if l i j) l (seq (S i) (length l - S i))).
    destruct (inner_fold i (length l - S i) (S i) l ltac:(lia)) as (H1 & H2 & H3).
    { intros k x y Hk. lia. }
    fold l1 in H1, H2, H3.
    assert (Hstep : outer_sorted l1 (S i)).
    { intros a b x y Ha Hab Hx Hy.
      assert (Hlen : length l1 = length l) by (apply Permutation_length; exact H1).
      destruct (Nat.eq_dec a i) as [->|Hai].
      - destruct (decide (b < length l)) as [Hb|Hb].
        + apply (H3 b); [lia|exact Hx|exact Hy].
        + apply lookup_lt_Some in Hy. lia.
      - assert (Hx' : l !! a = Some x).
        { rewrite <- (lookup_take_lt _ i) by lia. rewrite <- H2, lookup_take_lt by lia. exact Hx. }
        destruct (decide (b < i)) as [Hb|Hb].
        + assert (Hy' : l !! b = Some y).
          { rewrite <- (lookup_take_lt _ i) by lia. rewrite <- H2, lookup_take_lt by lia. exact Hy. }
          apply (Hinv a b); [lia|lia|exact Hx'|exact Hy'].
        + assert (Hd : drop i l1 ≡ₚ drop i l).
          { apply (Permutation_app_inv_l (take i l)). rewrite <- H2 at 1. rewrite !take_drop. exact H1. }
          assert (Hyin : y ∈ drop i l1).
          { apply list_elem_of_lookup. exists (b - i). rewrite lookup_drop.
            replace (i + (b - i)) with b by lia. exact Hy. }
          rewrite Hd in Hyin. apply list_elem_of_lookup in Hyin. destruct Hyin as (c & Hc).
          rewrite lookup_drop in Hc. apply (Hinv a (i + c)); [lia|lia|exact Hx'|exact Hc]. }
    destruct (IH (S i) l1 Hstep) as (H4 & H5).
    replace (length l - S i) with (length l1 - S i) in * by (rewrite (Permutation_length H1); reflexivity).
    split; [rewrite H4; exact H1|]. replace (i + S n) with (S i + n) by lia. exact H5.
Qed.

Lemma exchange_sort_spec l :
  exchange_sort l ≡ₚ l /\ outer_sorted (exchange_sort l) (length l).
Proof.
  unfold exchange_sort. destruct (outer_fold (length l) 0 l) as [H1 H2].
  { intros a b x y Ha. lia. }
  split; [exact H1|exact H2].
Qed.

Lemma lookup_sorted_StronglySorted l :
  (forall a b x y, a < b -> l !! a = Some x -> l !! b = Some y -> String.le x y) ->
  StronglySorted String.le l.
Proof.
  induction l as [|x t IH]; intros H; constructor.
  - apply IH. intros a b x' y Hab Ha Hb. apply (H (S a) (S b)); [lia|exact Ha|exact Hb].
  - apply Forall_forall. intros y Hy. apply list_elem_of_lookup in Hy. destruct Hy as [k Hk].
    apply (H 0 (S k)); [lia|reflexivity|exact Hk].
Qed.

Lemma exchange_sort_sorted l : StronglySorted String.le (exchange_sort l).
Proof.
  destruct (exchange_sort_spec l) as [Hp Hs]. apply lookup_sorted_StronglySorted.
  intros a b x y Hab Ha Hb. apply (Hs a b x y); [|exact Hab|exact Ha|exact Hb].
  apply lookup_lt_Some in Hb. rewrite (Permutation_length Hp) in Hb. lia.
Qed.

Lemma le_neq_ltb x y : String.le x y -> x <> y -> String.ltb x y = true.
Proof.
  unfold String.le, String.leb, String.ltb. intros H Hne.
  destruct (String.compare x y) eqn:E; try reflexivity; [|destruct H].
  apply String.compare_eq_iff in E. contradiction.
Qed.

Lemma StronglySorted_le_ltb l :
  NoDup l -> StronglySorted String.le l -> StronglySorted (fun a b => String.ltb a b = true) l.
Proof.
  intros Hnd Hs. induction Hs as [|x t _ IH Hx]; constructor.
  - apply IH. apply NoDup_cons in Hnd. tauto.
  - apply NoDup_cons in Hnd. destruct Hnd as [Hnin _].
    apply Forall_forall. intros y Hy. apply le_neq_ltb; [eapply Forall_forall in Hx; eauto|].
    intros <-. contradiction.
Qed.

Lemma exchange_sort_perm_eq l1 l2 : l1 ≡ₚ l2 -> exchange_sort l1 = exchange_sort l2.
Proof.
  intros Hp. apply (StronglySorted_unique String.le); [apply exchange_sort_sorted..|].
  rewrite (proj1 (exchange_sort_spec l1)), (proj1 (exchange_sort_spec l2)). exact Hp.
Qed.

Lemma maxLen_step m p : (if m <? String.length p then String.length p else m) = Nat.max m (String.length p).
Proof. destruct (Nat.ltb_spec m (String.length p)); lia. Qed.

Lemma maxLen_perm l1 l2 : l1 ≡ₚ l2 -> maxLen_of l1 = maxLen_of l2.
Proof.
  unfold maxLen_of. generalize 0. intros m Hp. revert m.
  induction Hp as [|x l1 l2 _ IH|x y l|l1 l2 l3 _ IH1 _ IH2]; intros m; simpl; rewrite ?maxLen_step.
  - reflexivity.
  - apply IH.
  - f_equal. lia.
  - rewrite IH1. apply IH2.
Qed.

(** X18: [showHelp] prints one line per registered path, and the paths appear in
    strictly increasing order. Its output does not depend on the order in
    which the command map is ranged over. *)
Theorem showHelp_sorted (d : Dispatcher) (order : list string) :
  order ≡ₚ map fst (map_to_list d.(commands)) ->
  (exists ps, StronglySorted (fun a b => String.ltb a b = true) ps
     /\ ps ≡ₚ map fst (map_to_list d.(commands))
     /\ showHelp d order =
          ["Usage: " +++ d.(dname) +++ " <command> [arguments]"; ""; "Available commands:"]
          ++ map (help_line d (maxLen_of (map fst (map_to_list d.(commands))))) ps
          ++ [""; "Use '<command> --help' for more information about a command."])
  /\ (forall order', order' ≡ₚ map fst (map_to_list d.(commands)) -> showHelp d order' = showHelp d order).
Proof.
  intros Hp. split.
  - exists (exchange_sort order). split; [|split].
    + apply StronglySorted_le_ltb; [|apply exchange_sort_sorted].
      rewrite (proj1 (exchange_sort_spec order)), Hp. apply NoDup_fst_map_to_list.
    + rewrite (proj1 (exchange_sort_spec order)). exact Hp.
    + unfold showHelp. rewrite (maxLen_perm _ _ Hp). reflexivity.
  - intros order' Hp'. unfold showHelp.
    rewrite (exchange_sort_perm_eq order' order), (maxLen_perm order' order) by (rewrite Hp, Hp'; reflexivity).
    reflexivity.
Qed.

End ShowHelpProps.

Lemma space_len_start t : (0 < space_len t)%nat -> exists t0 t', t = String t0 t' /\ start_byte (byteZ t0) = true.
Proof.
  destruct t as [|a r]; simpl; [lia|]. intros H. exists a, r. split; [reflexivity|].
  unfold start_byte. destruct (ascii_space (byteZ a)); [reflexivity|].
  destruct r as [|b r2]; [lia|]. destruct (space2 (byteZ a) (byteZ b)) eqn:E2.
  - unfold space2 in E2. apply andb_true_iff in E2. destruct E2 as [E _]. rewrite E. reflexivity.
  - destruct r2 as [|c r3]; [lia|]. destruct (space3 (byteZ a) (byteZ b) (byteZ c)) eqn:E3; [|lia].
    unfold space3 in E3. repeat rewrite orb_true_iff, ?andb_true_iff in E3. rewrite !Z.eqb_eq in E3.
    rewrite orb_true_iff. right. apply andb_true_iff. rewrite !Z.leb_le. lia.
Qed.

Lemma start_byte_facts b : start_byte b = true ->
  (b =? 133) = false /\ (b =? 160) = false /\ (b =? 154) = false /\ (b =? 128) = false
  /\ (b =? 129) = false /\ ((128 <=? b) && (b <=? 138)) = false /\ (b =? 168) = false
  /\ (b =? 169) = false /\ (b =? 175) = false /\ (b =? 159) = false.
Proof.
  unfold start_byte, ascii_space. intros H.
  repeat rewrite orb_true_iff, ?andb_true_iff in H. rewrite ?Z.eqb_eq, ?Z.leb_le in H.
  repeat split; try (apply Z.eqb_neq; lia).
  destruct (Z.leb_spec 128 b); [apply andb_false_iff; right; apply Z.leb_gt; lia|reflexivity].
Qed.

Lemma space_len_app u t :
  u <> EmptyString -> (t = EmptyString \/ (0 < space_len t)%nat) ->
  space_len (u +++ t) = space_len u.
Proof.
  intros Hu Ht. destruct Ht as [->|Ht].
  - rewrite sapp_nil_r. reflexivity.
  - destruct (space_len_start t Ht) as (t0 & t' & -> & Hs).
    destruct (start_byte_facts _ Hs) as (F1 & F2 & F3 & F4 & F5 & F6 & F7 & F8 & F9 & F10).
    destruct u as [|a [|b [|c u]]]; [congruence| | |reflexivity]; simpl.
    + destruct (ascii_space (byteZ a)); [reflexivity|].
      unfold space2. rewrite F1, F2, andb_false_r.
      destruct t' as [|c t'']; [reflexivity|].
      unfold space3. rewrite F3, F4, F5, !andb_false_r, !andb_false_l. reflexivity.
    + destruct (ascii_space (byteZ a)); [reflexivity|].
      destruct (space2 (byteZ a) (byteZ b)); [reflexivity|].
      unfold space3. rewrite F4, F6, F7, F8, F9, F10, !andb_false_r. reflexivity.
Qed.

Lemma str_drop_app i w t : (i <= String.length w)%nat -> str_drop i (w +++ t) = str_drop i w +++ t.
Proof.
  revert i. induction w as [|a w IH]; intros [|i] Hi; simpl in *; try reflexivity; [lia|].
  apply IH. lia.
Qed.

Lemma str_drop_nonempty i w : (i < String.length w)%nat -> str_drop i w <> EmptyString.
Proof.
  revert i. induction w as [|a w IH]; intros [|i] Hi; simpl in *; try lia; [discriminate|].
  apply IH. lia.
Qed.

Lemma mask_nonspace a r :
  space_len (String a r) = 0%nat -> space_mask (String a r) = (a, false) :: space_mask r.
Proof.
  simpl. destruct (ascii_space (byteZ a)); [discriminate|].
  destruct r as [|b r2]; [reflexivity|]. destruct (space2 (byteZ a) (byteZ b)); [discriminate|].
  destruct r2 as [|c r3]; [reflexivity|]. destruct (space3 (byteZ a) (byteZ b) (byteZ c)); [discriminate|].
  reflexivity.
Qed.

Lemma mask_space s cur :
  (0 < space_len s)%nat ->
  fields_go (space_mask s) cur = flush cur ++ fields_go (space_mask (str_drop (space_len s) s)) EmptyString.
Proof.
  destruct s as [|a r]; simpl; [lia|].
  destruct (ascii_space (byteZ a)); [reflexivity|].
  destruct r as [|b r2]; [lia|]. destruct (space2 (byteZ a) (byteZ b)); [reflexivity|].
  destruct r2 as [|c r3]; [lia|]. destruct (space3 (byteZ a) (byteZ b) (byteZ c)); [reflexivity|lia].
Qed.

Lemma clean_tail a w : clean (String a w) -> clean w.
Proof. intros H i Hi. apply (H (S i)). simpl. lia. Qed.

Lemma fields_go_word w t cur :
  clean w -> (t = EmptyString \/ (0 < space_len t)%nat) ->
  fields_go (space_mask (w +++ t)) cur = fields_go (space_mask t) (cur +++ w).
Proof.
  revert cur. induction w as [|a w IH]; intros cur Hw Ht.
  - rewrite sapp_nil_r. reflexivity.
  - assert (H0 : space_len (String a (w +++ t)) = 0%nat).
    { change (String a (w +++ t)) with (String a w +++ t). rewrite space_len_app by (congruence || exact Ht).
      apply (Hw 0%nat). simpl. lia. }
    change (String a w +++ t) with (String a (w +++ t)). rewrite (mask_nonspace _ _ H0). simpl.
    rewrite IH by (exact (clean_tail a w Hw) || exact Ht). rewrite sapp_assoc. reflexivity.
Qed.

Lemma fields_join ws :
  Forall (fun w => w <> EmptyString /\ clean w) ws -> fields_go (space_mask (Join ws " ")) EmptyString = ws.
Proof.
  induction ws as [|w ws IH]; intros Hws; [reflexivity|].
  apply Forall_cons in Hws. destruct Hws as [[Hne Hw] Hws].
  destruct ws as [|w2 ws'].
  - unfold Join. simpl. rewrite <- (sapp_nil_r w) at 1. rewrite fields_go_word by (auto || left; reflexivity).
    change (EmptyString +++ w) with w. simpl. unfold flush.
    destruct (String.eqb_spec w EmptyString); [contradiction|reflexivity].
  - change (Join (w :: w2 :: ws') " ") with (w +++ (" " +++ Join (w2 :: ws') " ")).
    rewrite fields_go_word by (auto || (right; reflexivity)).
    change (EmptyString +++ w) with w. simpl. unfold flush at 1.
    destruct (String.eqb_spec w EmptyString); [contradiction|].
    simpl. f_equal. apply IH. exact Hws.
Qed.

Lemma fields_clean n : forall s cur, (String.length s < n)%nat ->
  (forall i, (i < String.length cur)%nat -> space_len (str_drop i (cur +++ s)) = 0%nat) ->
  Forall (fun w => w <> EmptyString /\ clean w) (fields_go (space_mask s) cur).
Proof.
  induction n as [|n IH]; intros s cur Hn Hcur; [lia|].
  assert (Hflush : (s = EmptyString \/ (0 < space_len s)%nat) ->
                   Forall (fun w => w <> EmptyString /\ clean w) (flush cur)).
  { intros Hs. unfold flush. destruct (String.eqb_spec cur EmptyString); [constructor|].
    constructor; [|constructor]. split; [exact n0|]. intros i Hi.
    rewrite <- (space_len_app _ s); [|apply str_drop_nonempty; exact Hi|exact Hs].
    rewrite <- str_drop_app by lia. apply Hcur. exact Hi. }
  destruct (space_len s) eqn:Hl.
  - destruct s as [|a r].
    + simpl. apply Hflush. left. reflexivity.
    + rewrite (mask_nonspace _ _ Hl). simpl. apply IH; [simpl in Hn; lia|].
      intros i Hi. rewrite sapp_assoc. unfold String.length in Hi. fold String.length in Hi.
      assert (Hlen : String.length (cur +++ str1 a) = S (String.length cur)).
      { clear. unfold sapp. induction cur as [|c cur IH]; simpl; [reflexivity|rewrite IH; reflexivity]. }
      rewrite Hlen in Hi. destruct (Nat.eq_dec i (String.length cur)) as [->|Hne].
      * replace (str_drop (String.length cur) (cur +++ str1 a +++ r)) with (String a r); [exact Hl|].
        change (str1 a +++ r) with (String a r). rewrite str_drop_app by lia.
        clear. induction cur as [|c cur IH]; [reflexivity|exact IH].
      * apply Hcur. lia.
  - rewrite mask_space by lia. rewrite Hl. apply Forall_app. split; [apply Hflush; right; lia|].
    apply IH; [|simpl; lia].
    assert (Hd : (String.length (str_drop (S n0) s) < String.length s)%nat).
    { assert (Hs : s <> EmptyString) by (intros ->; discriminate).
      clear - Hs. revert s Hs. induction n0 as [|k IHk]; intros [|a r] Hs; simpl; try congruence.
      - lia.
      - destruct r as [|b r]; [simpl; lia|]. specialize (IHk (String b r) ltac:(discriminate)). simpl in *. lia. }
    lia.
Qed.

(** X19: [normalizeCommandPath] is idempotent: normalising a normalised path
    gives it back unchanged. *)
Theorem normalize_idempotent (p : string) :
  normalizeCommandPath (normalizeCommandPath p) = normalizeCommandPath p.
Proof.
  unfold normalizeCommandPath, Fields at 1. rewrite fields_join; [reflexivity|].
  apply (fields_clean (S (String.length p))); [lia|]. simpl. lia.
Qed.

(** X20: In a dispatcher built by [NewDispatcher], [Dispatch] and [Remove], every
    registered key is a normalised path equal to its entry's [Path]. Looking
    up that [Path] with [GetCommandEntry] finds the entry, and [HasCommand]
    holds for the key. *)
Theorem registry_invariant (nm : string) (d : Dispatcher) (p : string) (c : Command) (k : string) (e : CommandEntry) :
  registry_ok (NewDispatcher nm)
  /\ (registry_ok d -> registry_ok (Dispatch d p c))
  /\ (registry_ok d -> registry_ok (Remove d p))
  /\ (registry_ok d -> d.(commands) !! k = Some e ->
      GetCommandEntry d (Path e) = Some e /\ HasCommand d k = true).
Proof.
  split; [|split; [|split]].
  - intros k' e' H. simpl in H. rewrite lookup_empty in H. discriminate.
  - intros Hd k' e' H. unfold Dispatch in H. simpl in H.
    destruct (String.eq_dec (normalizeCommandPath p) k') as [<-|Hne].
    + rewrite lookup_insert_eq in H. injection H as <-. simpl.
      split; [reflexivity|apply normalize_idempotent].
    + rewrite lookup_insert_ne in H by exact Hne. apply Hd. exact H.
  - intros Hd k' e' H. unfold Remove in H. simpl in H.
    apply lookup_delete_Some in H. apply Hd. tauto.
  - intros Hd H. destruct (Hd k e H) as [Hp Hn].
    unfold GetCommandEntry, HasCommand. rewrite Hp, Hn, H. split; reflexivity.
Qed.

Lemma substring_all s : String.substring 0 (String.length s) s = s.
Proof. induction s as [|c s IH]; [reflexivity|simpl; rewrite IH; reflexivity]. Qed.

Lemma sdrop_sapp p s : sdrop (String.length p) (p +++ s) = s.
Proof.
  unfold sdrop, sapp. induction p as [|c p IH]; simpl.
  - rewrite Nat.sub_0_r. apply substring_all.
  - exact IH.
Qed.

Lemma contains_eq_split nm v :
  contains_eq nm = false -> contains_eq (nm +++ "=" +++ v) = true /\ split_eq (nm +++ "=" +++ v) = (nm, v).
Proof.
  unfold sapp. induction nm as [|c nm IH]; simpl; intros H; [split; reflexivity|].
  apply orb_false_iff in H as [H1 H2]. rewrite H1. simpl.
  destruct (IH H2) as [-> ->]. split; reflexivity.
Qed.

Lemma runes_of_nonempty v : v <> "" -> runes_of v <> [].
Proof.
  destruct v as [|a r]; [congruence|intros _]. simpl.
  repeat (case_match; try discriminate).
Qed.

Section TokenForms.

Context (PD : string -> Z + string) (PF : string -> Z -> Z + conv_error).

(** X5: For a registered non-bool long flag whose name is non-empty and has no
    "=", the two tokens ["--nm"; v] are scanned exactly like the one token
    "--nm=v". *)
Theorem long_value_forms (f : FlagSet) (st : gmap nat Val) (nm v : string)
    (rest : list string) (fl : Flag) :
  nm <> "" -> contains_eq nm = false ->
  f.(flags) !! nm = Some fl -> IsBool fl.(FlagValue) = false ->
  scan PD (("--" +++ nm) :: v :: rest) (mkPState f st)
  = scan PD (("--" +++ nm +++ "=" +++ v) :: rest) (mkPState f st).
Proof.
  intros Hne Hc Hl Hb. cbn [scan].
  assert (E1 : forall x, x <> "" -> String.eqb ("--" +++ x) "--" = false).
  { intros x Hx. destruct (String.eqb_spec ("--" +++ x) "--") as [E|]; [|reflexivity].
    destruct x; [congruence|discriminate]. }
  assert (E2 : forall x, HasPrefix ("--" +++ x) "--" = true) by (intros x; apply HasPrefix_spec; eauto).
  rewrite (E1 nm Hne), (E1 (nm +++ "=" +++ v)) by (destruct nm; [congruence|discriminate]).
  rewrite !E2. rewrite !(sdrop_sapp "--").
  destruct (contains_eq_split nm v Hc) as [C S].
  unfold parseLongFlag. rewrite Hc, C, S.
  unfold bind, get_fs, ret. simpl. rewrite Hl, Hb. simpl.
  destruct (SetValue PD (FlagValue fl) v (mkPState f st)) as [ps' [[e|]|e|]]; reflexivity.
Qed.

Lemma short_loop_bools f st rs here :
  Forall (short_bool f) rs ->
  short_loop PD rs here (mkPState f st) = (mkPState f (mark_true f rs st), ROk Next).
Proof.
  intros H. revert st. induction H as [|q rs [fl [Hq Hb]] _ IH]; intros st; [reflexivity|].
  simpl. unfold bind at 1, get_fs. simpl. rewrite Hq, Hb.
  unfold bind at 1. rewrite (SetValue_bool_true PD) by exact Hb. simpl.
  rewrite IH. reflexivity.
Qed.

Lemma runes_of_ascii (cs : list ascii) :
  Forall (fun c => byteZ c < 128) cs -> runes_of (string_of_list_ascii cs) = map byteZ cs.
Proof.
  induction 1 as [|c cs Hc _ IH]; [reflexivity|].
  simpl. destruct (Z.ltb_spec (byteZ c) 128); [|lia]. rewrite IH. reflexivity.
Qed.

Lemma dash_tok_conds c x :
  c <> "-"%char ->
  String.eqb ("-" +++ String c x) "--" = false
  /\ HasPrefix ("-" +++ String c x) "--" = false
  /\ (HasPrefix ("-" +++ String c x) "-" && (1 <? String.length ("-" +++ String c x))%nat) = true
  /\ sdrop 1 ("-" +++ String c x) = String c x.
Proof.
  intros Hc. split; [|split; [|split]].
  - destruct (String.eqb_spec ("-" +++ String c x) "--") as [E|]; [|reflexivity].
    destruct x; injection E; intros; congruence.
  - destruct (HasPrefix ("-" +++ String c x) "--") eqn:E; [|reflexivity].
    apply HasPrefix_spec in E. destruct E as [r E]. injection E; intros; congruence.
  - apply andb_true_iff. split; [apply HasPrefix_spec; eauto|reflexivity].
  - exact (sdrop_sapp "-" (String c x)).
Qed.

Lemma scan_bool_single f st c rest :
  byteZ c < 128 -> c <> "-"%char -> short_bool f (byteZ c) ->
  scan PD (("-" +++ str1 c) :: rest) (mkPState f st)
  = scan PD rest (mkPState f (mark_true f [byteZ c] st)).
Proof.
  intros Ha Hc Hb. destruct (dash_tok_conds c "" Hc) as (E1 & E2 & E3 & E4).
  cbn [scan]. unfold str1. rewrite E1, E2, E3, E4. unfold parseShortFlags.
  change (String c "") with (string_of_list_ascii [c]).
  rewrite runes_of_ascii by (constructor; [exact Ha|constructor]).
  unfold bind at 1. rewrite short_loop_bools by (constructor; [exact Hb|constructor]).
  reflexivity.
Qed.

(** X6: A cluster "-abc" of ASCII short flags that are all registered bool flags
    is scanned exactly like the separate tokens "-a" "-b" "-c". *)
Theorem bool_cluster_forms (f : FlagSet) (st : gmap nat Val) (cs : list ascii) (rest : list string) :
  cs <> [] ->
  Forall (fun c => byteZ c < 128 /\ c <> "-"%char /\ short_bool f (byteZ c)) cs ->
  scan PD (("-" +++ string_of_list_ascii cs) :: rest) (mkPState f st)
  = scan PD (map (fun c => "-" +++ str1 c) cs ++ rest) (mkPState f st).
Proof.
  intros Hne H.
  assert (RHS : forall st, scan PD (map (fun c => "-" +++ str1 c) cs ++ rest) (mkPState f st)
                = scan PD rest (mkPState f (mark_true f (map byteZ cs) st))).
  { clear Hne. induction H as [|c cs (Ha & Hc & Hb) _ IH]; intros st'; [reflexivity|].
    simpl app. rewrite scan_bool_single by assumption. rewrite IH. reflexivity. }
  rewrite RHS. destruct cs as [|c cs']; [congruence|].
  pose proof H as H'. inversion H' as [|? ? (Ha & Hc & Hb) _]; subst.
  destruct (dash_tok_conds c (string_of_list_ascii cs') Hc) as (E1 & E2 & E3 & E4).
  cbn [scan]. cbn [string_of_list_ascii].
  rewrite E1, E2, E3, E4. unfold parseShortFlags.
  change (String c (string_of_list_ascii cs')) with (string_of_list_ascii (c :: cs')).
  rewrite runes_of_ascii by (eapply Forall_impl; [exact H|]; intros ? []; assumption).
  unfold bind at 1. rewrite short_loop_bools.
  - reflexivity.
  - apply Forall_map. eapply Forall_impl; [exact H|]. intros ? (_ & _ & ?); assumption.
Qed.

(** X7: For a registered non-bool ASCII short flag c, the two tokens ["-c"; v]
    are scanned like the one token "-cv". This needs v non-empty and valid
    UTF-8, and v must not start with a rune that is a registered non-bool
    short flag. *)
Theorem short_value_forms (f : FlagSet) (st : gmap nat Val) (c : ascii) (v : string)
    (rest : list string) (fl : Flag) :
  byteZ c < 128 -> c <> "-"%char ->
  f.(shortMap) !! byteZ c = Some fl -> IsBool fl.(FlagValue) = false ->
  v <> "" -> string_of_runes (runes_of v) = v ->
  (forall r rs fl', runes_of v = r :: rs -> f.(shortMap) !! r = Some fl' -> IsBool fl'.(FlagValue) = true) ->
  scan PD (("-" +++ str1 c) :: v :: rest) (mkPState f st)
  = scan PD (("-" +++ String c v) :: rest) (mkPState f st).
Proof.
  intros Ha Hc Hl Hb Hv Hrt Hfirst.
  destruct (dash_tok_conds c "" Hc) as (E1 & E2 & E3 & E4).
  destruct (dash_tok_conds c v Hc) as (F1 & F2 & F3 & F4).
  cbn [scan]. unfold str1. rewrite E1, E2, E3, E4, F1, F2, F3, F4. unfold parseShortFlags.
  assert (R1 : runes_of (String c "") = [byteZ c])
    by (simpl; destruct (Z.ltb_spec (byteZ c) 128); [reflexivity|lia]).
  assert (R2 : runes_of (String c v) = byteZ c :: runes_of v)
    by (simpl; destruct (Z.ltb_spec (byteZ c) 128); [reflexivity|lia]).
  rewrite R1, R2.
  destruct (runes_of v) as [|r rs] eqn:Ev; [exfalso; exact (runes_of_nonempty v Hv Ev)|].
  specialize (Hfirst r rs).
  cbn [short_loop]. rewrite Hrt.
  unfold bind, get_fs, ret. cbn -[SetValue scan]. rewrite Hl, Hb. cbn -[SetValue scan].
  destruct (shortMap f !! r) as [fl'|] eqn:Er.
  - rewrite (Hfirst fl' eq_refl eq_refl). cbn -[SetValue scan].
    destruct (SetValue PD (FlagValue fl) v (mkPState f st)) as [ps' [[e|]|e|]]; reflexivity.
  - destruct (SetValue PD (FlagValue fl) v (mkPState f st)) as [ps' [[e|]|e|]]; reflexivity.
Qed.

End TokenForms.

(** *** Completion lists *)

Lemma sorted_strings_unique (l1 l2 : list string) :
  Sorted String.le l1 -> Sorted String.le l2 -> l1 ≡ₚ l2 -> l1 = l2.
Proof. apply Sorted_unique; typeclasses eauto. Qed.

Lemma values_sort_completions (cs : list Completion) :
  map cValue (sort_completions cs) = merge_sort String.le (map cValue cs).
Proof.
  apply sorted_strings_unique.
  - assert (HS : Sorted (fun c1 c2 => String.le c1.(cValue) c2.(cValue)) (sort_completions cs)).
    { unfold sort_completions. apply Sorted_merge_sort. intros c1 c2. apply String.le_total. }
    induction HS as [|c l _ IH Hd]; cbn; constructor; [exact IH|].
    destruct Hd as [|c' l' Hc]; cbn; constructor; exact Hc.
  - apply Sorted_merge_sort. apply String.le_total.
  - rewrite merge_sort_Permutation. apply Permutation_map. unfold sort_completions. apply merge_sort_Permutation.
Qed.

Lemma HasPrefix_nil s : HasPrefix s "" = true.
Proof. destruct s; reflexivity. Qed.

Lemma map_omap {A B C} (g : A -> option B) (h : B -> C) (l : list A) :
  map h (omap g l) = omap (fun x => option_map h (g x)) l.
Proof. induction l as [|x l IH]; [reflexivity|]. cbn. destruct (g x); cbn; rewrite IH; reflexivity. Qed.

Lemma omap_ext_in {A B} (g1 g2 : A -> option B) (l : list A) :
  (forall x, In x l -> g1 x = g2 x) -> omap g1 l = omap g2 l.
Proof.
  induction l as [|x l IH]; intros H; [reflexivity|]. cbn. rewrite (H x (or_introl eq_refl)).
  destruct (g2 x); [f_equal|]; apply IH; intros y Hy; apply H; right; exact Hy.
Qed.

Lemma omap_all_some {A B} (g : A -> option B) (h : A -> B) (l : list A) :
  (forall x, In x l -> g x = Some (h x)) -> omap g l = map h l.
Proof.
  induction l as [|x l IH]; intros H; [reflexivity|]. cbn. rewrite (H x (or_introl eq_refl)).
  f_equal. apply IH. intros y Hy. apply H. right. exact Hy.
Qed.

Lemma sort_app_sorted (l1 l2 : list string) :
  merge_sort String.le (l1 ++ l2) = merge_sort String.le (merge_sort String.le l1 ++ merge_sort String.le l2).
Proof.
  apply sorted_strings_unique; [apply Sorted_merge_sort, String.le_total..|].
  rewrite !merge_sort_Permutation. reflexivity.
Qed.

(** X21: with no flag under rune 0 in [shortMap], the values [GetFlagCompletions]
    offers for the prefix "--" are exactly [GetLongFlags], those for "-" exactly
    [GetShortFlags], and those for the empty prefix are both lists merged in
    sorted order. *)
Theorem completion_lists (f : FlagSet) :
  f.(shortMap) !! 0 = None ->
  map cValue (GetFlagCompletions f "--") = GetLongFlags f
  /\ map cValue (GetFlagCompletions f "-") = GetShortFlags f
  /\ map cValue (GetFlagCompletions f "") = merge_sort String.le (GetLongFlags f ++ GetShortFlags f).
Proof.
  intros H0.
  set (mk := fun (v : string) (fl : Flag) => mkCompletion v fl.(Usage) (IsBool fl.(FlagValue))).
  set (longs := omap (fun kv : string * Flag =>
                   if negb (String.eqb kv.1 "") then Some (mk ("--" +++ kv.1) kv.2) else None)
                 (map_to_list f.(flags))).
  set (shorts := map (fun kv : Z * Flag => mk ("-" +++ encode_rune kv.1) kv.2) (map_to_list f.(shortMap))).
  assert (E1 : GetFlagCompletions f "--" = sort_completions
     (omap (fun kv : string * Flag =>
              if negb (String.eqb kv.1 "") && HasPrefix kv.1 ""
              then Some (mk ("--" +++ kv.1) kv.2) else None) (map_to_list f.(flags)))) by reflexivity.
  assert (E2 : GetFlagCompletions f "-" = sort_completions shorts) by reflexivity.
  assert (E3 : GetFlagCompletions f "" = sort_completions (longs ++ shorts)) by reflexivity.
  assert (HLv : map cValue longs
     = omap (fun kv : string * Flag => if String.eqb kv.1 "" then None else Some ("--" +++ kv.1))
            (map_to_list f.(flags))).
  { unfold longs. rewrite map_omap. apply omap_ext_in. intros [k fl] _. cbn.
    destruct (String.eqb k ""); reflexivity. }
  assert (HSv : map cValue shorts
     = omap (fun kv : Z * Flag => if Z.eqb kv.1 0 then None else Some ("-" +++ encode_rune kv.1))
            (map_to_list f.(shortMap))).
  { unfold shorts. rewrite map_map. symmetry. apply omap_all_some.
    intros [r fl] Hr. apply list_elem_of_In, elem_of_map_to_list in Hr. cbn.
    rewrite (proj2 (Z.eqb_neq r 0)); [reflexivity|]. intros ->. congruence. }
  split; [|split].
  - rewrite E1, values_sort_completions. unfold GetLongFlags. f_equal. rewrite <- HLv. unfold longs.
    rewrite !map_omap. apply omap_ext_in. intros [k fl] _. cbn. destruct k; reflexivity.
  - rewrite E2, values_sort_completions, HSv. reflexivity.
  - rewrite E3, values_sort_completions, map_app, HLv, HSv. apply sort_app_sorted.
Qed.

(* ------------------------------------------------------------------ *)
(** ** Witnesses of the properties of the rest of the package *)

Lemma value_set_string_roundtrip_witness :
  roundtrip_val KStringArray (VStrings ["a"; "b"])
  /\ value_set pd0 KStringArray (value_string ds0 KStringArray (Some (VStrings ["a"; "b"])))
     = inl (VStrings ["a"; "b"]).
Proof.
  assert (H : roundtrip_val KStringArray (VStrings ["a"; "b"])).
  { split; [discriminate|]. repeat constructor; discriminate. }
  split; [exact H|exact (proj1 (value_set_string_roundtrip pd0 ds0 KStringArray (VStrings ["a"; "b"]) H))].
Defined.

Lemma converted_integers_in_range_witness :
  setFieldValue pd0 pf0 (TInt 8) "-100" = inl (VInt (-100)) /\ - 2 ^ 7 <= -100 < 2 ^ 7.
Proof.
  assert (Hs : setFieldValue pd0 pf0 (TInt 8) "-100" = inl (VInt (-100))) by (vm_compute; reflexivity).
  split; [exact Hs|]. exact (proj1 (converted_integers_in_range pd0 pf0 8 "-100" (-100) ltac:(lia)) Hs).
Defined.

Lemma parse_plain_args_witness :
  Forall (fun t => plain_arg t = true) ["a"; "-"]
  /\ args (ps_fs (Parse pd0 pf0 [] (["a"; "-"] ++ "--" :: ["-x"]) empty_ps).1) = ["a"; "-"; "-x"].
Proof.
  assert (H : Forall (fun t => plain_arg t = true) ["a"; "-"]) by (repeat constructor).
  split; [exact H|]. exact (proj1 (parse_plain_args pd0 pf0 [] ["a"; "-"] ["-x"] empty_ps H)).
Defined.

Lemma long_value_forms_witness :
  flags fs_out !! "out" = Some flag_out
  /\ scan pd0 (("--" +++ "out") :: "f.txt" :: ["x"]) (mkPState fs_out ∅)
     = scan pd0 (("--" +++ "out" +++ "=" +++ "f.txt") :: ["x"]) (mkPState fs_out ∅).
Proof.
  assert (Hl : flags fs_out !! "out" = Some flag_out) by (vm_compute; reflexivity).
  split; [exact Hl|].
  exact (long_value_forms pd0 fs_out ∅ "out" "f.txt" ["x"] flag_out ltac:(discriminate) eq_refl Hl eq_refl).
Defined.

Lemma bool_cluster_forms_witness :
  Forall (fun c => byteZ c < 128 /\ c <> "-"%char /\ short_bool fs_ab (byteZ c)) ["a"%char; "b"%char]
  /\ scan pd0 (("-" +++ string_of_list_ascii ["a"%char; "b"%char]) :: ["x"]) (mkPState fs_ab ∅)
     = scan pd0 (map (fun c => "-" +++ str1 c) ["a"%char; "b"%char] ++ ["x"]) (mkPState fs_ab ∅).
Proof.
  assert (H : Forall (fun c => byteZ c < 128 /\ c <> "-"%char /\ short_bool fs_ab (byteZ c)) ["a"%char; "b"%char]).
  { repeat constructor; try (vm_compute; reflexivity); try discriminate; eexists; split; vm_compute; reflexivity. }
  split; [exact H|]. exact (bool_cluster_forms pd0 fs_ab ∅ ["a"%char; "b"%char] ["x"] ltac:(discriminate) H).
Defined.

Lemma short_value_forms_witness :
  shortMap fs_out !! byteZ "o"%char = Some flag_out
  /\ scan pd0 (("-" +++ str1 "o"%char) :: "file" :: []) (mkPState fs_out ∅)
     = scan pd0 (("-" +++ String "o"%char "file") :: []) (mkPState fs_out ∅).
Proof.
  assert (Hl : shortMap fs_out !! byteZ "o"%char = Some flag_out) by (vm_compute; reflexivity).
  split; [exact Hl|].
  refine (short_value_forms pd0 fs_out ∅ "o"%char "file" [] flag_out _ _ Hl eq_refl _ eq_refl _).
  - vm_compute. reflexivity.
  - discriminate.
  - discriminate.
  - intros r rs fl' Hr Hf. vm_compute in Hr. injection Hr as <- _. vm_compute in Hf. discriminate.
Defined.

Lemma remove_undoes_dispatch_witness :
  HasCommand d_ab "c  d" = false /\ Fields " c d " = Fields "c  d"
  /\ Remove (Dispatch d_ab "c  d" cmd_plain) " c d " = d_ab.
Proof.
  assert (H1 : HasCommand d_ab "c  d" = false) by (vm_compute; reflexivity).
  assert (H2 : Fields " c d " = Fields "c  d") by (vm_compute; reflexivity).
  split; [exact H1|]. split; [exact H2|]. exact (remove_undoes_dispatch d_ab "c  d" " c d " cmd_plain H1 H2).
Defined.

Lemma findCommand_agrees_without_flags_witness :
  Forall (fun w => HasPrefix w "-" = false) ["a"; "x"]
  /\ findCommandWithInterspersedFlags d_ab ["a"; "x"] = findCommand d_ab ["a"; "x"].
Proof.
  assert (H : Forall (fun w => HasPrefix w "-" = false) ["a"; "x"]) by (repeat constructor).
  split; [exact H|]. exact (findCommand_agrees_without_flags d_ab ["a"; "x"] H).
Defined.

Lemma flag_completions_long_witness :
  HasPrefix "--o" "--" = true
  /\ (mkCompletion "--out" "" false ∈ GetFlagCompletions fs_out "--o"
      <-> exists nm fl, fs_out.(flags) !! nm = Some fl /\ nm <> ""
          /\ HasPrefix nm (sdrop 2 "--o") = true
          /\ mkCompletion "--out" "" false = mkCompletion ("--" +++ nm) fl.(Usage) (IsBool fl.(FlagValue))).
Proof.
  assert (H : HasPrefix "--o" "--" = true) by reflexivity.
  split; [exact H|]. exact (proj1 (flag_completions_long fs_out "--o" (mkCompletion "--out" "" false) H)).
Defined.

Lemma flag_completions_none_witness :
  shortMap fs_e9 !! 233 = Some flag_e9
  /\ GetFlagCompletions fs_e9 ("-" +++ encode_rune 233) = []
  /\ GetFlagCompletions fs_e9 "abc" = []
  /\ GetFlagCompletions fs_e9 "-abc" = [].
Proof.
  assert (Hl : shortMap fs_e9 !! 233 = Some flag_e9) by (vm_compute; reflexivity).
  destruct (flag_completions_none fs_e9 "abc" 233 flag_e9) as (H1 & _ & H3).
  destruct (flag_completions_none fs_e9 "-abc" 233 flag_e9) as (_ & H2 & _).
  split; [exact Hl|]. split; [exact (H3 Hl ltac:(lia))|].
  split; [exact (H1 ltac:(discriminate) eq_refl)|exact (H2 eq_refl eq_refl ltac:(simpl; lia))].
Defined.

Lemma showHelp_sorted_witness :
  ["b"; "a"] ≡ₚ map fst (map_to_list d_ab.(commands))
  /\ showHelp d_ab ["a"; "b"] = showHelp d_ab ["b"; "a"].
Proof.
  assert (H : ["b"; "a"] ≡ₚ map fst (map_to_list d_ab.(commands))) by (vm_compute; apply perm_swap).
  split; [exact H|]. apply (proj2 (showHelp_sorted d_ab ["b"; "a"] H)).
  vm_compute. reflexivity.
Defined.

Lemma registry_invariant_witness :
  registry_ok (Dispatch (NewDispatcher "app") "  a   b " cmd_plain).
Proof.
  destruct (registry_invariant "app" (NewDispatcher "app") "  a   b " cmd_plain "" (mkCommandEntry "" cmd_plain ""))
    as (H0 & H1 & _).
  exact (H1 H0).
Defined.

Lemma completion_lists_witness :
  shortMap fs_out !! 0 = None
  /\ map cValue (GetFlagCompletions fs_out "") = merge_sort String.le (GetLongFlags fs_out ++ GetShortFlags fs_out).
Proof.
  assert (H : shortMap fs_out !! 0 = None) by (vm_compute; reflexivity).
  split; [exact H|]. exact (proj2 (proj2 (completion_lists fs_out H))).
Defined.
